(** * Trie / Aho-Corasick automaton of [licensedcode/pyahocorasick.py]

    A shallow embedding of the classes [TrieNode] and [Trie].  Python
    objects are mutable and shared (after [make_automaton] the root is
    its own child, and [fail] points across the tree), so nodes live in
    a store addressed by allocation index; an address plays the role of
    the identity of a Python object.  Loops that the source writes as
    [while] take a fuel argument; running out of it is a result of its
    own, distinct from an exception. *)

From Stdlib Require Import Ascii String Sorted.
From stdpp Require Import base option list relations strings.


(** ** Outcomes of a call *)

(** [KeyError] is raised by [get]; [AttributeError] is what Python
    raises when the attribute [children] or [fail] is read from [NIL]
    (a plain [object()]).  [BadRef] stands for a reference to a node
    that the store does not hold; no run of the program produces it. *)
Inductive exn : Type :=
  | KeyError
  | AttributeError
  | BadRef.

Inductive result (A : Type) : Type :=
  | Ok (a : A)
  | Raise (e : exn)
  | OutOfFuel.

Arguments Ok {A} a.
Arguments Raise {A} e.
Arguments OutOfFuel {A}.

#[global] Instance result_ret : MRet result := fun A a => Ok a.
#[global] Instance result_bind : MBind result := fun A B f m =>
  match m with
  | Ok a => f a
  | Raise e => Raise e
  | OutOfFuel => OutOfFuel
  end.

(** References to nodes: indices into the store. *)
Abbreviation addr := nat.

(** The root is the first object allocated by [Trie.__init__]. *)
Definition root : addr := 0.

Section Model.
Context {Item : Type} `{!EqDecision Item} {V : Type}.

(** ** [TrieNode] *)

(** [NIL] in the slots [value] and [fail] is [None]; the root is the
    only node built with [keyitem = None]. *)
Record TrieNode : Type := mkNode {
  keyitem : option Item;
  value : option V;
  fail : option addr;
  children : list (Item * addr)
}.

Definition TrieNode_init (k : option Item) : TrieNode :=
  mkNode k None None [].

Definition with_value (v : option V) (n : TrieNode) : TrieNode :=
  mkNode (keyitem n) v (fail n) (children n).
Definition with_fail (f : option addr) (n : TrieNode) : TrieNode :=
  mkNode (keyitem n) (value n) f (children n).
Definition with_children (c : list (Item * addr)) (n : TrieNode) : TrieNode :=
  mkNode (keyitem n) (value n) (fail n) c.

(** ** The [children] dict

    An association list in insertion order, as [dict.values()] is
    iterated by [__len__] and [make_automaton]. *)
Fixpoint dict_get (d : list (Item * addr)) (k : Item) : option addr :=
  match d with
  | [] => None
  | (k', c) :: d' => if decide (k' = k) then Some c else dict_get d' k
  end.

(** [d[k] = c]: an existing key keeps its place, a new one goes last. *)
Fixpoint dict_set (d : list (Item * addr)) (k : Item) (c : addr)
  : list (Item * addr) :=
  match d with
  | [] => [(k, c)]
  | (k', c') :: d' =>
      if decide (k' = k) then (k', c) :: d' else (k', c') :: dict_set d' k c
  end.

Definition dict_values (d : list (Item * addr)) : list addr := d.*2.

(** [k in d], for a key that may be the root's [None]: items are
    never [None], so that key is in no dict. *)
Definition dict_mem (d : list (Item * addr)) (k : option Item) : bool :=
  match k with
  | Some k' => bool_decide (is_Some (dict_get d k'))
  | None => false
  end.

(** [d.get(k, dflt)] *)
Definition dict_get_default (d : list (Item * addr)) (k : option Item)
    (dflt : addr) : addr :=
  match k with
  | Some k' => default dflt (dict_get d k')
  | None => dflt
  end.

(** ** The store and [Trie] *)

Local Abbreviation heap := (list TrieNode).

Definition deref (h : heap) (a : addr) : result TrieNode :=
  match h !! a with
  | Some n => Ok n
  | None => Raise BadRef
  end.

Definition set_value (h : heap) (a : addr) (v : option V) : heap :=
  alter (with_value v) a h.
Definition set_fail (h : heap) (a : addr) (f : option addr) : heap :=
  alter (with_fail f) a h.
Definition set_children (h : heap) (a : addr) (c : list (Item * addr)) : heap :=
  alter (with_children c) a h.

Record Trie : Type := mkTrie {
  nodes : heap;
  items_range : nat;
  content : nat -> Item
}.

(** [Trie.__init__] *)
Definition Trie_init (items_range : nat) (content : nat -> Item) : Trie :=
  mkTrie [TrieNode_init None] items_range content.

Definition with_nodes (h : heap) (t : Trie) : Trie :=
  mkTrie h (items_range t) (content t).

(** [Trie.__get_node]: [None] is Python's [None]. *)
Fixpoint get_node_from (h : heap) (node : addr) (seq : list Item)
  : option addr :=
  match seq with
  | [] => Some node
  | k :: seq' =>
      match h !! node with
      | Some n =>
          match dict_get (children n) k with
          | Some c => get_node_from h c seq'
          | None => None
          end
      | None => None
      end
  end.

Definition get_node (t : Trie) (seq : list Item) : option addr :=
  get_node_from (nodes t) root seq.

(** The [value] slot of the node at [a]. *)
Definition value_at (h : heap) (a : addr) : option V :=
  h !! a ≫= value.
Definition fail_at (h : heap) (a : addr) : option addr :=
  h !! a ≫= fail.

(** [Trie.get]: [dflt = None] is the call with no default. *)
Definition get (t : Trie) (seq : list Item) (dflt : option V) : result V :=
  let node := get_node t seq in
  let value :=
    match node with
    | Some a => value_at (nodes t) a
    | None => None
    end in
  match value with
  | None =>
      match dflt with
      | None => Raise KeyError
      | Some d => Ok d
      end
  | Some v => Ok v
  end.

(** [Trie.exists] *)
Definition exists_ (t : Trie) (seq : list Item) : bool :=
  match get_node t seq with
  | Some a => bool_decide (is_Some (value_at (nodes t) a))
  | None => false
  end.

(** [Trie.match] *)
Definition match_ (t : Trie) (seq : list Item) : bool :=
  bool_decide (is_Some (get_node t seq)).

(** [Trie.__len__]: the head of [stack] is the right end of the
    deque, so pushing the children in order reverses them on top. *)
Fixpoint len_loop (fuel : nat) (h : heap) (stack : list addr) (n : nat)
  : result nat :=
  match fuel with
  | 0 => OutOfFuel
  | S fuel' =>
      match stack with
      | [] => Ok n
      | node :: stack' =>
          nd ← deref h node;
          let n' := match value nd with Some _ => S n | None => n end in
          len_loop fuel' h (reverse (dict_values (children nd)) ++ stack') n'
      end
  end.

Definition len (fuel : nat) (t : Trie) : result nat :=
  len_loop fuel (nodes t) [root] 0.

(** [Trie.add]: the walk creating missing nodes; a new [TrieNode] is
    allocated at the end of the store. *)
Fixpoint add_walk (h : heap) (node : addr) (seq : list Item) : heap * addr :=
  match seq with
  | [] => (h, node)
  | k :: seq' =>
      match h !! node with
      | Some nd =>
          match dict_get (children nd) k with
          | Some c => add_walk h c seq'
          | None =>
              let n := length h in
              let h' := set_children h node (dict_set (children nd) k n)
                        ++ [TrieNode_init (Some k)] in
              add_walk h' n seq'
          end
      | None => (h, node)
      end
  end.

Definition add (t : Trie) (seq : list Item) (v : V) : Trie :=
  match seq with
  | [] => t
  | _ =>
      let '(h, node) := add_walk (nodes t) root seq in
      with_nodes (set_value h node (Some v)) t
  end.

(** ** [Trie.make_automaton] *)

(** Step 1, one turn of [for i in range(self.items_range)]. *)
Definition root_step (cont : nat -> Item) (hq : heap * list addr) (i : nat)
  : result (heap * list addr) :=
  let '(h, queue) := hq in
  let item := cont i in
  r ← deref h root;
  match dict_get (children r) item with
  | Some node => Ok (set_fail h node (Some root), queue ++ [node])
  | None => Ok (set_children h root (dict_set (children r) item root), queue)
  end.

Fixpoint root_loop (cont : nat -> Item) (hq : heap * list addr)
    (range : list nat) : result (heap * list addr) :=
  match range with
  | [] => Ok hq
  | i :: range' => hq' ← root_step cont hq i; root_loop cont hq' range'
  end.

(** [while k not in state.children: state = state.fail], shared by
    [make_automaton] and [search].  [state = None] is [NIL], whose
    [children] cannot be read. *)
Fixpoint follow_fail (fuel : nat) (h : heap) (state : option addr)
    (k : option Item) : result addr :=
  match fuel with
  | 0 => OutOfFuel
  | S fuel' =>
      match state with
      | None => Raise AttributeError
      | Some a =>
          st ← deref h a;
          if dict_mem (children st) k then Ok a
          else follow_fail fuel' h (fail st) k
      end
  end.

(** Step 2, [for node in current.children.values()]. *)
Fixpoint link_children (fuel : nat) (h : heap) (queue : list addr)
    (current : addr) (vals : list addr) : result (heap * list addr) :=
  match vals with
  | [] => Ok (h, queue)
  | node :: vals' =>
      let queue' := queue ++ [node] in
      cur ← deref h current;
      nd ← deref h node;
      state ← follow_fail fuel h (fail cur) (keyitem nd);
      st ← deref h state;
      let target := dict_get_default (children st) (keyitem nd) root in
      link_children fuel (set_fail h node (Some target)) queue' current vals'
  end.

(** Step 2, [while queue]. *)
Fixpoint bfs (fuel : nat) (h : heap) (queue : list addr) : result heap :=
  match fuel with
  | 0 => OutOfFuel
  | S fuel' =>
      match queue with
      | [] => Ok h
      | current :: queue' =>
          cur ← deref h current;
          '(h', queue'') ←
            link_children fuel' h queue' current (dict_values (children cur));
          bfs fuel' h' queue''
      end
  end.

Definition make_automaton (fuel : nat) (t : Trie) : result Trie :=
  '(h, queue) ← root_loop (content t) (nodes t, []) (seq 0 (items_range t));
  h' ← bfs fuel h queue;
  Ok (with_nodes h' t).

(** ** [Trie.search] *)

(** [while tmp is not NIL], collecting the values on the fail chain. *)
Fixpoint collect (fuel : nat) (h : heap) (tmp : option addr) (acc : list V)
  : result (list V) :=
  match fuel with
  | 0 => OutOfFuel
  | S fuel' =>
      match tmp with
      | None => Ok acc
      | Some a =>
          nd ← deref h a;
          let acc' :=
            match value nd with
            | Some v => acc ++ [v]
            | None => acc
            end in
          collect fuel' h (fail nd) acc'
      end
  end.

(** The body of [for index, keyitem in enumerate(seq)] up to the
    [yield]: the next state and the values collected there. *)
Definition search_step (fuel : nat) (h : heap) (state : addr) (k : Item)
  : result (addr * list V) :=
  s ← follow_fail fuel h (Some state) (Some k);
  st ← deref h s;
  let state' := dict_get_default (children st) (Some k) root in
  vals ← collect fuel h (Some state') [];
  Ok (state', vals).

(** The generator run to exhaustion: the list of what it yields,
    with the state it stops in. *)
Fixpoint search_loop (fuel : nat) (h : heap) (state : addr) (index : nat)
    (seq : list Item) : result (addr * list (nat * list V)) :=
  match seq with
  | [] => Ok (state, [])
  | k :: seq' =>
      '(state', vals) ← search_step fuel h state k;
      '(final, out) ← search_loop fuel h state' (S index) seq';
      Ok (final, match vals with
                 | [] => out
                 | _ => (index, vals) :: out
                 end)
  end.

Definition search (fuel : nat) (t : Trie) (seq : list Item)
  : result (list (nat * list V)) :=
  '(_, out) ← search_loop fuel (nodes t) root 0 seq;
  Ok out.

(** The trie after a series of [add] calls on a fresh [Trie]. *)
Definition build (items_range : nat) (content : nat -> Item)
    (ops : list (list Item * V)) : Trie :=
  foldl (fun t op => add t op.1 op.2) (Trie_init items_range content) ops.

(** ** [Trie.iteritems], [iterkeys], [itervalues] *)

(** Outcomes of [iteritems].  [TypeError] is what [list(node.keyitem)]
    raises for an item that is not iterable; [TooDeep] is the
    recursion of [walk] exceeding the depth [fuel] allows; [NoNode]
    stands for a reference that the store does not hold. *)
Inductive walk_result (A : Type) : Type :=
  | Walked (a : A)
  | TypeError
  | NoNode
  | TooDeep.

(** The first lines of [walk]: the key [s] handed down, extended by
    the item of the node.  An empty (or [None]) [s] is replaced by the
    item alone; otherwise [list(node.keyitem)] is appended, with
    [as_list] standing for Python's [list] on an item, [None] where
    the item (or the root's [None]) is not iterable. *)
Definition walk_key (as_list : Item -> option (list Item))
    (nd : TrieNode) (s : list Item) : option (list Item) :=
  match s with
  | [] => Some (match keyitem nd with
                | Some k => [k]
                | None => []
                end)
  | _ => l ← keyitem nd ≫= as_list; Some (s ++ l)
  end.

(** [for child in node.children.values(): if child is not node:
    walk(child, s)], with [rec] the recursive call and [L] the list
    the calls append to. *)
Fixpoint walk_each
    (rec : addr -> list (list Item * V) -> walk_result (list (list Item * V)))
    (node : addr) (cs : list addr) (L : list (list Item * V))
  : walk_result (list (list Item * V)) :=
  match cs with
  | [] => Walked _ L
  | child :: cs' =>
      if decide (child = node) then walk_each rec node cs' L
      else match rec child L with
           | Walked _ L' => walk_each rec node cs' L'
           | r => r
           end
  end.

Fixpoint walk (as_list : Item -> option (list Item)) (fuel : nat) (h : heap)
    (node : addr) (s : list Item) (L : list (list Item * V))
  : walk_result (list (list Item * V)) :=
  match fuel with
  | 0 => TooDeep _
  | S fuel' =>
      match h !! node with
      | None => NoNode _
      | Some nd =>
          match walk_key as_list nd s with
          | None => TypeError _
          | Some s' =>
              let L' := match value nd with
                        | Some v => L ++ [(s', v)]
                        | None => L
                        end in
              walk_each (fun child L => walk as_list fuel' h child s' L)
                node (dict_values (children nd)) L'
          end
      end
  end.

Definition iteritems (as_list : Item -> option (list Item)) (fuel : nat)
    (t : Trie) : walk_result (list (list Item * V)) :=
  walk as_list fuel (nodes t) root [] [].

Definition iterkeys (as_list : Item -> option (list Item)) (fuel : nat)
    (t : Trie) : walk_result (list (list Item)) :=
  match iteritems as_list fuel t with
  | Walked _ L => Walked _ (L.*1)
  | TypeError _ => TypeError _
  | NoNode _ => NoNode _
  | TooDeep _ => TooDeep _
  end.

Definition itervalues (as_list : Item -> option (list Item)) (fuel : nat)
    (t : Trie) : walk_result (list V) :=
  match iteritems as_list fuel t with
  | Walked _ L => Walked _ (L.*2)
  | TypeError _ => TypeError _
  | NoNode _ => NoNode _
  | TooDeep _ => TooDeep _
  end.

(** ** Predicates of the specification *)

(** The declared universe: the items [content(i)], [i < items_range]. *)
Definition in_universe (range : nat) (cont : nat -> Item) (k : Item) : bool :=
  existsb (fun i => bool_decide (cont i = k)) (seq 0 range).

Definition keyitem_at (h : heap) (a : addr) : option Item :=
  h !! a ≫= keyitem.

(** [(k, c)] is an entry of the [children] dict of the node at [p]. *)
Definition edge (h : heap) (p : addr) (k : Item) (c : addr) : Prop :=
  ∃ n, h !! p = Some n ∧ (k, c) ∈ children n.

(** [p.children[k]] is [c]. *)
Definition child (h : heap) (p : addr) (k : Item) (c : addr) : Prop :=
  ∃ n, h !! p = Some n ∧ dict_get (children n) k = Some c.

(** The shape of the store: a tree hanging from the root, in which
    [pth a] is the sequence of items leading from the root to [a];
    the only entries that are not tree edges are the entries of the
    root that point at the root itself. *)
Record tree (pth : addr -> list Item) (h : heap) : Prop := {
  tree_root :
    ∃ r, h !! root = Some r ∧ keyitem r = None ∧ value r = None;
  tree_pth_root : pth root = [];
  tree_edge : ∀ p k c, edge h p k c ->
    (p = root ∧ c = root) ∨
    (p < c ∧ keyitem_at h c = Some k ∧ pth c = pth p ++ [k]);
  tree_parent : ∀ c, 0 < c < length h -> ∃ p k, child h p k c
}.

(** A store on which [make_automaton] has not run. *)
Definition fresh (h : heap) : Prop :=
  (∀ a, fail_at h a = None) ∧ (∀ p k, ¬ edge h p k root).

(** Two stores that differ in [fail] slots only. *)
Definition same_shape (h1 h2 : heap) : Prop :=
  ∀ a, match h1 !! a, h2 !! a with
       | Some n1, Some n2 => ∃ f, n2 = with_fail f n1
       | None, None => True
       | _, _ => False
       end.

(** [h'] is [h] after more nodes were allocated by [add]: what [h]
    holds is kept, except that values may be set later. *)
Definition grows (pth : addr -> list Item) (h : heap)
    (pth' : addr -> list Item) (h' : heap) : Prop :=
  length h ≤ length h' ∧
  (∀ x, x < length h -> pth' x = pth x) ∧
  (∀ p k c, child h p k c -> child h' p k c) ∧
  (∀ x, x < length h -> value_at h' x = value_at h x) ∧
  (∀ x, length h ≤ x -> value_at h' x = None).

(** The store [h] and queue [q] of [make_automaton] after step 1 has
    run over the indices [D] on the fresh store [h0]: the root got
    the entries [loops], all pointing at the root, and the nodes of
    [q] got the root as their fail link. *)
Definition root_closed (cont : nat -> Item) (h0 : heap) (r0 : TrieNode)
    (h : heap) (q : list addr) (D : list nat)
    (loops : list (Item * addr)) : Prop :=
  (∀ x, h !! x =
    (fun n0 => mkNode (keyitem n0) (value n0)
                 (if decide (x ∈ q) then Some root else None)
                 (if decide (x = root) then children n0 ++ loops
                  else children n0)) <$> h0 !! x) ∧
  Forall (fun e => e.2 = root ∧ dict_get (children r0) e.1 = None ∧
                   ∃ i, i ∈ D ∧ e.1 = cont i) loops ∧
  (∀ x, x ∈ q ->
     ∃ i, i ∈ D ∧ dict_get (children r0 ++ loops) (cont i) = Some x) ∧
  (∀ i, i ∈ D ->
     ∃ x, dict_get (children r0 ++ loops) (cont i) = Some x ∧
          (x ∈ q ∨ x = root)) ∧
  (root ∈ q -> ¬ NoDup (cont <$> D)).

Definition universe_path (range : nat) (cont : nat -> Item)
    (pth : addr -> list Item) (a : addr) : Prop :=
  Forall (fun k => in_universe range cont k = true) (pth a).

(** The keys of every [children] dict are distinct. *)
Definition keys_nodup (h : heap) : Prop :=
  ∀ p n, h !! p = Some n -> NoDup (children n).*1.

(** How many of the nodes at the addresses [l] hold a value. *)
Definition valued (h : heap) (l : list addr) : nat :=
  length (filter (fun x => is_Some (value_at h x)) l).

(** The pairs that [iteritems] appends for the nodes at [vis]: the
    path of each node that holds a value, with that value. *)
Definition items_at (pth : addr -> list Item) (h : heap) (vis : list addr)
  : list (list Item * V) :=
  omap (fun x => (fun v => (pth x, v)) <$> value_at h x) vis.

(** One hop along the fail links of [h]. *)
Definition fail_step (h : heap) (a b : addr) : Prop := fail_at h a = Some b.

(** The invariant of step 2 of [make_automaton], with [q] the queue:
    the links set so far go to shorter paths, every queued node is
    linked, and the children of a linked node are linked unless the
    node still waits in the queue. *)
Definition bfs_inv (range : nat) (cont : nat -> Item)
    (pth : addr -> list Item) (h : heap) (q : list addr) : Prop :=
  tree pth h ∧
  fail_at h root = None ∧
  (∀ a b, fail_at h a = Some b ->
     b < length h ∧ length (pth b) < length (pth a) ∧
     (universe_path range cont pth a -> universe_path range cont pth b)) ∧
  (∀ x, x ∈ q -> x ≠ root ∧ is_Some (fail_at h x)) ∧
  (∀ p k a, p ≠ root -> edge h p k a -> is_Some (fail_at h p) ->
     is_Some (fail_at h a) ∨ p ∈ q) ∧
  (∀ k a, child h root k a -> a ≠ root ->
     in_universe range cont k = true -> is_Some (fail_at h a)) ∧
  (∀ i, i < range -> ∃ c, child h root (cont i) c).

(** Every fail link leads to a node whose path is a suffix of the path
    of the node it leaves. *)
Definition fail_suffix (pth : addr -> list Item) (h : heap) : Prop :=
  ∀ a b, fail_at h a = Some b -> pth b `suffix_of` pth a.

(** Every fail link leads to the longest proper suffix that the trie
    holds: the path of any other node that is a suffix of the path of
    [a] is a suffix of the path of [a.fail] too. *)
Definition fail_longest (pth : addr -> list Item) (h : heap) : Prop :=
  ∀ a b, fail_at h a = Some b ->
    ∀ x, x < length h -> x ≠ a ->
      pth x `suffix_of` pth a -> pth x `suffix_of` pth b.

(** Every key of every [children] dict is an item of the universe. *)
Definition keys_in (range : nat) (cont : nat -> Item) (h : heap) : Prop :=
  ∀ p k c, edge h p k c -> in_universe range cont k = true.

(** The measure that step 2 of [make_automaton] decreases: a queued
    node at address [x] weighs [W ^ (L - x)], more than all its
    children together when it has fewer than [W] of them. *)
Definition weight (W L : nat) (q : list addr) : nat :=
  sum_list_with (fun x => W ^ (L - x)) q.

(** The queue of step 2 holds the nodes of one depth [d] followed by
    nodes of depth [d + 1], and every node down to depth [d] is
    linked already: this is what lets each walk along the fail links
    go through. *)
Definition bfs_ready (range : nat) (cont : nat -> Item)
    (pth : addr -> list Item) (h : heap) (q : list addr) : Prop :=
  bfs_inv range cont pth h q ∧
  keys_in range cont h ∧
  ∃ d qa qb,
    1 ≤ d ∧ q = qa ++ qb ∧
    (∀ x, x ∈ qa -> length (pth x) = d) ∧
    (∀ x, x ∈ qb -> length (pth x) = S d) ∧
    (∀ a, 0 < a < length h -> length (pth a) ≤ d -> is_Some (fail_at h a)).

(** What [make_automaton] establishes. *)
Record automaton (range : nat) (cont : nat -> Item)
    (pth : addr -> list Item) (h : heap) : Prop := {
  aut_tree : tree pth h;
  aut_root_fail : fail_at h root = None;
  aut_root_total : ∀ i, i < range -> ∃ c, child h root (cont i) c;
  aut_fail : ∀ a b, fail_at h a = Some b ->
    b < length h ∧ length (pth b) < length (pth a) ∧
    (universe_path range cont pth a -> universe_path range cont pth b);
  aut_linked : ∀ a, 0 < a < length h ->
    universe_path range cont pth a -> is_Some (fail_at h a)
}.

End Model.

Arguments TrieNode : clear implicits.
Arguments Trie : clear implicits.
Arguments Walked {A} a.
Arguments TypeError {A}.
Arguments NoNode {A}.
Arguments TooDeep {A}.

(** The store: the nodes in the order of their allocation. *)
Abbreviation heap Item V := (list (TrieNode Item V)) (only parsing).

(** ** The tries of the examples: bytes as items, [content = chr] *)

Definition chr (i : nat) : ascii := ascii_of_nat i.

Definition str (s : string) : list ascii := list_ascii_of_string s.

(** A caller that compiles a trie and then searches it. *)
Definition search_after_compile {Item : Type} `{!EqDecision Item} {V : Type}
    (fuel : nat) (t : Trie Item V) (seq : list Item)
  : result (list (nat * list V)) :=
  t' ← make_automaton fuel t; search fuel t' seq.

(** The trie that a call of [make_automaton] leaves, for a call that
    returns ([t] itself stands in where it does not). *)
Definition automaton_of {Item : Type} `{!EqDecision Item} {V : Type}
    (fuel : nat) (t : Trie Item V) : Trie Item V :=
  match make_automaton fuel t with
  | Ok t' => t'
  | _ => t
  end.

Definition ushers_trie {V : Type} (A B C : V) : Trie ascii V :=
  build 256 chr [(str "he", A); (str "she", B); (str "hers", C)].

Definition ushers_automaton : Trie ascii nat :=
  automaton_of 100 (ushers_trie 1 2 3).

(** Python's [list] on a one-character string. *)
Definition list_chr (c : ascii) : option (list ascii) := Some [c].

Definition a_trie : Trie ascii nat := build 256 chr [(str "a", 1)].

Definition a_automaton : Trie ascii nat := automaton_of 100 a_trie.


(** * Properties *)

Section Proofs.
Context {Item : Type} `{!EqDecision Item} {V : Type}.

Implicit Types (h : heap Item V) (t : Trie Item V) (n : TrieNode Item V).
Implicit Types (d : list (Item * addr)) (k : Item) (a b c p : addr).
Implicit Types (pth : addr -> list Item) (s : list Item).
Implicit Types (cont : nat -> Item) (ops more : list (list Item * V)).

(** ** The [children] dict *)

Lemma dict_get_elem d k c : dict_get d k = Some c -> (k, c) ∈ d.
Proof.
  induction d as [|[k' c'] d IH]; simpl; [done|].
  case_decide; intros Hg.
  - simplify_eq. apply elem_of_cons; by left.
  - apply elem_of_cons; right; auto.
Qed.

Lemma dict_get_app d d' k :
  dict_get (d ++ d') k =
    match dict_get d k with Some c => Some c | None => dict_get d' k end.
Proof.
  induction d as [|[k' c'] d IH]; simpl; [done|].
  by case_decide.
Qed.

Lemma dict_set_absent d k c :
  dict_get d k = None -> dict_set d k c = d ++ [(k, c)].
Proof.
  induction d as [|[k' c'] d IH]; simpl; [done|].
  case_decide; [done|]. intros. f_equal. auto.
Qed.

Lemma dict_mem_Some d k :
  dict_mem d (Some k) = true <-> is_Some (dict_get d k).
Proof. simpl. by rewrite bool_decide_eq_true. Qed.

Lemma dict_mem_None d : dict_mem d None = false.
Proof. done. Qed.

Lemma elem_dict_values d c : c ∈ dict_values d <-> ∃ k, (k, c) ∈ d.
Proof.
  unfold dict_values. rewrite list_elem_of_fmap. split.
  - intros [[k c'] [-> ?]]. by exists k.
  - intros [k ?]. by exists (k, c).
Qed.

(** ** Reading the store after an update *)

Lemma lookup_set_fail h a f x :
  set_fail h a f !! x =
    if decide (a = x) then with_fail f <$> h !! x else h !! x.
Proof.
  unfold set_fail. rewrite list_lookup_alter. by case_decide; subst.
Qed.

Lemma lookup_set_value h a v x :
  set_value h a v !! x =
    if decide (a = x) then with_value v <$> h !! x else h !! x.
Proof.
  unfold set_value. rewrite list_lookup_alter. by case_decide; subst.
Qed.

Lemma lookup_set_children h a d x :
  set_children h a d !! x =
    if decide (a = x) then with_children d <$> h !! x else h !! x.
Proof.
  unfold set_children. rewrite list_lookup_alter. by case_decide; subst.
Qed.

Lemma length_set_fail h a f : length (set_fail h a f) = length h.
Proof. apply length_alter. Qed.

Lemma length_set_value h a v : length (set_value h a v) = length h.
Proof. apply length_alter. Qed.

Lemma length_set_children h a d : length (set_children h a d) = length h.
Proof. apply length_alter. Qed.

Lemma fail_at_Some h a b :
  fail_at h a = Some b <-> ∃ n, h !! a = Some n ∧ fail n = Some b.
Proof.
  unfold fail_at. destruct (h !! a) as [n|]; simpl; naive_solver.
Qed.

Lemma value_at_Some h a (v : V) :
  value_at h a = Some v <-> ∃ n, h !! a = Some n ∧ value n = Some v.
Proof.
  unfold value_at. destruct (h !! a) as [n|]; simpl; naive_solver.
Qed.

Lemma keyitem_at_Some h a k :
  keyitem_at h a = Some k <-> ∃ n, h !! a = Some n ∧ keyitem n = Some k.
Proof.
  unfold keyitem_at. destruct (h !! a) as [n|]; simpl; naive_solver.
Qed.

Lemma keyitem_at_lt h a k : keyitem_at h a = Some k -> a < length h.
Proof.
  intros (n & Hn & _)%keyitem_at_Some. by eapply lookup_lt_Some.
Qed.

Lemma fail_at_lt h a b : fail_at h a = Some b -> a < length h.
Proof.
  intros (n & Hn & _)%fail_at_Some. by eapply lookup_lt_Some.
Qed.

Lemma fail_at_set_fail h a f x :
  fail_at (set_fail h a f) x =
    if decide (a = x) then (if decide (x < length h) then f else None)
    else fail_at h x.
Proof.
  unfold fail_at. rewrite lookup_set_fail.
  case_decide; [|done]. case_decide.
  - destruct (lookup_lt_is_Some_2 h x) as [n ->]; done.
  - rewrite (lookup_ge_None_2 h x) by lia. done.
Qed.

Lemma value_at_set_fail h a f x :
  value_at (set_fail h a f) x = value_at h x.
Proof.
  unfold value_at. rewrite lookup_set_fail.
  case_decide; [|done]. by destruct (h !! x).
Qed.

Lemma value_at_set_value h a v x :
  value_at (set_value h a v) x =
    if decide (a = x) then (if decide (x < length h) then v else None)
    else value_at h x.
Proof.
  unfold value_at. rewrite lookup_set_value.
  case_decide; [|done]. case_decide.
  - destruct (lookup_lt_is_Some_2 h x) as [n ->]; done.
  - rewrite (lookup_ge_None_2 h x) by lia. done.
Qed.

(** ** [edge] and [child] *)

Lemma child_edge h p k c : child h p k c -> edge h p k c.
Proof. intros (n & ? & ?%dict_get_elem). by exists n. Qed.

Lemma edge_set_fail h a f p k c :
  edge (set_fail h a f) p k c <-> edge h p k c.
Proof.
  unfold edge. rewrite lookup_set_fail. case_decide; [|done].
  destruct (h !! p) as [n|]; simpl; naive_solver.
Qed.

Lemma child_set_fail h a f p k c :
  child (set_fail h a f) p k c <-> child h p k c.
Proof.
  unfold child. rewrite lookup_set_fail. case_decide; [|done].
  destruct (h !! p) as [n|]; simpl; naive_solver.
Qed.

Lemma edge_set_value h a v p k c :
  edge (set_value h a v) p k c <-> edge h p k c.
Proof.
  unfold edge. rewrite lookup_set_value. case_decide; [|done].
  destruct (h !! p) as [n|]; simpl; naive_solver.
Qed.

Lemma child_set_value h a v p k c :
  child (set_value h a v) p k c <-> child h p k c.
Proof.
  unfold child. rewrite lookup_set_value. case_decide; [|done].
  destruct (h !! p) as [n|]; simpl; naive_solver.
Qed.

Lemma keyitem_at_set_fail h a f x :
  keyitem_at (set_fail h a f) x = keyitem_at h x.
Proof.
  unfold keyitem_at. rewrite lookup_set_fail.
  case_decide; [|done]. by destruct (h !! x).
Qed.

Lemma keyitem_at_set_value h a v x :
  keyitem_at (set_value h a v) x = keyitem_at h x.
Proof.
  unfold keyitem_at. rewrite lookup_set_value.
  case_decide; [|done]. by destruct (h !! x).
Qed.

Lemma fail_at_set_value h a v x :
  fail_at (set_value h a v) x = fail_at h x.
Proof.
  unfold fail_at. rewrite lookup_set_value.
  case_decide; [|done]. by destruct (h !! x).
Qed.

(** ** [__get_node] *)

Lemma get_node_from_app h a s1 s2 :
  get_node_from h a (s1 ++ s2) =
    get_node_from h a s1 ≫= fun b => get_node_from h b s2.
Proof.
  revert a. induction s1 as [|k s1 IH]; intros a; simpl; [done|].
  destruct (h !! a) as [n|]; [|done].
  destruct (dict_get (children n) k); [apply IH|done].
Qed.

Lemma get_node_from_cons h a k s b :
  get_node_from h a (k :: s) = Some b ->
  ∃ c, child h a k c ∧ get_node_from h c s = Some b.
Proof.
  simpl. destruct (h !! a) as [n|] eqn:Hn; [|done].
  destruct (dict_get (children n) k) as [c|] eqn:Hc; [|done].
  intros. exists c. split; [by exists n|done].
Qed.

Lemma get_node_from_child h a k c s :
  child h a k c -> get_node_from h a (k :: s) = get_node_from h c s.
Proof. intros (n & Hn & Hc). simpl. by rewrite Hn, Hc. Qed.

Lemma get_node_from_ext h h' a s b :
  (∀ p k c, child h p k c -> child h' p k c) ->
  get_node_from h a s = Some b -> get_node_from h' a s = Some b.
Proof.
  intros Hch. revert a. induction s as [|k s IH]; intros a; [done|].
  intros (c & Hc & Hs)%get_node_from_cons.
  rewrite (get_node_from_child h' a k c) by auto. auto.
Qed.

(** ** The tree shape *)

Lemma same_shape_length h h' : same_shape h h' -> length h' = length h.
Proof.
  intros Hs.
  destruct (decide (length h' = length h)) as [|Hne]; [done|].
  exfalso.
  destruct (decide (length h < length h')).
  - specialize (Hs (length h)).
    rewrite (lookup_ge_None_2 h) in Hs by lia.
    destruct (lookup_lt_is_Some_2 h' (length h)) as [m Hn]; [lia|].
    by rewrite Hn in Hs.
  - specialize (Hs (length h')).
    rewrite (lookup_ge_None_2 h') in Hs by lia.
    destruct (lookup_lt_is_Some_2 h (length h')) as [m Hn]; [lia|].
    by rewrite Hn in Hs.
Qed.

Lemma same_shape_refl h : same_shape h h.
Proof.
  intros a. destruct (h !! a) as [n|]; [|done].
  exists (fail n). by destruct n.
Qed.

Lemma same_shape_set_fail h h' a f :
  same_shape h h' -> same_shape h (set_fail h' a f).
Proof.
  intros Hs x. specialize (Hs x). rewrite lookup_set_fail.
  destruct (h !! x) as [n|], (h' !! x) as [n'|]; try done;
    case_decide; simpl; try done.
  destruct Hs as [g ->]. by exists f.
Qed.

Lemma same_shape_lookup h h' a n :
  same_shape h h' -> h !! a = Some n ->
  ∃ f, h' !! a = Some (with_fail f n).
Proof.
  intros Hs Hn. specialize (Hs a). rewrite Hn in Hs.
  destruct (h' !! a); [|done]. destruct Hs as [f ->]. by exists f.
Qed.

Lemma same_shape_lookup_inv h h' a n' :
  same_shape h h' -> h' !! a = Some n' ->
  ∃ n f, h !! a = Some n ∧ n' = with_fail f n.
Proof.
  intros Hs Hn. specialize (Hs a). rewrite Hn in Hs.
  destruct (h !! a) as [n|]; [|done]. destruct Hs as [f ->]. by exists n, f.
Qed.

Lemma same_shape_edge h h' p k c :
  same_shape h h' -> edge h p k c <-> edge h' p k c.
Proof.
  intros Hs. split.
  - intros (n & Hn & Hc).
    destruct (same_shape_lookup _ _ _ _ Hs Hn) as [f Hf].
    by exists (with_fail f n).
  - intros (n' & Hn & Hc).
    destruct (same_shape_lookup_inv _ _ _ _ Hs Hn) as (n & f & Hf & ->).
    by exists n.
Qed.

Lemma same_shape_child h h' p k c :
  same_shape h h' -> child h p k c <-> child h' p k c.
Proof.
  intros Hs. split.
  - intros (n & Hn & Hc).
    destruct (same_shape_lookup _ _ _ _ Hs Hn) as [f Hf].
    by exists (with_fail f n).
  - intros (n' & Hn & Hc).
    destruct (same_shape_lookup_inv _ _ _ _ Hs Hn) as (n & f & Hf & ->).
    by exists n.
Qed.

Lemma same_shape_keyitem_at h h' a :
  same_shape h h' -> keyitem_at h' a = keyitem_at h a.
Proof.
  intros Hs. unfold keyitem_at. specialize (Hs a).
  destruct (h !! a) as [n|], (h' !! a) as [n'|]; try done.
  by destruct Hs as [f ->].
Qed.

Lemma same_shape_value_at h h' a :
  same_shape h h' -> value_at h' a = value_at h a.
Proof.
  intros Hs. unfold value_at. specialize (Hs a).
  destruct (h !! a) as [n|], (h' !! a) as [n'|]; try done.
  by destruct Hs as [f ->].
Qed.

Lemma tree_same_shape pth h h' :
  tree pth h -> same_shape h h' -> tree pth h'.
Proof.
  intros [Hroot Hp0 Hedge Hpar] Hs. split.
  - destruct Hroot as (r & Hr & ? & ?).
    destruct (same_shape_lookup _ _ _ _ Hs Hr) as [f Hf].
    by exists (with_fail f r).
  - done.
  - intros p k c He%(same_shape_edge h h'); [|done].
    rewrite (same_shape_keyitem_at h h') by done. auto.
  - intros c Hc. rewrite (same_shape_length h h') in Hc by done.
    destruct (Hpar c Hc) as (p & k & Hch).
    exists p, k. by apply (same_shape_child h h').
Qed.

Lemma tree_edge_lt pth h p k c :
  tree pth h -> edge h p k c -> c < length h.
Proof.
  intros Ht He. destruct (tree_edge _ _ Ht _ _ _ He) as [[-> ->]|(_ & Hk & _)].
  - destruct (tree_root _ _ Ht) as (r & Hr & _). by eapply lookup_lt_Some.
  - by eapply keyitem_at_lt.
Qed.

Lemma tree_depth pth h a :
  tree pth h -> a < length h -> length (pth a) ≤ a.
Proof.
  intros Ht. induction (lt_wf a) as [a _ IH]. intros Ha.
  destruct (decide (a = 0)) as [->|Hne].
  - change 0 with root. by rewrite (tree_pth_root _ _ Ht).
  - destruct (tree_parent _ _ Ht a) as (p & k & Hch); [lia|].
    apply child_edge in Hch.
    destruct (tree_edge _ _ Ht _ _ _ Hch) as [[_ ?]|(Hlt & _ & ->)]; [done|].
    rewrite length_app. simpl.
    assert (length (pth p) ≤ p); [|lia].
    apply IH; lia.
Qed.

Lemma get_node_from_pth pth h p s a :
  tree pth h -> (∀ q k, ¬ edge h q k root) ->
  get_node_from h p s = Some a -> pth a = pth p ++ s.
Proof.
  intros Ht Hfresh. revert p. induction s as [|k s IH]; intros p.
  - simpl. intros [= ->]. by rewrite app_nil_r.
  - intros (c & Hc%child_edge & Hs)%get_node_from_cons.
    rewrite (IH _ Hs).
    destruct (tree_edge _ _ Ht _ _ _ Hc) as [[_ ->]|(_ & _ & ->)].
    + by destruct (Hfresh _ _ Hc).
    + by rewrite <- app_assoc.
Qed.

Lemma get_node_from_lt pth h p s a :
  tree pth h -> p < length h ->
  get_node_from h p s = Some a -> a < length h.
Proof.
  intros Ht. revert p. induction s as [|k s IH]; intros p Hp.
  - by intros [= ->].
  - intros (c & Hc%child_edge & Hs)%get_node_from_cons.
    eapply IH; [|done]. by eapply tree_edge_lt.
Qed.

(** ** [add] *)

Lemma lookup_alloc h node d m x :
  (set_children h node d ++ [m]) !! x =
    if decide (x = length h) then Some m
    else if decide (node = x) then with_children d <$> h !! x
    else h !! x.
Proof.
  rewrite lookup_app, length_set_children, lookup_set_children.
  destruct (decide (x = length h)) as [->|Hx].
  - rewrite (lookup_ge_None_2 h (length h)) by lia.
    rewrite Nat.sub_diag. by case_decide.
  - destruct (decide (x < length h)) as [Hlt|Hge].
    + destruct (lookup_lt_is_Some_2 h x Hlt) as [n' ->].
      by case_decide.
    + rewrite (lookup_ge_None_2 h x) by lia.
      destruct (x - length h) as [|j] eqn:Hj; [lia|].
      by case_decide.
Qed.

Lemma grows_refl pth h : grows pth h pth h.
Proof.
  repeat split; auto.
  intros x Hx. unfold value_at. by rewrite (lookup_ge_None_2 h x).
Qed.

Lemma grows_trans pth h pth1 h1 pth2 h2 :
  grows pth h pth1 h1 -> grows pth1 h1 pth2 h2 -> grows pth h pth2 h2.
Proof.
  intros (Hl & Hp & Hc & Hv & Hn) (Hl' & Hp' & Hc' & Hv' & Hn').
  repeat split.
  - lia.
  - intros x Hx. rewrite Hp' by lia. auto.
  - auto.
  - intros x Hx. rewrite Hv' by lia. auto.
  - intros x Hx. destruct (decide (x < length h1)).
    + rewrite Hv' by lia. auto.
    + apply Hn'. lia.
Qed.

Lemma alloc_spec pth h node nd k :
  tree pth h -> fresh h ->
  h !! node = Some nd -> dict_get (children nd) k = None ->
  let n := length h in
  let h1 := set_children h node (dict_set (children nd) k n)
            ++ [TrieNode_init (Some k)] in
  let pth1 := fun x => if decide (x = n) then pth node ++ [k] else pth x in
  tree pth1 h1 ∧ fresh h1 ∧ grows pth h pth1 h1 ∧ child h1 node k n.
Proof.
  intros Ht [Hnofail Hnoloop] Hnode Hk n h1 pth1.
  assert (Hlt : node < n) by (by eapply lookup_lt_Some).
  assert (Hlook : ∀ x, h1 !! x =
    if decide (x = n) then Some (TrieNode_init (Some k))
    else if decide (node = x)
         then Some (with_children (children nd ++ [(k, n)]) nd)
         else h !! x).
  { intros x. unfold h1. rewrite lookup_alloc, dict_set_absent by done.
    repeat case_decide; subst; try done. by rewrite Hnode. }
  assert (Hchild : ∀ p k' c, child h p k' c -> child h1 p k' c).
  { intros p k' c (m & Hm & Hc). unfold child. rewrite Hlook.
    assert (p < n) by (by eapply lookup_lt_Some).
    case_decide; [lia|]. case_decide.
    - subst p. simplify_eq. eexists; split; [done|]. simpl.
      by rewrite dict_get_app, Hc.
    - by exists m. }
  assert (Hnew : child h1 node k n).
  { unfold child. rewrite Hlook. case_decide; [lia|].
    case_decide; [|done]. eexists; split; [done|]. simpl.
    rewrite dict_get_app, Hk. simpl. by case_decide. }
  assert (Hedge : ∀ p k' c, edge h1 p k' c ->
    edge h p k' c ∨ (p = node ∧ k' = k ∧ c = n)).
  { intros p k' c (m & Hm & Hc). rewrite Hlook in Hm.
    case_decide; [by simplify_eq; apply elem_of_nil in Hc|].
    case_decide.
    - simplify_eq. simpl in Hc. apply elem_of_app in Hc as [Hc|Hc].
      + left. by exists nd.
      + apply list_elem_of_singleton in Hc. simplify_eq. by right.
    - left. by exists m. }
  assert (Hkey : ∀ x, x < n -> keyitem_at h1 x = keyitem_at h x).
  { intros x Hx. unfold keyitem_at. rewrite Hlook.
    case_decide; [lia|]. case_decide; [|done]. subst. by rewrite Hnode. }
  assert (Hval : ∀ x, x < n -> value_at h1 x = value_at h x).
  { intros x Hx. unfold value_at. rewrite Hlook.
    case_decide; [lia|]. case_decide; [|done]. subst. by rewrite Hnode. }
  split; [|split; [|split]]; [| | |done].
  - split.
    + destruct (tree_root _ _ Ht) as (r & Hr & Hrk & Hrv).
      rewrite Hlook. case_decide; [unfold root in *; lia|].
      case_decide.
      * subst node. simplify_eq. by eexists.
      * by exists r.
    + unfold pth1. case_decide; [unfold root in *; lia|].
      apply (tree_pth_root _ _ Ht).
    + intros p k' c [He|(-> & -> & ->)]%Hedge.
      * right. destruct (tree_edge _ _ Ht _ _ _ He) as [[_ ->]|(? & Hki & ?)].
        { by destruct (Hnoloop _ _ He). }
        assert (c < n) by (by eapply keyitem_at_lt).
        rewrite Hkey by done. unfold pth1.
        rewrite !decide_False by lia. done.
      * right. split; [done|]. split.
        { unfold keyitem_at. rewrite Hlook. by rewrite decide_True. }
        unfold pth1. rewrite decide_True by done.
        by rewrite decide_False by lia.
    + intros c Hc. unfold h1 in Hc.
      rewrite length_app, length_set_children in Hc. simpl in Hc.
      destruct (decide (c = n)) as [->|].
      * by exists node, k.
      * destruct (tree_parent _ _ Ht c) as (p & k' & Hch); [lia|].
        exists p, k'. auto.
  - split.
    + intros a. unfold fail_at. rewrite Hlook.
      case_decide; [done|]. case_decide.
      * simpl. subst. specialize (Hnofail a).
        unfold fail_at in Hnofail. by rewrite Hnode in Hnofail.
      * apply Hnofail.
    + intros p k' [He|(_ & _ & ?)]%Hedge.
      * by apply (Hnoloop p k').
      * unfold root in *; lia.
  - repeat split.
    + unfold h1. rewrite length_app, length_set_children. lia.
    + intros x Hx. unfold pth1. by rewrite decide_False by lia.
    + done.
    + done.
    + intros x Hx. unfold value_at. rewrite Hlook.
      case_decide; [done|]. rewrite decide_False by lia.
      by rewrite (lookup_ge_None_2 h x).
Qed.

Lemma add_walk_spec pth h node s h' a :
  tree pth h -> fresh h -> node < length h ->
  add_walk h node s = (h', a) ->
  ∃ pth', tree pth' h' ∧ fresh h' ∧ grows pth h pth' h' ∧
          get_node_from h' node s = Some a.
Proof.
  revert pth h node. induction s as [|k s IH]; intros pth h node Ht Hf Hlt.
  - simpl. intros [= <- <-]. exists pth. auto using grows_refl.
  - intros Hw. simpl in Hw.
    destruct (lookup_lt_is_Some_2 h node Hlt) as [nd Hnd].
    rewrite Hnd in Hw. destruct (dict_get (children nd) k) as [c|] eqn:Hk.
    + assert (Hch : child h node k c) by (by exists nd).
      destruct (IH pth h c Ht Hf) as (pth' & Ht' & Hf' & Hg & Hget); [|done|].
      { eapply tree_edge_lt; [done|]. by apply child_edge. }
      exists pth'. split_and!; try done.
      destruct Hg as (_ & _ & Hc & _).
      erewrite get_node_from_child; [exact Hget|]. by apply Hc.
    + destruct (alloc_spec pth h node nd k Ht Hf Hnd Hk)
        as (Ht1 & Hf1 & Hg1 & Hch1).
      edestruct IH as (pth' & Ht' & Hf' & Hg & Hget); [exact Ht1|exact Hf1| |exact Hw|].
      { rewrite length_app, length_set_children. simpl. lia. }
      exists pth'. split_and!; try done.
      * by eapply grows_trans.
      * destruct Hg as (_ & _ & Hc & _).
        erewrite get_node_from_child; [exact Hget|]. by apply Hc.
Qed.

Lemma add_walk_present h node s a :
  get_node_from h node s = Some a -> add_walk h node s = (h, a).
Proof.
  revert node. induction s as [|k s IH]; intros node; simpl.
  - by intros [= ->].
  - destruct (h !! node) as [nd|]; [|done].
    destruct (dict_get (children nd) k); [|done]. apply IH.
Qed.

Lemma tree_set_value pth h a v :
  tree pth h -> a ≠ root -> tree pth (set_value h a v).
Proof.
  intros [Hroot Hp0 Hedge Hpar] Ha. split.
  - destruct Hroot as (r & Hr & ? & ?). exists r.
    rewrite lookup_set_value. by rewrite decide_False.
  - done.
  - intros p k c He%edge_set_value.
    rewrite keyitem_at_set_value. auto.
  - intros c Hc. rewrite length_set_value in Hc.
    destruct (Hpar c Hc) as (p & k & Hch).
    exists p, k. by apply child_set_value.
Qed.

Lemma fresh_set_value h a v : fresh h -> fresh (set_value h a v).
Proof.
  intros [Hf Hl]. split.
  - intros x. by rewrite fail_at_set_value.
  - intros p k He%edge_set_value. by eapply Hl.
Qed.

Lemma tree_init :
  tree (fun _ => @nil Item) [TrieNode_init (Item:=Item) (V:=V) None].
Proof.
  split.
  - by eexists.
  - done.
  - intros p k c (n & Hn & Hc). destruct p; simplify_eq/=.
    by apply elem_of_nil in Hc.
  - simpl. intros c Hc. lia.
Qed.

Lemma fresh_init : fresh [TrieNode_init (Item:=Item) (V:=V) None].
Proof.
  split.
  - by intros [|[|a]].
  - intros p k (n & Hn & Hc). destruct p; simplify_eq/=.
    by apply elem_of_nil in Hc.
Qed.

(** What one [add] of a non-empty sequence does to a trie under
    construction. *)
Lemma add_spec pth t s v :
  tree pth (nodes t) -> fresh (nodes t) -> s ≠ [] ->
  ∃ pth' a,
    tree pth' (nodes (add t s v)) ∧ fresh (nodes (add t s v)) ∧
    get_node (add t s v) s = Some a ∧
    value_at (nodes (add t s v)) a = Some v ∧
    (∀ x, x ≠ a -> x < length (nodes t) ->
          value_at (nodes (add t s v)) x = value_at (nodes t) x) ∧
    (∀ s' b, get_node t s' = Some b -> get_node (add t s v) s' = Some b).
Proof.
  intros Ht Hf Hs.
  destruct (tree_root _ _ Ht) as (r & Hr & _).
  assert (Hlt : root < length (nodes t)) by (by eapply lookup_lt_Some).
  destruct (add_walk (nodes t) root s) as [h' a] eqn:Hw.
  destruct (add_walk_spec _ _ _ _ _ _ Ht Hf Hlt Hw)
    as (pth' & Ht' & Hf' & Hg & Hget).
  assert (Hnodes : nodes (add t s v) = set_value h' a (Some v)).
  { unfold add. destruct s; [done|]. by rewrite Hw. }
  assert (Hpa : pth' a = s).
  { rewrite (get_node_from_pth pth' h' root s a Ht' (proj2 Hf') Hget).
    by rewrite (tree_pth_root _ _ Ht'). }
  assert (Ha : a ≠ root).
  { intros ->. rewrite (tree_pth_root _ _ Ht') in Hpa. by subst s. }
  assert (Halt : a < length h').
  { eapply get_node_from_lt; [done| |done].
    destruct Hg as (? & _). unfold root in *. lia. }
  destruct Hg as (Hlen & Hp & Hc & Hv & Hn).
  exists pth', a. rewrite Hnodes. split_and!.
  - by apply tree_set_value.
  - by apply fresh_set_value.
  - unfold get_node. rewrite Hnodes.
    eapply get_node_from_ext; [|done].
    intros ???. by apply child_set_value.
  - rewrite value_at_set_value, decide_True by done.
    by rewrite decide_True.
  - intros x Hx Hxl. rewrite value_at_set_value, decide_False by done. auto.
  - intros s' b Hb. unfold get_node. rewrite Hnodes.
    eapply get_node_from_ext; [|done].
    intros ??? ?. apply child_set_value. auto.
Qed.

Lemma add_nil t v : add t [] v = t.
Proof. done. Qed.

Lemma add_items_range t s v : items_range (add t s v) = items_range t.
Proof.
  unfold add. destruct s; [done|].
  by destruct (add_walk _ _ _).
Qed.

Lemma add_content t s v : content (add t s v) = content t.
Proof.
  unfold add. destruct s; [done|].
  by destruct (add_walk _ _ _).
Qed.

Lemma build_snoc range cont ops s v :
  build range cont (ops ++ [(s, v)]) = add (build range cont ops) s v.
Proof. unfold build. by rewrite foldl_snoc. Qed.

Lemma build_app range cont ops ops' :
  build range cont (ops ++ ops') =
    foldl (fun t op => add t op.1 op.2) (build range cont ops) ops'.
Proof. unfold build. by rewrite foldl_app. Qed.

Lemma build_items_range range cont ops :
  items_range (build range cont ops) = range.
Proof.
  induction ops as [|[s v] ops IH] using rev_ind; [done|].
  by rewrite build_snoc, add_items_range.
Qed.

Lemma build_content range cont ops :
  content (build range cont ops) = cont.
Proof.
  induction ops as [|[s v] ops IH] using rev_ind; [done|].
  by rewrite build_snoc, add_content.
Qed.

(** Every trie under construction is a tree on which no fail link
    is set. *)
Lemma build_tree range cont ops :
  ∃ pth, tree pth (nodes (build range cont ops)) ∧
         fresh (nodes (build range cont ops)).
Proof.
  induction ops as [|[s v] ops IH] using rev_ind.
  - exists (fun _ => @nil Item). split; [apply tree_init|apply fresh_init].
  - rewrite build_snoc. destruct IH as (pth & Ht & Hf).
    destruct s as [|k s]; [by exists pth|].
    destruct (add_spec pth _ (k :: s) v Ht Hf) as (pth' & a & ? & ? & _);
      [done|].
    by exists pth'.
Qed.

Lemma get_node_unique pth h s s' a :
  tree pth h -> fresh h ->
  get_node_from h root s = Some a -> get_node_from h root s' = Some a ->
  s = s'.
Proof.
  intros Ht [_ Hl] H1 H2.
  apply (get_node_from_pth pth) in H1; [|done..].
  apply (get_node_from_pth pth) in H2; [|done..].
  rewrite (tree_pth_root _ _ Ht) in H1, H2. simpl in *. congruence.
Qed.

(** The value stored for [s] survives the [add] of other sequences. *)
Lemma stored_after_adds pth t s a v more :
  tree pth (nodes t) -> fresh (nodes t) ->
  get_node t s = Some a -> value_at (nodes t) a = Some v ->
  Forall (fun op => op.1 ≠ s) more ->
  let t' := foldl (fun t op => add t op.1 op.2) t more in
  ∃ pth', tree pth' (nodes t') ∧ fresh (nodes t') ∧
    get_node t' s = Some a ∧ value_at (nodes t') a = Some v.
Proof.
  intros Ht Hf Hg Hv Hmore. simpl.
  induction more as [|[s' v'] more IH] using rev_ind.
  - by exists pth.
  - apply Forall_app in Hmore as [Hmore Hs'].
    rewrite Forall_singleton in Hs'. simpl in Hs'.
    destruct (IH Hmore) as (pth1 & Ht1 & Hf1 & Hg1 & Hv1).
    rewrite foldl_snoc. simpl.
    set (t1 := foldl _ t more) in *.
    destruct s' as [|k s']; [by exists pth1|].
    destruct (add_spec pth1 t1 (k :: s') v' Ht1 Hf1)
      as (pth' & b & Ht' & Hf' & Hgb & _ & Hval & Hget); [done|].
    exists pth'. split_and!; try done; [by apply Hget|].
    rewrite Hval; [done| |].
    + intros Heq. apply Hs'.
      eapply (get_node_unique pth' _ (k :: s') s a Ht' Hf').
      * rewrite Heq. exact Hgb.
      * by apply Hget.
    + eapply get_node_from_lt; [done| |exact Hg1].
      destruct (tree_root _ _ Ht1) as (r & Hr & _).
      by eapply lookup_lt_Some.
Qed.

Lemma get_stored t s a v dflt :
  get_node t s = Some a -> value_at (nodes t) a = Some v ->
  get t s dflt = Ok v.
Proof. intros Hg Hv. unfold get. by rewrite Hg, Hv. Qed.

(** ** [make_automaton], step 1 *)

Lemma root_step_spec cont h0 r0 h q D loops i :
  h0 !! root = Some r0 ->
  (∀ k, dict_get (children r0) k ≠ Some root) ->
  root_closed cont h0 r0 h q D loops ->
  ∃ h' q' loops',
    root_step cont (h, q) i = Ok (h', q') ∧
    root_closed cont h0 r0 h' q' (D ++ [i]) loops'.
Proof.
  intros Hr0 Hnl (Hh & Hloops & Hq & HD & Hrq).
  assert (Hr : h !! root = Some (mkNode (keyitem r0) (value r0)
                 (if decide (root ∈ q) then Some root else None)
                 (children r0 ++ loops))).
  { by rewrite Hh, Hr0. }
  unfold root_step, deref. rewrite Hr. simpl.
  destruct (dict_get (children r0 ++ loops) (cont i)) as [node|] eqn:Hget.
  - exists (set_fail h node (Some root)), (q ++ [node]), loops.
    split; [done|]. split_and!.
    + intros x. rewrite lookup_set_fail, Hh.
      destruct (decide (node = x)) as [Hx|Hx];
        destruct (h0 !! x) as [n0|]; simpl; try done.
      * subst x. simpl. unfold with_fail. simpl.
        rewrite (decide_True (P := node ∈ q ++ [node])); [done|].
        apply elem_of_app. right. by apply list_elem_of_singleton.
      * do 2 f_equal.
        destruct (decide (x ∈ q)) as [Hin|Hnin].
        { rewrite decide_True; [done|]. apply elem_of_app. by left. }
        rewrite decide_False; [done|].
        intros [?|?%list_elem_of_singleton]%elem_of_app; [done|].
        by subst.
    + eapply Forall_impl; [done|]. intros e (? & ? & j & Hj & ?).
      split_and!; try done. exists j. split; [|done].
      apply elem_of_app. by left.
    + intros x [Hx|Hx%list_elem_of_singleton]%elem_of_app.
      * destruct (Hq x Hx) as (j & Hj & ?). exists j. split; [|done].
        apply elem_of_app. by left.
      * subst x. exists i. split; [|done].
        apply elem_of_app. right. by apply list_elem_of_singleton.
    + intros j [Hj|Hj%list_elem_of_singleton]%elem_of_app.
      * destruct (HD j Hj) as (x & ? & [Hx| ->]).
        { exists x. split; [done|]. left. apply elem_of_app. by left. }
        exists root. split; [done|]. by right.
      * subst j. exists node. split; [done|]. left.
        apply elem_of_app. right. by apply list_elem_of_singleton.
    + intros Hin Hnd. rewrite fmap_app in Hnd.
      apply NoDup_app in Hnd as (Hnd1 & Hdisj & _).
      apply elem_of_app in Hin as [Hin|Hin%list_elem_of_singleton];
        [by apply Hrq|].
      subst node. rewrite dict_get_app in Hget.
      destruct (dict_get (children r0) (cont i)) eqn:Hreal;
        [simplify_eq; by destruct (Hnl (cont i))|].
      apply dict_get_elem in Hget.
      rewrite Forall_forall in Hloops.
      destruct (Hloops _ Hget) as (_ & _ & j & Hj & Hij). simpl in Hij.
      apply (Hdisj (cont i)).
      * rewrite Hij. by apply list_elem_of_fmap_2.
      * by apply list_elem_of_singleton.
  - exists (set_children h root (dict_set (children r0 ++ loops) (cont i) root)),
      q, (loops ++ [(cont i, root)]).
    split; [done|]. rewrite dict_set_absent by done.
    assert (Happ : ∀ j x,
      dict_get (children r0 ++ loops) (cont j) = Some x ->
      dict_get (children r0 ++ loops ++ [(cont i, root)]) (cont j) = Some x).
    { intros j x Hj. by rewrite app_assoc, dict_get_app, Hj. }
    split_and!.
    + intros x. rewrite lookup_set_children, Hh.
      destruct (decide (root = x)) as [Hx|Hx].
      * subst x. rewrite Hr0. simpl. unfold with_children. simpl.
        by rewrite app_assoc.
      * destruct (h0 !! x) as [n0|]; simpl; [|done].
        destruct (decide (x = root)); [congruence|done].
    + apply Forall_app. split.
      * eapply Forall_impl; [done|]. intros e (? & ? & j & Hj & ?).
        split_and!; try done. exists j. split; [|done].
        apply elem_of_app. by left.
      * apply Forall_singleton. simpl. split_and!; [done| |].
        { rewrite dict_get_app in Hget.
          by destruct (dict_get (children r0) (cont i)). }
        exists i. split; [|done].
        apply elem_of_app. right. by apply list_elem_of_singleton.
    + intros x Hx. destruct (Hq x Hx) as (j & Hj & ?).
      exists j. split; [apply elem_of_app; by left|auto].
    + intros j [Hj|Hj%list_elem_of_singleton]%elem_of_app.
      * destruct (HD j Hj) as (x & ? & ?). exists x. auto.
      * subst j. exists root. split; [|by right].
        rewrite app_assoc, dict_get_app, Hget. simpl.
        by rewrite decide_True.
    + intros Hin Hnd. apply Hrq; [done|]. rewrite fmap_app in Hnd.
      by apply NoDup_app in Hnd as [? _].
Qed.

Lemma root_loop_cons cont (hq : heap Item V * list addr) i l :
  root_loop cont hq (i :: l) =
    root_step cont hq i ≫= fun hq' => root_loop cont hq' l.
Proof. done. Qed.

Lemma root_loop_spec cont h0 r0 l :
  h0 !! root = Some r0 ->
  (∀ k, dict_get (children r0) k ≠ Some root) ->
  ∀ h q D loops,
    root_closed cont h0 r0 h q D loops ->
    ∃ h' q' loops',
      root_loop cont (h, q) l = Ok (h', q') ∧
      root_closed cont h0 r0 h' q' (D ++ l) loops'.
Proof.
  intros Hr0 Hnl. induction l as [|i l IH]; intros h q D loops HP.
  - exists h, q, loops. by rewrite app_nil_r.
  - destruct (root_step_spec cont h0 r0 h q D loops i Hr0 Hnl HP)
      as (h1 & q1 & loops1 & Hstep & HP1).
    destruct (IH h1 q1 (D ++ [i]) loops1 HP1)
      as (h' & q' & loops' & Hloop & HP').
    exists h', q', loops'. split.
    + rewrite root_loop_cons, Hstep. exact Hloop.
    + by rewrite <- app_assoc in HP'.
Qed.

Lemma root_closed_init cont h0 r0 :
  fresh h0 -> h0 !! root = Some r0 ->
  root_closed cont h0 r0 h0 [] [] [].
Proof.
  intros [Hf _] Hr0. split_and!.
  - intros x. destruct (h0 !! x) as [n0|] eqn:Hn0; simpl; [|done].
    destruct (decide (x ∈ [])) as [?%elem_of_nil|_]; [done|].
    specialize (Hf x). unfold fail_at in Hf. rewrite Hn0 in Hf.
    simpl in Hf. f_equal. destruct n0; simpl in *. subst.
    destruct (decide (x = root)); by rewrite ?app_nil_r.
  - constructor.
  - by intros x ?%elem_of_nil.
  - by intros i ?%elem_of_nil.
  - by intros ?%elem_of_nil.
Qed.

(** ** [make_automaton], step 2 *)

Lemma in_universe_spec range cont k :
  in_universe range cont k = true <-> ∃ i, i < range ∧ cont i = k.
Proof.
  unfold in_universe. rewrite existsb_exists. split.
  - intros (i & Hi%in_seq & Hk%bool_decide_eq_true). exists i.
    split; [lia|done].
  - intros (i & Hi & Hk). exists i. split.
    + apply in_seq. lia.
    + by apply bool_decide_eq_true.
Qed.

Lemma same_shape_trans h1 h2 h3 :
  same_shape h1 h2 -> same_shape h2 h3 -> same_shape h1 h3.
Proof.
  intros H12 H23 a. specialize (H12 a). specialize (H23 a).
  destruct (h1 !! a) as [n1|], (h2 !! a) as [n2|], (h3 !! a) as [n3|];
    try done.
  destruct H12 as [f ->], H23 as [g ->]. by exists g.
Qed.

Lemma fail_at_mono h node tgt x :
  node < length h -> is_Some (fail_at h x) ->
  is_Some (fail_at (set_fail h node (Some tgt)) x).
Proof.
  intros Hlt Hx. rewrite fail_at_set_fail.
  case_decide; [|done]. subst. by rewrite decide_True.
Qed.

Lemma follow_fail_Ok fuel h (state : option addr) (ko : option Item) st :
  follow_fail fuel h state ko = Ok st ->
  ∃ x n, state = Some x ∧ rtc (fail_step h) x st ∧
         h !! st = Some n ∧ dict_mem (children n) ko = true.
Proof.
  revert state. induction fuel as [|fuel IH]; intros state; [done|].
  simpl. destruct state as [a|]; [|done].
  unfold deref. destruct (h !! a) as [n|] eqn:Hn; [|done]. simpl.
  destruct (dict_mem (children n) ko) eqn:Hm.
  - intros [= <-]. by exists a, n.
  - intros (x & n' & Hx & Hrtc & Hst & Hmem)%IH.
    exists a, n'. split_and!; try done.
    eapply rtc_l; [|done]. unfold fail_step, fail_at. by rewrite Hn.
Qed.

Lemma chain_bounds range cont pth h x st :
  (∀ a b, fail_at h a = Some b ->
     b < length h ∧ length (pth b) < length (pth a) ∧
     (universe_path range cont pth a -> universe_path range cont pth b)) ->
  rtc (fail_step h) x st ->
  x < length h ->
  st < length h ∧ length (pth st) ≤ length (pth x) ∧
  (universe_path range cont pth x -> universe_path range cont pth st).
Proof.
  intros Hfail. induction 1 as [x|x y z Hxy _ IH]; intros Hx; [auto|].
  destruct (Hfail _ _ Hxy) as (Hy & Hlen & HU).
  destruct (IH Hy) as (? & ? & ?). split_and!; [done|lia|auto].
Qed.

Lemma link_children_cons fuel h (queue : list addr) current node vals :
  link_children fuel h queue current (node :: vals) =
    (cur ← deref h current;
     nd ← deref h node;
     state ← follow_fail fuel h (fail cur) (keyitem nd);
     st ← deref h state;
     link_children fuel
       (set_fail h node
          (Some (dict_get_default (children st) (keyitem nd) root)))
       (queue ++ [node]) current vals).
Proof. done. Qed.

Lemma bind_Ok {A B} (m : result A) (f : A -> result B) (y : B) :
  m ≫= f = Ok y -> ∃ z, m = Ok z ∧ f z = Ok y.
Proof. destruct m as [z| |]; [|done..]. by exists z. Qed.

Lemma deref_Ok h a n : deref h a = Ok n <-> h !! a = Some n.
Proof. unfold deref. destruct (h !! a); naive_solver. Qed.

Lemma link_children_inv range cont pth fuel vals :
  ∀ h q cur h' q',
    bfs_inv range cont pth h (cur :: q) ->
    (∀ x, x ∈ vals -> ∃ k, edge h cur k x) ->
    link_children fuel h q cur vals = Ok (h', q') ->
    bfs_inv range cont pth h' (cur :: q') ∧ same_shape h h' ∧
    (∀ x, is_Some (fail_at h x) -> is_Some (fail_at h' x)) ∧
    (∀ x, x ∈ vals -> is_Some (fail_at h' x)) ∧
    (∀ x, x ∈ q -> x ∈ q').
Proof.
  induction vals as [|node vals IH]; intros h q cur h' q' Hinv Hvals.
  - simpl. intros [= <- <-]. split_and!; auto using same_shape_refl.
    by intros x ?%elem_of_nil.
  - rewrite link_children_cons.
    intros (cn & Hcn%deref_Ok & Hrun)%bind_Ok.
    apply bind_Ok in Hrun as (nd & Hnd%deref_Ok & Hrun).
    apply bind_Ok in Hrun as (st & Hff & Hrun).
    apply bind_Ok in Hrun as (stn & Hsn%deref_Ok & Hrun).
    destruct Hinv as (Ht & Hroot & Hfail & Hq & Hclos & Hrc & Htot).
    destruct (Hvals node) as [k He]; [apply elem_of_cons; by left|].
    destruct (Hq cur) as [Hcur _]; [apply elem_of_cons; by left|].
    destruct (tree_edge _ _ Ht _ _ _ He) as [[? _]|(Hlt & Hki & Hpn)];
      [done|].
    assert (Hk : keyitem nd = Some k).
    { apply keyitem_at_Some in Hki as (? & ? & ?). by simplify_eq. }
    rewrite Hk in Hff, Hrun.
    apply follow_fail_Ok in Hff as (x & stn' & Hx & Hrtc & Hsn' & Hmem).
    assert (stn' = stn) as -> by congruence.
    apply dict_mem_Some in Hmem as [tgt Htgt].
    simpl in Hrun. rewrite Htgt in Hrun. simpl in Hrun.
    assert (Hfx : fail_at h cur = Some x).
    { unfold fail_at. by rewrite Hcn. }
    destruct (Hfail _ _ Hfx) as (Hxlt & Hxlen & HxU).
    destruct (chain_bounds _ _ _ _ _ _ Hfail Hrtc Hxlt)
      as (Hstlt & Hstlen & HstU).
    assert (Hnlt : node < length h) by (by eapply lookup_lt_Some).
    assert (Het : edge h st k tgt) by (apply child_edge; by exists stn).
    assert (Htl : tgt < length h) by (by eapply tree_edge_lt).
    assert (Htgt_ok : length (pth tgt) < length (pth node) ∧
      (universe_path range cont pth node ->
       universe_path range cont pth tgt)).
    { rewrite Hpn, length_app. simpl. unfold universe_path in *.
      rewrite Hpn.
      destruct (tree_edge _ _ Ht _ _ _ Het) as [[_ ->]|(_ & _ & ->)].
      - rewrite (tree_pth_root _ _ Ht). simpl. split; [lia|].
        intros _. constructor.
      - rewrite length_app. simpl. split; [lia|].
        intros [HUc HUk]%Forall_app. apply Forall_app. auto. }
    set (h2 := set_fail h node (Some tgt)) in *.
    assert (Hs2 : same_shape h h2)
      by (apply same_shape_set_fail, same_shape_refl).
    assert (Hmono : ∀ y, is_Some (fail_at h y) -> is_Some (fail_at h2 y))
      by (intros y; by apply fail_at_mono).
    assert (Hnode2 : is_Some (fail_at h2 node)).
    { unfold h2. rewrite fail_at_set_fail, !decide_True by done. done. }
    assert (Hinv2 : bfs_inv range cont pth h2 (cur :: q ++ [node])).
    { split_and!.
      - by eapply tree_same_shape.
      - unfold h2. rewrite fail_at_set_fail, decide_False; [done|].
        unfold root in *. lia.
      - intros a b. unfold h2. rewrite fail_at_set_fail, length_set_fail.
        case_decide; [|by apply Hfail].
        subst a. rewrite decide_True by done. intros [= <-].
        split; [done|]. apply Htgt_ok.
      - intros y Hy. rewrite app_comm_cons in Hy.
        apply elem_of_app in Hy as [Hy|Hy%list_elem_of_singleton].
        + destruct (Hq y Hy). auto.
        + subst y. split; [unfold root in *; lia|done].
      - intros p k' a Hp Hedge%edge_set_fail Hfp.
        destruct (decide (p = node)) as [->|Hpn'].
        + right. rewrite app_comm_cons. apply elem_of_app. right.
          by apply list_elem_of_singleton.
        + unfold h2 in Hfp. rewrite fail_at_set_fail, decide_False in Hfp
            by done.
          destruct (Hclos p k' a Hp Hedge Hfp) as [?|Hin]; [left; auto|].
          right. rewrite app_comm_cons. apply elem_of_app. by left.
      - intros k' a Hch%child_set_fail Ha Hu. apply Hmono. eauto.
      - intros i Hi. destruct (Htot i Hi) as [c Hc].
        exists c. by apply child_set_fail. }
    destruct (IH h2 (q ++ [node]) cur h' q' Hinv2) as
      (Hinv' & Hs' & Hmono' & Hvals' & Hsub); [|exact Hrun|].
    { intros y Hy. destruct (Hvals y) as [k' ?].
      - apply elem_of_cons. by right.
      - exists k'. by apply edge_set_fail. }
    split_and!.
    + done.
    + by eapply same_shape_trans.
    + auto.
    + intros y [->|Hy]%elem_of_cons; auto.
    + intros y Hy. apply Hsub. apply elem_of_app. by left.
Qed.

(** One turn of [while queue]: the node popped leaves the queue
    with all its children linked. *)
Lemma bfs_inv_pop range cont pth fuel h q cur cn h1 q1 :
  bfs_inv range cont pth h (cur :: q) ->
  h !! cur = Some cn ->
  link_children fuel h q cur (dict_values (children cn)) = Ok (h1, q1) ->
  bfs_inv range cont pth h1 q1 ∧ same_shape h h1 ∧
  (∀ x, is_Some (fail_at h x) -> is_Some (fail_at h1 x)).
Proof.
  intros Hinv Hcn Hlink.
  destruct (link_children_inv range cont pth fuel
              (dict_values (children cn)) h q cur h1 q1 Hinv)
    as (Hinv1 & Hs1 & Hmono & Hvals & Hsub); [|exact Hlink|].
  { intros x [k Hk]%elem_dict_values. exists k. by exists cn. }
  split_and!; try done.
  destruct Hinv1 as (Ht & Hroot & Hfail & Hq & Hclos & Hrc & Htot).
  split_and!; try done.
  - intros x Hx. apply Hq. apply elem_of_cons. by right.
  - intros p k a Hp He Hfp.
    destruct (Hclos p k a Hp He Hfp) as [?|[->|?]%elem_of_cons];
      [by left| |by right].
    left. apply Hvals. apply elem_dict_values. exists k.
    apply (same_shape_edge h h1) in He as (n & Hn & Hc); [|done].
    by simplify_eq.
Qed.

Lemma bfs_spec range cont pth fuel :
  ∀ h q h',
    bfs_inv range cont pth h q -> bfs fuel h q = Ok h' ->
    bfs_inv range cont pth h' [] ∧ same_shape h h'.
Proof.
  induction fuel as [|fuel IH]; intros h q h' Hinv; [done|].
  simpl. destruct q as [|cur q].
  - intros [= <-]. split; [done|apply same_shape_refl].
  - intros (cn & Hcn%deref_Ok & Hrun)%bind_Ok.
    apply bind_Ok in Hrun as ([h1 q1] & Hlink & Hrun).
    destruct (bfs_inv_pop range cont pth fuel h q cur cn h1 q1 Hinv Hcn Hlink)
      as (Hinv1 & Hs1 & _).
    destruct (IH h1 q1 h' Hinv1 Hrun) as [Hfin Hs'].
    split; [done|]. by eapply same_shape_trans.
Qed.

(** With a [content] that maps two indices to one item that starts
    no stored sequence, step 1 queues the root with itself as fail
    link, and step 2 never comes back from the root's own entry. *)
Lemma follow_fail_stuck fuel h r st :
  h !! root = Some r -> fail r = Some root ->
  follow_fail fuel h (Some root) None ≠ Ok st.
Proof.
  intros Hr Hf. induction fuel as [|fuel IH]; [done|].
  simpl. unfold deref. rewrite Hr. simpl. by rewrite Hf.
Qed.

Lemma link_children_stuck pth fuel vals :
  ∀ h q res,
    tree pth h -> fail_at h root = Some root -> root ∈ vals ->
    link_children fuel h q root vals ≠ Ok res.
Proof.
  induction vals as [|node vals IH]; intros h q res Ht Hf Hin.
  - by apply elem_of_nil in Hin.
  - rewrite link_children_cons.
    intros (cn & Hcn%deref_Ok & Hrun)%bind_Ok.
    apply bind_Ok in Hrun as (nd & Hnd%deref_Ok & Hrun).
    apply bind_Ok in Hrun as (st & Hff & Hrun).
    apply bind_Ok in Hrun as (stn & Hsn%deref_Ok & Hrun).
    apply fail_at_Some in Hf as (r & Hr & Hfr).
    assert (r = cn) as -> by congruence.
    destruct (decide (node = root)) as [->|Hne].
    + assert (nd = cn) as -> by congruence.
      destruct (tree_root _ _ Ht) as (r' & Hr' & Hk & _).
      assert (r' = cn) as -> by congruence.
      rewrite Hk, Hfr in Hff.
      by eapply follow_fail_stuck.
    + eapply IH; [| | |exact Hrun].
      * eapply tree_same_shape; [done|].
        apply same_shape_set_fail, same_shape_refl.
      * rewrite fail_at_set_fail, decide_False by done.
        apply fail_at_Some. eauto.
      * by apply elem_of_cons in Hin as [?|?].
Qed.

Lemma link_children_frame fuel vals :
  ∀ h q cur h' q',
    link_children fuel h q cur vals = Ok (h', q') ->
    same_shape h h' ∧ (∀ x, x ∉ vals -> fail_at h' x = fail_at h x) ∧
    (∀ x, x ∈ q -> x ∈ q').
Proof.
  induction vals as [|node vals IH]; intros h q cur h' q'.
  - simpl. intros [= <- <-]. auto using same_shape_refl.
  - rewrite link_children_cons.
    intros (cn & Hcn%deref_Ok & Hrun)%bind_Ok.
    apply bind_Ok in Hrun as (nd & Hnd%deref_Ok & Hrun).
    apply bind_Ok in Hrun as (st & Hff & Hrun).
    apply bind_Ok in Hrun as (stn & Hsn%deref_Ok & Hrun).
    destruct (IH _ _ _ _ _ Hrun) as (Hs & Hfr & Hsub). split_and!.
    + eapply same_shape_trans; [|done].
      apply same_shape_set_fail, same_shape_refl.
    + intros x Hx. rewrite Hfr, fail_at_set_fail.
      * rewrite decide_False; [done|]. intros ->. apply Hx.
        apply elem_of_cons. by left.
      * intros ?. apply Hx. apply elem_of_cons. by right.
    + intros x Hx. apply Hsub. apply elem_of_app. by left.
Qed.

Lemma bfs_stuck pth fuel :
  ∀ h q h',
    tree pth h -> fail_at h root = Some root ->
    (∃ k, edge h root k root) -> root ∈ q ->
    bfs fuel h q ≠ Ok h'.
Proof.
  induction fuel as [|fuel IH]; intros h q h' Ht Hf [k Hloop] Hin; [done|].
  simpl. destruct q as [|cur q]; [by apply elem_of_nil in Hin|].
  intros (cn & Hcn%deref_Ok & Hrun)%bind_Ok.
  apply bind_Ok in Hrun as ([h1 q1] & Hlink & Hrun).
  destruct (decide (cur = root)) as [->|Hne].
  - eapply link_children_stuck; [done|done| |exact Hlink].
    apply elem_dict_values. exists k.
    destruct Hloop as (r & Hr & ?). by simplify_eq.
  - destruct (link_children_frame _ _ _ _ _ _ _ Hlink) as (Hs & Hfr & Hsub).
    eapply (IH h1 q1 h'); [| | | |exact Hrun].
    + by eapply tree_same_shape.
    + rewrite Hfr; [done|].
      intros [k' Hk']%elem_dict_values.
      destruct (tree_edge _ _ Ht cur k' root) as [[? _]|(? & _)];
        [by exists cn|done|unfold root in *; lia].
    + exists k. by apply (same_shape_edge h h1).
    + apply Hsub. by apply elem_of_cons in Hin as [?|?].
Qed.

(** ** [make_automaton] as a whole *)

Lemma length_eq_lookup {A} (l1 l2 : list A) :
  (∀ x, is_Some (l1 !! x) <-> is_Some (l2 !! x)) -> length l1 = length l2.
Proof.
  intros Hl.
  destruct (decide (length l1 < length l2)) as [Hlt|?].
  - apply lookup_lt_is_Some_2, Hl, lookup_lt_is_Some_1 in Hlt. lia.
  - destruct (decide (length l2 < length l1)) as [Hlt|?]; [|lia].
    apply lookup_lt_is_Some_2, Hl, lookup_lt_is_Some_1 in Hlt. lia.
Qed.

(** The store after step 1. *)
Lemma root_closed_facts cont pth h0 r0 h1 q1 range loops :
  tree pth h0 -> fresh h0 -> h0 !! root = Some r0 ->
  root_closed cont h0 r0 h1 q1 (seq 0 range) loops ->
  tree pth h1 ∧
  length h1 = length h0 ∧
  (∀ x, value_at h1 x = value_at h0 x) ∧
  (∀ p k c, child h0 p k c -> child h1 p k c) ∧
  (∀ k c, child h1 root k c ->
     child h0 root k c ∨ (c = root ∧ ∀ c', ¬ child h0 root k c')) ∧
  (∀ a b, fail_at h1 a = Some b -> b = root ∧ a ∈ q1) ∧
  (∀ x, x ∈ q1 -> fail_at h1 x = Some root ∧ ∃ k, child h1 root k x) ∧
  (∀ i, i < range ->
     ∃ x, child h1 root (cont i) x ∧ (x ∈ q1 ∨ x = root)).
Proof.
  intros Ht [Hnofail Hnoloop] Hr0 (Hh & Hloops & Hq & HD & Hrq).
  assert (Hr1 : ∃ r1, h1 !! root = Some r1 ∧
                      children r1 = children r0 ++ loops).
  { rewrite Hh, Hr0. by eexists. }
  destruct Hr1 as (r1 & Hr1 & Hcr1).
  assert (Hlen : length h1 = length h0).
  { apply length_eq_lookup. intros x. rewrite Hh.
    by rewrite fmap_is_Some. }
  assert (Hchild : ∀ p k c, child h0 p k c -> child h1 p k c).
  { intros p k c (n0 & Hn0 & Hc). unfold child. rewrite Hh, Hn0. simpl.
    eexists; split; [done|]. simpl.
    case_decide; [|done]. by rewrite dict_get_app, Hc. }
  assert (Hedge : ∀ p k c, edge h1 p k c ->
    edge h0 p k c ∨ (p = root ∧ c = root)).
  { intros p k c (n1 & Hn1 & Hc). rewrite Hh in Hn1.
    destruct (h0 !! p) as [n0|] eqn:Hn0; [|done]. simplify_eq/=.
    case_decide as Hp.
    - apply elem_of_app in Hc as [Hc|Hc]; [left; by exists n0|].
      right. split; [done|].
      rewrite Forall_forall in Hloops. by destruct (Hloops _ Hc).
    - left. by exists n0. }
  assert (Hkey : ∀ x, keyitem_at h1 x = keyitem_at h0 x).
  { intros x. unfold keyitem_at. rewrite Hh. by destruct (h0 !! x). }
  assert (Ht1 : tree pth h1).
  { split.
    - destruct (tree_root _ _ Ht) as (r & Hr & ? & ?).
      rewrite Hh, Hr. by eexists.
    - apply (tree_pth_root _ _ Ht).
    - intros p k c [He|[-> ->]]%Hedge; [|by left].
      rewrite Hkey. by apply (tree_edge _ _ Ht).
    - intros c Hc. rewrite Hlen in Hc.
      destruct (tree_parent _ _ Ht c Hc) as (p & k & ?). exists p, k. auto. }
  split_and!; try done.
  - intros x. unfold value_at. rewrite Hh. by destruct (h0 !! x).
  - intros k c (n1 & Hn1 & Hc). assert (n1 = r1) as -> by congruence.
    rewrite Hcr1, dict_get_app in Hc.
    destruct (dict_get (children r0) k) as [c'|] eqn:Hc0.
    + left. simplify_eq. by exists r0.
    + right. apply dict_get_elem in Hc.
      rewrite Forall_forall in Hloops. destruct (Hloops _ Hc) as [? _].
      split; [done|]. intros c' (n0 & Hn0 & Hc'). congruence.
  - intros a b (n1 & Hn1 & Hb)%fail_at_Some. rewrite Hh in Hn1.
    destruct (h0 !! a) as [n0|]; [|done]. simplify_eq/=.
    by case_decide; simplify_eq.
  - intros x Hx. destruct (Hq x Hx) as (i & _ & Hi).
    assert (Hch : child h1 root (cont i) x).
    { exists r1. by rewrite Hcr1. }
    split; [|by exists (cont i)].
    assert (Hxl : x < length h1).
    { eapply tree_edge_lt; [done|]. by apply child_edge in Hch. }
    rewrite Hlen in Hxl.
    destruct (lookup_lt_is_Some_2 _ _ Hxl) as [n0 Hn0].
    unfold fail_at. rewrite Hh, Hn0. simpl. by rewrite decide_True.
  - intros i Hi. destruct (HD i) as (x & Hx & ?).
    { apply elem_of_seq. lia. }
    exists x. split; [|done]. exists r1. by rewrite Hcr1.
Qed.

Lemma child_functional h p k c c' :
  child h p k c -> child h p k c' -> c = c'.
Proof. intros (n & ? & ?) (n' & ? & ?). congruence. Qed.

Lemma bfs_inv_automaton range cont pth h :
  bfs_inv range cont pth h [] -> automaton range cont pth h.
Proof.
  intros (Ht & Hroot & Hfail & Hq & Hclos & Hrc & Htot).
  split; try done.
  intros a. induction (lt_wf a) as [a _ IH]. intros Ha HU.
  destruct (tree_parent _ _ Ht a Ha) as (p & k & Hch).
  assert (He := child_edge _ _ _ _ Hch).
  destruct (tree_edge _ _ Ht _ _ _ He) as [[_ ->]|(Hlt & _ & Hp)];
    [unfold root in *; lia|].
  unfold universe_path in HU. rewrite Hp in HU.
  apply Forall_app in HU as [HUp HUk]. rewrite Forall_singleton in HUk.
  destruct (decide (p = root)) as [->|Hne].
  - apply (Hrc k); [done|unfold root; lia|done].
  - destruct (Hclos p k a Hne He) as [?|[]%elem_of_nil]; [|done].
    apply IH; [lia|unfold root in *; lia|done].
Qed.

(** The invariant of step 2 holds when step 1 ends, unless the root
    was queued. *)
Lemma bfs_inv_init range cont pth h1 q1 :
  tree pth h1 ->
  (∀ a b, fail_at h1 a = Some b -> b = root ∧ a ∈ q1) ->
  (∀ x, x ∈ q1 -> fail_at h1 x = Some root ∧ ∃ k, child h1 root k x) ->
  (∀ i, i < range ->
     ∃ x, child h1 root (cont i) x ∧ (x ∈ q1 ∨ x = root)) ->
  root ∉ q1 ->
  bfs_inv range cont pth h1 q1.
Proof.
  intros Ht1 Hfail1 Hq1 Htot Hnin. split_and!; try done.
  - destruct (fail_at h1 root) as [b|] eqn:Hb; [|done].
    by destruct (Hfail1 _ _ Hb).
  - intros a b Hab. destruct (Hfail1 _ _ Hab) as [-> Ha].
    destruct (Hq1 _ Ha) as (_ & k & Hch%child_edge).
    destruct (tree_root _ _ Ht1) as (r & Hr & _).
    split; [by eapply lookup_lt_Some|].
    unfold universe_path. rewrite (tree_pth_root _ _ Ht1).
    split; [|by constructor].
    destruct (tree_edge _ _ Ht1 _ _ _ Hch) as [[_ ->]|(_ & _ & ->)];
      [done|].
    rewrite length_app. simpl. lia.
  - intros x Hx. split; [by intros ->|].
    destruct (Hq1 _ Hx) as [-> _]. done.
  - intros p k a _ _ [b Hb]. right. by destruct (Hfail1 _ _ Hb).
  - intros k a Hch Ha (i & Hi & <-)%in_universe_spec.
    destruct (Htot i Hi) as (x & Hx & Hcase).
    assert (x = a) as -> by (by eapply child_functional).
    destruct Hcase as [Hin| ->]; [|done].
    destruct (Hq1 _ Hin) as [-> _]. done.
  - intros i Hi. destruct (Htot i Hi) as (x & ? & _). by exists x.
Qed.

Lemma make_automaton_spec range cont ops fuel t' :
  let t := build range cont ops in
  make_automaton fuel t = Ok t' ->
  ∃ pth,
    tree pth (nodes t) ∧ fresh (nodes t) ∧
    automaton range cont pth (nodes t') ∧
    items_range t' = range ∧ content t' = cont ∧
    length (nodes t') = length (nodes t) ∧
    (∀ x, value_at (nodes t') x = value_at (nodes t) x) ∧
    (∀ p k c, child (nodes t) p k c -> child (nodes t') p k c) ∧
    (∀ k c, child (nodes t') root k c ->
       child (nodes t) root k c ∨
       (c = root ∧ ∀ c', ¬ child (nodes t) root k c')).
Proof.
  intros t. unfold make_automaton.
  assert (Hrange : items_range t = range) by apply build_items_range.
  assert (Hcont : content t = cont) by apply build_content.
  rewrite Hrange, Hcont.
  destruct (build_tree range cont ops) as (pth & Ht & Hf). fold t in Ht, Hf.
  destruct (tree_root _ _ Ht) as (r0 & Hr0 & _).
  assert (Hnl : ∀ k, dict_get (children r0) k ≠ Some root).
  { intros k Hk. apply (proj2 Hf root k). exists r0.
    split; [done|]. by apply dict_get_elem. }
  destruct (root_loop_spec cont (nodes t) r0 (seq 0 range) Hr0 Hnl
              (nodes t) [] [] [] (root_closed_init cont _ _ Hf Hr0))
    as (h1 & q1 & loops & Hloop & Hclosed).
  rewrite Hloop. simpl.
  intros (h' & Hbfs & [= <-])%bind_Ok.
  destruct (root_closed_facts cont pth _ _ _ _ _ _ Ht Hf Hr0 Hclosed)
    as (Ht1 & Hlen & Hval & Hchild & Hrootch & Hfail1 & Hq1 & Htot).
  destruct (decide (root ∈ q1)) as [Hin|Hnin].
  { exfalso. eapply (bfs_stuck pth fuel h1 q1 h'); try done.
    - by destruct (Hq1 _ Hin).
    - destruct (Hq1 _ Hin) as (_ & k & ?%child_edge). by exists k. }
  assert (Hinv : bfs_inv range cont pth h1 q1)
    by (by apply bfs_inv_init).
  destruct (bfs_spec range cont pth fuel h1 q1 h' Hinv Hbfs) as [Hfin Hs].
  exists pth. simpl. split_and!; try done.
  - by apply bfs_inv_automaton.
  - by rewrite (same_shape_length h1 h').
  - intros x. by rewrite (same_shape_value_at h1 h').
  - intros p k c Hch. apply (same_shape_child h1 h'); auto.
  - intros k c Hch. apply Hrootch. by apply (same_shape_child h1 h').
Qed.

(** ** [make_automaton] returns

    On a trie whose items all belong to the universe, and with a
    [content] that names each item once, both steps go through. *)

Lemma add_walk_edge_keys s :
  ∀ h node p k c,
    edge (add_walk h node s).1 p k c -> edge h p k c ∨ k ∈ s.
Proof.
  induction s as [|k0 s IH]; intros h node p k c; [by left|].
  simpl. destruct (h !! node) as [nd|] eqn:Hnd; [|by left].
  destruct (dict_get (children nd) k0) as [c0|] eqn:Hc0.
  - intros [?|?]%IH; [by left|]. right. apply elem_of_cons. by right.
  - intros [He|?]%IH; [|right; apply elem_of_cons; by right].
    destruct He as (n & Hn & Hkc).
    rewrite lookup_alloc, dict_set_absent in Hn by done.
    case_decide; [by simplify_eq; apply elem_of_nil in Hkc|].
    case_decide.
    + subst p. rewrite Hnd in Hn. simplify_eq/=.
      apply elem_of_app in Hkc as [?|Hkc%list_elem_of_singleton].
      * left. by exists nd.
      * right. simplify_eq. apply elem_of_cons. by left.
    + left. by exists n.
Qed.

Lemma build_keys_in range cont ops :
  Forall (fun op => forallb (in_universe range cont) op.1 = true) ops ->
  keys_in range cont (nodes (build range cont ops)).
Proof.
  induction ops as [|[s v] ops IH] using rev_ind; intros Hops.
  - intros p k c (n & Hn & Hkc). destruct p; simplify_eq/=.
    by apply elem_of_nil in Hkc.
  - apply Forall_app in Hops as [Hops Hs]. rewrite Forall_singleton in Hs.
    simpl in Hs. specialize (IH Hops). rewrite forallb_forall in Hs.
    rewrite build_snoc. unfold add. destruct s as [|k0 s]; [done|].
    pose proof (add_walk_edge_keys (k0 :: s) (nodes (build range cont ops))
                  root) as Hw.
    destruct (add_walk _ root (k0 :: s)) as [h' a]. simpl in Hw. simpl.
    intros p k c He%edge_set_value.
    destruct (Hw _ _ _ He) as [?|Hin]; [by eapply IH|].
    apply Hs. by apply list_elem_of_In.
Qed.

Lemma root_closed_keys cont h0 r0 h1 q1 range loops :
  h0 !! root = Some r0 ->
  keys_in range cont h0 ->
  root_closed cont h0 r0 h1 q1 (seq 0 range) loops ->
  keys_in range cont h1.
Proof.
  intros Hr0 Hkeys (Hh & Hloops & _) p k c (n1 & Hn1 & Hc).
  rewrite Hh in Hn1.
  destruct (h0 !! p) as [n0|] eqn:Hn0; [|done]. simplify_eq/=.
  assert (Hold : (k, c) ∈ children n0 -> in_universe range cont k = true).
  { intros Hin. apply (Hkeys p k c). by exists n0. }
  case_decide; [|by apply Hold].
  apply elem_of_app in Hc as [?|Hc]; [by apply Hold|].
  rewrite Forall_forall in Hloops.
  destruct (Hloops _ Hc) as (_ & _ & i & Hi%elem_of_seq & Hki).
  simpl in Hki. apply in_universe_spec. exists i. split; [lia|done].
Qed.

Lemma follow_fail_progress pth h (d : nat) k :
  tree pth h ->
  (∀ a b, fail_at h a = Some b ->
     b < length h ∧ length (pth b) < length (pth a)) ->
  (∃ c, child h root k c) ->
  (∀ a, 0 < a < length h -> length (pth a) ≤ d -> is_Some (fail_at h a)) ->
  ∀ fuel a,
    a < length h -> length (pth a) ≤ d -> length (pth a) + 1 ≤ fuel ->
    ∃ st c, follow_fail fuel h (Some a) (Some k) = Ok st ∧ child h st k c.
Proof.
  intros Ht Hfail [c0 Hroot] Hlinked.
  induction fuel as [|fuel IH]; intros a Ha Hd Hfuel; [lia|].
  destruct (lookup_lt_is_Some_2 _ _ Ha) as [nd Hnd].
  simpl. unfold deref. rewrite Hnd. simpl.
  destruct (dict_get (children nd) k) as [c|] eqn:Hc.
  - rewrite bool_decide_eq_true_2 by done.
    exists a, c. split; [done|]. by exists nd.
  - rewrite bool_decide_eq_false_2 by (by intros [? ?]).
    destruct (decide (a = root)) as [->|Hne].
    { destruct Hroot as (n & Hn & Hcn). congruence. }
    destruct (Hlinked a) as [b Hb]; [unfold root in *; lia|done|].
    destruct (Hfail _ _ Hb) as (Hbl & Hlen).
    assert (fail nd = Some b) as ->.
    { unfold fail_at in Hb. by rewrite Hnd in Hb. }
    apply IH; [done|lia|lia].
Qed.

Lemma link_children_total range cont pth (d : nat) fuel vals :
  ∀ h q cur,
    bfs_inv range cont pth h (cur :: q) ->
    keys_in range cont h ->
    (∀ a, 0 < a < length h -> length (pth a) ≤ d -> is_Some (fail_at h a)) ->
    length (pth cur) ≤ d ->
    (∀ x, x ∈ vals -> ∃ k, edge h cur k x) ->
    length h < fuel ->
    ∃ h', link_children fuel h q cur vals = Ok (h', q ++ vals).
Proof.
  induction vals as [|node vals IH];
    intros h q cur Hinv Hkeys Hlinked Hd Hvals Hfuel.
  - exists h. simpl. by rewrite app_nil_r.
  - pose proof Hinv as (Ht & Hroot & Hfail & Hq & Hclos & Hrc & Htot).
    destruct (Hvals node) as [k He]; [apply elem_of_cons; by left|].
    destruct (Hq cur) as [Hcur [x Hx]]; [apply elem_of_cons; by left|].
    apply fail_at_Some in Hx as (cn & Hcn & Hfx).
    destruct (tree_edge _ _ Ht _ _ _ He) as [[? _]|(Hlt & Hki & Hpn)];
      [done|].
    apply keyitem_at_Some in Hki as (nd & Hnd & Hk).
    destruct (Hfail cur x) as (Hxl & Hxd & _).
    { apply fail_at_Some. eauto. }
    assert (Hrk : ∃ c, child h root k c).
    { pose proof (Hkeys _ _ _ He) as (i & Hi & <-)%in_universe_spec. eauto. }
    destruct (follow_fail_progress pth h d k Ht) with (fuel := fuel) (a := x)
      as (st & c & Hff & stn & Hstn & Hget); try done.
    { intros a b Hab. destruct (Hfail _ _ Hab) as (? & ? & _). done. }
    { lia. }
    { pose proof (tree_depth _ _ _ Ht Hxl). lia. }
    set (h2 := set_fail h node (Some c)).
    assert (Hstep : ∀ rest,
      link_children fuel h q cur (node :: rest)
      = link_children fuel h2 (q ++ [node]) cur rest).
    { intros rest. rewrite link_children_cons. unfold deref.
      rewrite Hcn, Hnd. simpl. rewrite Hfx, Hk, Hff. simpl.
      rewrite Hstn. simpl. by rewrite Hget. }
    destruct (link_children_inv range cont pth fuel [node] h q cur
                h2 (q ++ [node]) Hinv)
      as (Hinv2 & Hs2 & Hmono & _ & _).
    { intros y ->%list_elem_of_singleton. by exists k. }
    { by rewrite Hstep. }
    destruct (IH h2 (q ++ [node]) cur Hinv2) as [h' Hrun].
    + intros p k' c' He'%edge_set_fail. by eapply Hkeys.
    + unfold h2. rewrite length_set_fail. intros a Ha Hda.
      apply Hmono. auto.
    + done.
    + intros y Hy. destruct (Hvals y) as [k' ?];
        [apply elem_of_cons; by right|].
      exists k'. by apply edge_set_fail.
    + unfold h2. by rewrite length_set_fail.
    + exists h'. rewrite Hstep, Hrun. by rewrite <- app_assoc.
Qed.

Lemma weight_app W L (q1 q2 : list addr) :
  weight W L (q1 ++ q2) = weight W L q1 + weight W L q2.
Proof. apply sum_list_with_app. Qed.

Lemma weight_children W L p (cs : list addr) :
  p < L -> length cs < W -> (∀ c, c ∈ cs -> p < c) ->
  weight W L cs < W ^ (L - p).
Proof.
  intros Hp HW Hcs.
  assert (HW0 : W ≠ 0) by lia.
  assert (Hle : weight W L cs ≤ length cs * W ^ (L - S p)).
  { clear HW. induction cs as [|c cs IH]; [done|].
    unfold weight in *. simpl.
    assert (W ^ (L - c) ≤ W ^ (L - S p)).
    { apply Nat.pow_le_mono_r; [done|].
      assert (p < c) by (apply Hcs, elem_of_cons; by left). lia. }
    assert (sum_list_with (fun x => W ^ (L - x)) cs
            ≤ length cs * W ^ (L - S p)); [|lia].
    apply IH. intros c' Hc'. apply Hcs, elem_of_cons. by right. }
  pose proof (Nat.pow_nonzero W (L - S p) HW0) as Hpos.
  replace (L - p) with (S (L - S p)) by lia.
  rewrite Nat.pow_succ_r'. nia.
Qed.

Lemma max_width_le h p n :
  h !! p = Some n ->
  length (children n) ≤ max_list_with (fun m => length (children m)) h.
Proof.
  revert p. induction h as [|m h IH]; intros [|p]; simpl; try done.
  - intros [= ->]. lia.
  - intros Hn. specialize (IH _ Hn). lia.
Qed.

(** The queue put in the form that suits its first node. *)
Lemma bfs_ready_head range cont pth h cur q :
  bfs_ready range cont pth h (cur :: q) ->
  ∃ (dep : nat) qa qb,
    1 ≤ dep ∧ length (pth cur) = dep ∧ q = qa ++ qb ∧
    (∀ x, x ∈ qa -> length (pth x) = dep) ∧
    (∀ x, x ∈ qb -> length (pth x) = S dep) ∧
    (∀ a, 0 < a < length h -> length (pth a) ≤ dep ->
          is_Some (fail_at h a)).
Proof.
  intros (Hinv & Hkeys & dep & qa & qb & Hd & Hq & Hqa & Hqb & Hl).
  destruct qa as [|x qa].
  - simpl in Hq. subst qb. exists (S dep), q, [].
    rewrite app_nil_r. split_and!; try done.
    + lia.
    + apply Hqb. apply elem_of_cons. by left.
    + intros x Hx. apply Hqb. apply elem_of_cons. by right.
    + by intros x ?%elem_of_nil.
    + intros a Ha Hda.
      destruct (decide (length (pth a) ≤ dep)) as [?|Hgt]; [by apply Hl|].
      destruct Hinv as (Ht & _ & _ & _ & Hclos & _).
      destruct (tree_parent _ _ Ht a Ha) as (p & k & Hch%child_edge).
      destruct (tree_edge _ _ Ht _ _ _ Hch) as [[_ ->]|(Hlt & _ & Hpa)];
        [unfold root in *; lia|].
      rewrite Hpa, length_app in Hda, Hgt. simpl in *.
      assert (Hp : p ≠ root).
      { intros ->. rewrite (tree_pth_root _ _ Ht) in Hgt. simpl in Hgt. lia. }
      destruct (Hclos p k a Hp Hch) as [?|Hin]; [|done|].
      * apply Hl; [unfold root in *; lia|lia].
      * apply Hqb in Hin. lia.
  - simpl in Hq. injection Hq as -> ->. exists dep, qa, qb.
    split_and!; try done.
    + apply Hqa. apply elem_of_cons. by left.
    + intros y Hy. apply Hqa. apply elem_of_cons. by right.
Qed.

(** Step 2 returns when given fuel for the weight of its queue. *)
Lemma bfs_total range cont pth W fuel :
  ∀ h q,
    bfs_ready range cont pth h q ->
    (∀ p n, h !! p = Some n -> length (children n) < W) ->
    weight W (length h) q + length h + 2 ≤ fuel ->
    ∃ h', bfs fuel h q = Ok h'.
Proof.
  induction fuel as [|fuel IH]; intros h q Hready HW Hfuel; [lia|].
  destruct q as [|cur q]; [by exists h|].
  destruct (bfs_ready_head _ _ _ _ _ _ Hready)
    as (dep & qa & qb & Hd & Hcur & Hq & Hqa & Hqb & Hl).
  destruct Hready as (Hinv & Hkeys & _).
  pose proof Hinv as (Ht & _ & _ & Hqueue & _).
  destruct (Hqueue cur) as [Hne [x Hx]]; [apply elem_of_cons; by left|].
  apply fail_at_Some in Hx as (cn & Hcn & _).
  assert (Hcl : cur < length h) by (by eapply lookup_lt_Some).
  assert (Hedges : ∀ y, y ∈ dict_values (children cn) ->
            ∃ k, edge h cur k y ∧ cur < y ∧ pth y = pth cur ++ [k]).
  { intros y [k Hk]%elem_dict_values.
    assert (He : edge h cur k y) by (by exists cn).
    exists k. split; [done|].
    by destruct (tree_edge _ _ Ht _ _ _ He) as [[? _]|(? & _ & ?)]. }
  destruct (link_children_total range cont pth dep fuel
              (dict_values (children cn)) h q cur Hinv Hkeys Hl)
    as [h1 Hlink].
  { lia. }
  { intros y Hy. destruct (Hedges y Hy) as (k & ? & _). by exists k. }
  { unfold weight in Hfuel. lia. }
  destruct (bfs_inv_pop range cont pth fuel h q cur cn h1 _ Hinv Hcn Hlink)
    as (Hinv1 & Hs1 & Hmono).
  pose proof (same_shape_length _ _ Hs1) as Hlen1.
  destruct (IH h1 (q ++ dict_values (children cn))) as [h' Hrun].
  - split_and!; [done| |].
    + intros p k c He. apply (Hkeys p k c). by apply (same_shape_edge h h1).
    + exists dep, qa, (qb ++ dict_values (children cn)).
      split_and!; try done.
      * by rewrite Hq, app_assoc.
      * intros y [Hy|Hy]%elem_of_app; [by apply Hqb|].
        destruct (Hedges y Hy) as (k & _ & _ & ->).
        rewrite length_app. simpl. lia.
      * rewrite Hlen1. auto.
  - intros p n Hn.
    destruct (same_shape_lookup_inv _ _ _ _ Hs1 Hn) as (n0 & f & Hn0 & ->).
    simpl. by eapply HW.
  - rewrite Hlen1, weight_app.
    assert (weight W (length h) (dict_values (children cn))
            < W ^ (length h - cur)).
    { apply weight_children; [done| |].
      - unfold dict_values. rewrite length_fmap. by eapply HW.
      - intros y Hy. by destruct (Hedges y Hy) as (k & _ & ? & _). }
    unfold weight in *. simpl in Hfuel. lia.
  - exists h'. simpl. unfold deref. rewrite Hcn. simpl.
    rewrite Hlink. simpl. exact Hrun.
Qed.

(** [make_automaton] returns on every trie whose items are items of
    the universe, when [content] gives each item once: the contract
    of the specification. *)
Lemma make_automaton_total range cont ops :
  NoDup (cont <$> seq 0 range) ->
  Forall (fun op => forallb (in_universe range cont) op.1 = true) ops ->
  ∃ fuel t', make_automaton fuel (build range cont ops) = Ok t'.
Proof.
  intros Hinj Hops. set (t := build range cont ops).
  assert (Hrange : items_range t = range) by apply build_items_range.
  assert (Hcont : content t = cont) by apply build_content.
  destruct (build_tree range cont ops) as (pth & Ht & Hf). fold t in Ht, Hf.
  pose proof (build_keys_in range cont ops Hops) as Hkeys. fold t in Hkeys.
  destruct (tree_root _ _ Ht) as (r0 & Hr0 & _).
  assert (Hnl : ∀ k, dict_get (children r0) k ≠ Some root).
  { intros k Hk. apply (proj2 Hf root k). exists r0.
    split; [done|]. by apply dict_get_elem. }
  destruct (root_loop_spec cont (nodes t) r0 (seq 0 range) Hr0 Hnl
              (nodes t) [] [] [] (root_closed_init cont _ _ Hf Hr0))
    as (h1 & q1 & loops & Hloop & Hclosed).
  destruct (root_closed_facts cont pth _ _ _ _ _ _ Ht Hf Hr0 Hclosed)
    as (Ht1 & Hlen & Hval & Hchild & Hrootch & Hfail1 & Hq1 & Htot).
  pose proof (root_closed_keys cont _ _ _ _ _ _ Hr0 Hkeys Hclosed) as Hkeys1.
  assert (Hnin : root ∉ q1).
  { intros Hin. destruct Hclosed as (_ & _ & _ & _ & Hrq). by apply Hrq. }
  assert (Hinv : bfs_inv range cont pth h1 q1) by (by apply bfs_inv_init).
  set (W := S (max_list_with (fun m => length (children m)) h1)).
  destruct (bfs_total range cont pth W
              (weight W (length h1) q1 + length h1 + 2) h1 q1)
    as [h' Hbfs]; [| |done|].
  - split_and!; [done|done|]. exists 1, q1, []. rewrite app_nil_r.
    split_and!; try done.
    + intros x Hx. destruct (Hq1 x Hx) as (_ & k & Hch%child_edge).
      destruct (tree_edge _ _ Ht1 _ _ _ Hch) as [[_ ->]|(_ & _ & ->)];
        [done|].
      by rewrite (tree_pth_root _ _ Ht1).
    + by intros x ?%elem_of_nil.
    + intros a Ha Hda.
      destruct (tree_parent _ _ Ht1 a Ha) as (p & k & Hch).
      pose proof (child_edge _ _ _ _ Hch) as He.
      destruct (tree_edge _ _ Ht1 _ _ _ He) as [[_ ->]|(Hlt & _ & Hpa)];
        [unfold root in *; lia|].
      rewrite Hpa, length_app in Hda. simpl in Hda.
      assert (p = root) as ->.
      { destruct (decide (p = 0)) as [|Hp]; [done|].
        destruct (tree_parent _ _ Ht1 p) as (p' & k' & Hch'%child_edge);
          [lia|].
        destruct (tree_edge _ _ Ht1 _ _ _ Hch') as [[_ ?]|(_ & _ & Hpp)];
          [done|].
        rewrite Hpp, length_app in Hda. simpl in Hda. lia. }
      destruct Hinv as (_ & _ & _ & _ & _ & Hrc & _).
      apply (Hrc k); [done|unfold root; lia|by eapply Hkeys1].
  - intros p n Hn. pose proof (max_width_le _ _ _ Hn). unfold W. lia.
  - exists (weight W (length h1) q1 + length h1 + 2), (with_nodes h' t).
    unfold make_automaton. rewrite Hrange, Hcont, Hloop. simpl.
    by rewrite Hbfs.
Qed.

(** ** [search] on a compiled automaton *)

Section Search.
Variables (range : nat) (cont : nat -> Item).
Variables (pth : addr -> list Item) (h : heap Item V).
Hypothesis Haut : automaton range cont pth h.

Lemma universe_path_root : universe_path range cont pth root.
Proof.
  unfold universe_path. rewrite (tree_pth_root _ _ (aut_tree _ _ _ _ Haut)).
  constructor.
Qed.

Lemma universe_path_child st k c :
  universe_path range cont pth st -> in_universe range cont k = true ->
  child h st k c ->
  c < length h ∧ universe_path range cont pth c.
Proof.
  intros HU Hk Hch%child_edge.
  pose proof (aut_tree _ _ _ _ Haut) as Ht.
  split; [by eapply tree_edge_lt|].
  destruct (tree_edge _ _ Ht _ _ _ Hch) as [[_ ->]|(_ & _ & Hp)].
  - apply universe_path_root.
  - unfold universe_path. rewrite Hp. apply Forall_app.
    split; [done|]. by apply Forall_singleton.
Qed.

(** The collecting walk ends: each hop shortens the path, and the
    root has no fail link. *)
Lemma collect_total fuel :
  ∀ a acc,
    a < length h -> length (pth a) + 2 ≤ fuel ->
    ∃ vals, collect fuel h (Some a) acc = Ok vals ∧
      ∀ x, x ∈ acc ∨ value_at h a = Some x -> x ∈ vals.
Proof.
  induction fuel as [|fuel IH]; intros a acc Ha Hfuel; [lia|].
  destruct (lookup_lt_is_Some_2 _ _ Ha) as [nd Hnd].
  simpl. unfold deref. rewrite Hnd. simpl.
  set (acc' := match value nd with Some v => acc ++ [v] | None => acc end).
  assert (Hacc : ∀ x, x ∈ acc ∨ value_at h a = Some x -> x ∈ acc').
  { intros x [Hx|Hx]; unfold acc'.
    - destruct (value nd); [apply elem_of_app|]; auto.
    - unfold value_at in Hx. rewrite Hnd in Hx. simpl in Hx. rewrite Hx.
      apply elem_of_app. right. by apply list_elem_of_singleton. }
  destruct (fail nd) as [b|] eqn:Hb.
  - assert (Hab : fail_at h a = Some b).
    { unfold fail_at. by rewrite Hnd. }
    destruct (aut_fail _ _ _ _ Haut _ _ Hab) as (Hbl & Hlen & _).
    destruct (IH b acc' Hbl) as (vals & -> & Hvals); [lia|].
    exists vals. split; [done|]. intros x Hx. apply Hvals. left. auto.
  - destruct fuel as [|fuel]; [lia|]. exists acc'. by split.
Qed.

(** The inner loop ends at a state that has a child for an item of
    the universe: the chain of fail links reaches the root, which
    has one for every such item. *)
Lemma follow_fail_total fuel k :
  in_universe range cont k = true ->
  ∀ a,
    a < length h -> universe_path range cont pth a ->
    length (pth a) + 1 ≤ fuel ->
    ∃ st c, follow_fail fuel h (Some a) (Some k) = Ok st ∧
            child h st k c ∧ universe_path range cont pth st.
Proof.
  intros Hk. induction fuel as [|fuel IH]; intros a Ha HU Hfuel; [lia|].
  destruct (lookup_lt_is_Some_2 _ _ Ha) as [nd Hnd].
  simpl. unfold deref. rewrite Hnd. simpl.
  destruct (dict_get (children nd) k) as [c|] eqn:Hc.
  - rewrite bool_decide_eq_true_2 by done.
    exists a, c. split_and!; [done| |done]. by exists nd.
  - rewrite bool_decide_eq_false_2 by (by intros [? ?]).
    destruct (decide (a = root)) as [->|Hne].
    { apply in_universe_spec in Hk as (i & Hi & <-).
      destruct (aut_root_total _ _ _ _ Haut i Hi) as (c & n & Hn & Hcn).
      congruence. }
    destruct (aut_linked _ _ _ _ Haut a) as [b Hb];
      [unfold root in *; lia|done|].
    destruct (aut_fail _ _ _ _ Haut _ _ Hb) as (Hbl & Hlen & HUb).
    assert (fail nd = Some b) as ->.
    { unfold fail_at in Hb. by rewrite Hnd in Hb. }
    apply IH; [done|auto|lia].
Qed.

Lemma follow_fail_here fuel a k c :
  child h a k c -> follow_fail (S fuel) h (Some a) (Some k) = Ok a.
Proof.
  intros (nd & Hnd & Hc). simpl. unfold deref. rewrite Hnd. simpl.
  by rewrite bool_decide_eq_true_2.
Qed.

(** One turn of the loop of [search]. *)
Lemma search_step_total fuel state k :
  in_universe range cont k = true ->
  state < length h -> universe_path range cont pth state ->
  length h < fuel ->
  ∃ st c vals,
    follow_fail fuel h (Some state) (Some k) = Ok st ∧
    child h st k c ∧
    search_step fuel h state k = Ok (c, vals) ∧
    c < length h ∧ universe_path range cont pth c ∧
    ∀ x, value_at h c = Some x -> x ∈ vals.
Proof.
  intros Hk Hs HU Hfuel.
  pose proof (aut_tree _ _ _ _ Haut) as Ht.
  pose proof (tree_depth _ _ _ Ht Hs) as Hd.
  destruct (follow_fail_total fuel k Hk state Hs HU) as
    (st & c & Hff & Hch & HUst); [lia|].
  destruct (universe_path_child _ _ _ HUst Hk Hch) as [Hcl HUc].
  pose proof (tree_depth _ _ _ Ht Hcl) as Hdc.
  destruct (collect_total fuel c [] Hcl) as (vals & Hcol & Hvals); [lia|].
  exists st, c, vals. split_and!; try done; [|by auto].
  unfold search_step. rewrite Hff. simpl.
  destruct Hch as (stn & Hstn & Hget).
  unfold deref. rewrite Hstn. simpl. rewrite Hget. simpl.
  by rewrite Hcol.
Qed.

Lemma search_loop_cons fuel state index k s :
  search_loop fuel h state index (k :: s) =
    ('(state', vals) ← search_step fuel h state k;
     '(final, out) ← search_loop fuel h state' (S index) s;
     Ok (final, match vals with
                | [] => out
                | _ => (index, vals) :: out
                end)).
Proof. done. Qed.

(** [search] is total on input over the universe. *)
Lemma search_loop_total fuel s :
  forallb (in_universe range cont) s = true ->
  length h < fuel ->
  ∀ state index,
    state < length h -> universe_path range cont pth state ->
    ∃ final out,
      search_loop fuel h state index s = Ok (final, out) ∧
      final < length h ∧ universe_path range cont pth final.
Proof.
  intros Hs Hfuel. induction s as [|k s IH]; intros state index Hst HU.
  - by exists state, [].
  - simpl in Hs. apply andb_true_iff in Hs as [Hk Hs].
    destruct (search_step_total fuel state k Hk Hst HU Hfuel)
      as (st & c & vals & _ & _ & Hstep & Hcl & HUc & _).
    destruct (IH Hs c (S index) Hcl HUc) as (final & out & Hloop & ? & ?).
    rewrite search_loop_cons, Hstep. simpl. rewrite Hloop. simpl.
    by eexists _, _.
Qed.

(** Searching a sequence that is a path of the trie walks down
    that path, and reports the value of its last node. *)
Lemma search_loop_path fuel s :
  forallb (in_universe range cont) s = true ->
  length h < fuel ->
  ∀ state index a,
    state < length h -> universe_path range cont pth state ->
    get_node_from h state s = Some a ->
    ∃ out,
      search_loop fuel h state index s = Ok (a, out) ∧
      ∀ v, s ≠ [] -> value_at h a = Some v ->
           ∃ vals, (index + length s - 1, vals) ∈ out ∧ v ∈ vals.
Proof.
  intros Hs Hfuel. induction s as [|k s IH]; intros state index a Hst HU.
  - simpl. intros [= <-]. by exists [].
  - intros (c & Hch & Hget)%get_node_from_cons.
    simpl in Hs. apply andb_true_iff in Hs as [Hk Hs].
    destruct (search_step_total fuel state k Hk Hst HU Hfuel)
      as (st & c' & vals & Hff & Hch' & Hstep & Hcl & HUc & Hvals).
    destruct fuel as [|fuel']; [lia|].
    rewrite (follow_fail_here _ _ _ _ Hch) in Hff.
    injection Hff as <-.
    assert (c' = c) as -> by (by eapply child_functional).
    destruct (IH Hs c (S index) a Hcl HUc Hget) as (out & Hloop & Hout).
    rewrite search_loop_cons, Hstep. simpl. rewrite Hloop. simpl.
    eexists. split; [done|]. intros v _ Hv.
    destruct s as [|k' s'].
    + simpl in Hget. injection Hget as <-.
      exists vals. pose proof (Hvals v Hv) as Hin. split; [|done].
      destruct vals as [|v0 vals]; [by apply elem_of_nil in Hin|].
      match goal with
      | |- (?n, _) ∈ _ => replace n with index by (simpl; lia)
      end.
      apply elem_of_cons. by left.
    + destruct (Hout v) as (vals' & Hin & Hv'); [done|done|].
      exists vals'. split; [|done].
      match goal with
      | |- (?n, _) ∈ _ =>
          replace n with (S index + length (k' :: s') - 1)
            by (simpl; lia)
      end.
      destruct vals; [done|]. apply elem_of_cons. by right.
Qed.

End Search.

(** ** [__len__] *)

Lemma len_loop_cons fuel h node (stack : list addr) m :
  len_loop (S fuel) h (node :: stack) m =
    (nd ← deref h node;
     len_loop fuel h (reverse (dict_values (children nd)) ++ stack)
       (match value nd with Some _ => S m | None => m end)).
Proof. done. Qed.

(** The count depends on the children and on which nodes hold a
    value, not on the values themselves. *)
Lemma len_loop_ext fuel h h' :
  (∀ x, match h !! x, h' !! x with
        | Some n1, Some n2 =>
            children n1 = children n2 ∧
            (is_Some (value n1) <-> is_Some (value n2))
        | None, None => True
        | _, _ => False
        end) ->
  ∀ (stack : list addr) m, len_loop fuel h stack m = len_loop fuel h' stack m.
Proof.
  intros Hext. induction fuel as [|fuel IH]; intros stack m; [done|].
  destruct stack as [|node stack]; [done|].
  rewrite !len_loop_cons. unfold deref. specialize (Hext node).
  destruct (h !! node) as [n1|], (h' !! node) as [n2|]; try done.
  destruct Hext as [Hc Hv]. simpl. rewrite Hc.
  destruct (value n1), (value n2); try apply IH.
  - exfalso. eapply is_Some_None. apply Hv. eauto.
  - exfalso. eapply is_Some_None. apply Hv. eauto.
Qed.

Lemma len_loop_stack h (l : list addr) :
  (∀ c, c ∈ l -> ∃ f m, ∀ fuel (rest : list addr) i,
     len_loop (f + fuel) h (c :: rest) i = len_loop fuel h rest (m + i)) ->
  ∃ f m, ∀ fuel (rest : list addr) i,
    len_loop (f + fuel) h (l ++ rest) i = len_loop fuel h rest (m + i).
Proof.
  induction l as [|c l IH]; intros Hl.
  - by exists 0, 0.
  - destruct (Hl c) as (f1 & m1 & H1); [apply elem_of_cons; by left|].
    destruct IH as (f2 & m2 & H2).
    { intros x Hx. apply Hl. apply elem_of_cons. by right. }
    exists (f1 + f2), (m2 + m1). intros fuel rest i.
    rewrite <- Nat.add_assoc. simpl. rewrite H1, H2.
    by rewrite Nat.add_assoc.
Qed.

(** On a tree without self-reference the traversal of the nodes
    below [a] ends and leaves the rest of the stack as it was. *)
Lemma len_loop_subtree pth h :
  tree pth h -> fresh h ->
  ∀ a, a < length h ->
    ∃ f m, ∀ fuel (rest : list addr) i,
      len_loop (f + fuel) h (a :: rest) i = len_loop fuel h rest (m + i).
Proof.
  intros Ht [_ Hnoloop] a.
  remember (length h - a) as d eqn:Hd. revert a Hd.
  induction (lt_wf d) as [d _ IH]. intros a -> Ha.
  destruct (lookup_lt_is_Some_2 _ _ Ha) as [nd Hnd].
  destruct (len_loop_stack h (reverse (dict_values (children nd))))
    as (f & m & Hsub).
  { intros c [k Hk]%elem_of_reverse%elem_dict_values.
    assert (He : edge h a k c) by (by exists nd).
    destruct (tree_edge _ _ Ht _ _ _ He) as [[_ ->]|(Hlt & Hki & _)].
    { by destruct (Hnoloop _ _ He). }
    apply keyitem_at_lt in Hki.
    apply (IH (length h - c)); [lia|done|done]. }
  exists (S f), (m + match value nd with Some _ => 1 | None => 0 end).
  intros fuel rest i. simpl (S f + fuel).
  rewrite len_loop_cons. unfold deref. rewrite Hnd. simpl.
  rewrite Hsub. f_equal. destruct (value nd); lia.
Qed.

Lemma len_terminates pth t :
  tree pth (nodes t) -> fresh (nodes t) -> ∃ fuel m, len fuel t = Ok m.
Proof.
  intros Ht Hf. destruct (tree_root _ _ Ht) as (r & Hr & _).
  destruct (len_loop_subtree pth _ Ht Hf root) as (f & m & Hsub).
  { by eapply lookup_lt_Some. }
  exists (f + 1), (m + 0). unfold len. by rewrite Hsub.
Qed.

(** A node that is its own child is pushed again each time it is
    popped: the stack never empties. *)
Lemma len_loop_self_child h a nd :
  h !! a = Some nd -> a ∈ dict_values (children nd) ->
  ∀ fuel (stack : list addr) i m,
    a ∈ stack -> len_loop fuel h stack i ≠ Ok m.
Proof.
  intros Hnd Hself. induction fuel as [|fuel IH]; intros stack i m Hin;
    [done|].
  destruct stack as [|node stack]; [by apply elem_of_nil in Hin|].
  rewrite len_loop_cons. unfold deref.
  destruct (h !! node) as [nd'|] eqn:Hnode; [|done]. simpl.
  apply IH. apply elem_of_app.
  apply elem_of_cons in Hin as [->|Hin]; [|by right].
  left. simplify_eq. by apply elem_of_reverse.
Qed.

(** ** What [__len__] counts on a trie under construction *)

Lemma dict_get_None_keys d k : dict_get d k = None -> k ∉ d.*1.
Proof.
  induction d as [|[k' c'] d IH]; simpl.
  - by intros _ ?%elem_of_nil.
  - case_decide; [done|]. intros Hd [?|?]%elem_of_cons; [done|].
    by apply IH.
Qed.

Lemma add_walk_keys s :
  ∀ h node, keys_nodup h -> keys_nodup (add_walk h node s).1.
Proof.
  induction s as [|k s IH]; intros h node Hk; [done|].
  simpl. destruct (h !! node) as [nd|] eqn:Hnd; [|done].
  destruct (dict_get (children nd) k) as [c|] eqn:Hc; [by apply IH|].
  apply IH. intros p n. rewrite lookup_alloc, dict_set_absent by done.
  case_decide; [by intros [= <-]; constructor|].
  case_decide; [|by apply Hk].
  subst p. rewrite Hnd. simpl. intros [= <-]. simpl.
  rewrite fmap_app. apply NoDup_app. split_and!.
  - by eapply Hk.
  - intros x Hx ->%list_elem_of_singleton.
    by apply dict_get_None_keys in Hc.
  - apply NoDup_singleton.
Qed.

Lemma build_keys range cont ops : keys_nodup (nodes (build range cont ops)).
Proof.
  induction ops as [|[s v] ops IH] using rev_ind.
  - intros [|p] n; simpl; [|done]. intros [= <-]. constructor.
  - rewrite build_snoc. unfold add. destruct s as [|k s]; [done|].
    pose proof (add_walk_keys (k :: s) _ root IH) as Hw.
    destruct (add_walk _ root (k :: s)) as [h' a]. simpl in *.
    intros p n. rewrite lookup_set_value.
    case_decide; [|by apply Hw].
    destruct (h' !! p) as [n'|] eqn:Hn'; [|done]. simpl.
    intros [= <-]. simpl. by eapply Hw.
Qed.

Lemma valued_app h (l1 l2 : list addr) :
  valued h (l1 ++ l2) = valued h l1 + valued h l2.
Proof. unfold valued. by rewrite filter_app, length_app. Qed.

Lemma valued_cons h a nd (l : list addr) :
  h !! a = Some nd ->
  valued h (a :: l) =
    match value nd with Some _ => S (valued h l) | None => valued h l end.
Proof.
  intros Hnd. unfold valued. rewrite filter_cons.
  assert (Hv : value_at h a = value nd).
  { unfold value_at. by rewrite Hnd. }
  destruct (decide (is_Some (value_at h a))) as [Hs|Hs];
    rewrite Hv in Hs; destruct (value nd); simpl; try done;
    try (by destruct Hs); destruct Hs; eauto.
Qed.

(** The entries of one dict lead to disjoint parts of the tree. *)
Lemma siblings_disjoint pth h a k c k' c' x :
  tree pth h -> fresh h ->
  edge h a k c -> edge h a k' c' ->
  pth c `prefix_of` pth x -> pth c' `prefix_of` pth x -> k = k'.
Proof.
  intros Ht [_ Hnoloop] He He' [l1 H1] [l2 H2].
  destruct (tree_edge _ _ Ht _ _ _ He) as [[_ ->]|(_ & _ & Hc)];
    [by destruct (Hnoloop _ _ He)|].
  destruct (tree_edge _ _ Ht _ _ _ He') as [[_ ->]|(_ & _ & Hc')];
    [by destruct (Hnoloop _ _ He')|].
  rewrite Hc, <- app_assoc in H1. rewrite Hc', <- app_assoc in H2.
  rewrite H1 in H2. apply app_inv_head in H2. by simplify_eq/=.
Qed.

(** The traversal started at [a] pops the nodes of a list [vis]
    without repetition, all of them below [a], closed under child
    entries, and adds to the count those that hold a value. *)
Lemma len_loop_entries pth h a (es : list (Item * addr)) :
  tree pth h -> fresh h ->
  NoDup es.*1 ->
  (∀ k c, (k, c) ∈ es -> edge h a k c ∧
     ∃ f vis,
       (∀ fuel (rest : list addr) i,
          len_loop (f + fuel) h (c :: rest) i
          = len_loop fuel h rest (valued h vis + i)) ∧
       NoDup vis ∧
       (∀ x, x ∈ vis -> x < length h ∧ pth c `prefix_of` pth x) ∧
       c ∈ vis ∧
       (∀ x k' c', x ∈ vis -> edge h x k' c' -> c' ∈ vis)) ->
  ∃ f vis,
    (∀ fuel (rest : list addr) i,
       len_loop (f + fuel) h (es.*2 ++ rest) i
       = len_loop fuel h rest (valued h vis + i)) ∧
    NoDup vis ∧
    (∀ x, x ∈ vis ->
       ∃ k c, (k, c) ∈ es ∧ x < length h ∧ pth c `prefix_of` pth x) ∧
    (∀ k c, (k, c) ∈ es -> c ∈ vis) ∧
    (∀ x k' c', x ∈ vis -> edge h x k' c' -> c' ∈ vis).
Proof.
  intros Ht Hf. induction es as [|[k c] es IH]; intros Hnd Hes.
  - exists 0, []. split_and!; try done.
    + constructor.
    + by intros x ?%elem_of_nil.
    + by intros k c ?%elem_of_nil.
    + by intros x k' c' ?%elem_of_nil.
  - simpl in Hnd. apply NoDup_cons in Hnd as [Hk Hnd].
    destruct (Hes k c) as (He & f1 & vis1 & Hrun1 & Hnd1 & Hin1 & Hc1 & Hcl1);
      [apply elem_of_cons; by left|].
    destruct (IH Hnd) as (f2 & vis2 & Hrun2 & Hnd2 & Hin2 & Hc2 & Hcl2).
    { intros k' c' Hin. apply Hes. apply elem_of_cons. by right. }
    exists (f1 + f2), (vis1 ++ vis2). split_and!.
    + intros fuel rest i. simpl. rewrite <- Nat.add_assoc, Hrun1, Hrun2.
      rewrite valued_app. f_equal. lia.
    + apply NoDup_app. split_and!; [done| |done].
      intros x Hx1 Hx2.
      destruct (Hin1 x Hx1) as [_ Hp1].
      destruct (Hin2 x Hx2) as (k' & c' & Hin' & _ & Hp2).
      destruct (Hes k' c') as [He' _]; [apply elem_of_cons; by right|].
      assert (k = k') as -> by (by eapply siblings_disjoint).
      apply Hk. apply list_elem_of_fmap. by exists (k', c').
    + intros x [Hx|Hx]%elem_of_app.
      * destruct (Hin1 x Hx). exists k, c. split_and!; try done.
        apply elem_of_cons. by left.
      * destruct (Hin2 x Hx) as (k' & c' & ? & ? & ?).
        exists k', c'. split_and!; try done. apply elem_of_cons. by right.
    + intros k' c' [?|?]%elem_of_cons; apply elem_of_app.
      * simplify_eq. by left.
      * right. eauto.
    + intros x k' c' [Hx|Hx]%elem_of_app He'; apply elem_of_app.
      * left. eauto.
      * right. eauto.
Qed.

Lemma len_loop_visit pth h :
  tree pth h -> fresh h -> keys_nodup h ->
  ∀ a, a < length h ->
    ∃ f vis,
      (∀ fuel (rest : list addr) i,
         len_loop (f + fuel) h (a :: rest) i
         = len_loop fuel h rest (valued h vis + i)) ∧
      NoDup vis ∧
      (∀ x, x ∈ vis -> x < length h ∧ pth a `prefix_of` pth x) ∧
      a ∈ vis ∧
      (∀ x k' c', x ∈ vis -> edge h x k' c' -> c' ∈ vis).
Proof.
  intros Ht Hf Hkeys a.
  remember (length h - a) as m eqn:Hm. revert a Hm.
  induction (lt_wf m) as [m _ IH]. intros a -> Ha.
  destruct (lookup_lt_is_Some_2 _ _ Ha) as [nd Hnd].
  assert (Hedge : ∀ k c, edge h a k c -> a < c ∧ c < length h ∧
                                         pth c = pth a ++ [k]).
  { intros k c He. destruct (tree_edge _ _ Ht _ _ _ He)
      as [[_ ->]|(? & Hki & ?)]; [by destruct (proj2 Hf _ _ He)|].
    split_and!; try done. by eapply keyitem_at_lt. }
  destruct (len_loop_entries pth h a (reverse (children nd)) Ht Hf)
    as (f & vis & Hrun & Hndv & Hin & Hch & Hcl).
  { rewrite fmap_reverse, reverse_Permutation. by eapply Hkeys. }
  { intros k c Hin. rewrite elem_of_reverse in Hin.
    assert (He : edge h a k c) by (by exists nd).
    split; [done|]. destruct (Hedge _ _ He) as (? & ? & _).
    apply (IH (length h - c)); [lia|done|done]. }
  exists (S f), (a :: vis). split_and!.
  - intros fuel rest i. simpl (S f + fuel).
    rewrite len_loop_cons. unfold deref. rewrite Hnd. simpl.
    unfold dict_values. rewrite <- fmap_reverse, Hrun.
    rewrite (valued_cons h a nd) by done.
    f_equal. destruct (value nd); lia.
  - apply NoDup_cons. split; [|done]. intros Hx.
    destruct (Hin a Hx) as (k & c & Hkc & _ & [l Hl]).
    rewrite elem_of_reverse in Hkc.
    destruct (Hedge k c) as (_ & _ & Hpc); [by exists nd|].
    rewrite Hpc in Hl. apply (f_equal length) in Hl.
    rewrite !length_app in Hl. simpl in Hl. lia.
  - intros x [->|Hx]%elem_of_cons; [by split|].
    destruct (Hin x Hx) as (k & c & Hkc & ? & [l Hl]).
    rewrite elem_of_reverse in Hkc.
    destruct (Hedge k c) as (_ & _ & Hpc); [by exists nd|].
    split; [done|]. exists ([k] ++ l). by rewrite Hl, Hpc, <- app_assoc.
  - apply elem_of_cons. by left.
  - intros x k' c' [->|Hx]%elem_of_cons He; apply elem_of_cons; right.
    + destruct He as (n' & Hn' & Hkc). simplify_eq.
      apply (Hch k'). by rewrite elem_of_reverse.
    + eauto.
Qed.

(** On a trie under construction [__len__] returns, and what it
    returns is the number of nodes of the store that hold a value. *)
Lemma len_counts range cont ops :
  let t := build range cont ops in
  ∃ fuel, len fuel t = Ok (valued (nodes t) (seq 0 (length (nodes t)))).
Proof.
  intros t. destruct (build_tree range cont ops) as (pth & Ht & Hf).
  fold t in Ht, Hf.
  destruct (tree_root _ _ Ht) as (r & Hr & _).
  destruct (len_loop_visit pth _ Ht Hf (build_keys range cont ops) root)
    as (f & vis & Hrun & Hnd & Hin & Hroot & Hcl).
  { by eapply lookup_lt_Some. }
  assert (Hall : ∀ x, x < length (nodes t) -> x ∈ vis).
  { intros x. induction (lt_wf x) as [x _ IH]. intros Hx.
    destruct (decide (x = 0)) as [->|Hne]; [done|].
    destruct (tree_parent _ _ Ht x) as (p & k & Hch%child_edge); [lia|].
    destruct (tree_edge _ _ Ht _ _ _ Hch) as [[_ ?]|(Hlt & _)]; [done|].
    apply (Hcl p k); [|done]. apply IH; [done|lia]. }
  assert (Hperm : vis ≡ₚ seq 0 (length (nodes t))).
  { apply NoDup_Permutation; [done|apply NoDup_seq|].
    intros x. rewrite elem_of_seq. split.
    - intros Hx. destruct (Hin x Hx). lia.
    - intros [_ Hx]. by apply Hall. }
  exists (f + 1). unfold len. rewrite Hrun. simpl.
  unfold valued. by rewrite Hperm, Nat.add_0_r.
Qed.

(** ** The properties of the specification *)

(** The node and value of a sequence added and not added again. *)
Lemma build_stored range cont ops s (v : V) more :
  s ≠ [] -> Forall (fun op => op.1 ≠ s) more ->
  let t := build range cont (ops ++ (s, v) :: more) in
  ∃ a, get_node t s = Some a ∧ value_at (nodes t) a = Some v.
Proof.
  intros Hs Hmore t. unfold t.
  rewrite (cons_middle (s, v)), app_assoc, build_app, build_snoc.
  destruct (build_tree range cont ops) as (pth & Ht & Hf).
  destruct (add_spec pth _ s v Ht Hf Hs)
    as (pth1 & a & Ht1 & Hf1 & Hget & Hval & _).
  destruct (stored_after_adds pth1 _ s a v more Ht1 Hf1 Hget Hval Hmore)
    as (_ & _ & _ & ? & ?).
  by exists a.
Qed.

(** C6. Round trip: after [add(s, v)] for a non-empty [s], and
    whatever other sequences are added before and after it, [get(s)]
    returns [v], with or without a default. *)
Theorem get_after_add range cont ops s (v : V) more dflt :
  s ≠ [] -> Forall (fun op => op.1 ≠ s) more ->
  get (build range cont (ops ++ (s, v) :: more)) s dflt = Ok v.
Proof.
  intros Hs Hmore.
  destruct (build_stored range cont ops s v more Hs Hmore) as (a & Hg & Hv).
  by eapply get_stored.
Qed.

(** C7. Overwrite: a second [add] of the same non-empty sequence
    leaves [__len__] at what it was after the first one (and
    [__len__] does return a count there), and [get] returns the
    second value. *)
Theorem add_overwrite range cont ops s (v1 v2 : V) :
  s ≠ [] ->
  let t1 := add (build range cont ops) s v1 in
  let t2 := add t1 s v2 in
  (∃ fuel m, len fuel t1 = Ok m ∧ len fuel t2 = Ok m) ∧
  (∀ fuel, len fuel t2 = len fuel t1) ∧
  get t2 s None = Ok v2.
Proof.
  intros Hs t1 t2.
  destruct (build_tree range cont ops) as (pth & Ht & Hf).
  destruct (add_spec pth _ s v1 Ht Hf Hs)
    as (pth1 & a & Ht1 & Hf1 & Hget1 & Hval1 & _). fold t1 in Ht1, Hf1, Hget1, Hval1.
  destruct (add_spec pth1 t1 s v2 Ht1 Hf1 Hs)
    as (pth2 & b & Ht2 & Hf2 & Hget2 & Hval2 & _). fold t2 in Ht2, Hf2, Hget2, Hval2.
  assert (Hnodes : nodes t2 = set_value (nodes t1) a (Some v2)).
  { unfold t2, add. destruct s as [|k s]; [done|].
    by rewrite (add_walk_present _ _ _ _ Hget1). }
  assert (Hlen : ∀ fuel, len fuel t2 = len fuel t1).
  { intros fuel. unfold len. symmetry. apply len_loop_ext.
    intros x. rewrite Hnodes, lookup_set_value.
    destruct (nodes t1 !! x) as [n1|] eqn:Hn1; case_decide; simpl; try done.
    subst x. split; [done|].
    unfold value_at in Hval1. rewrite Hn1 in Hval1. simpl in Hval1.
    rewrite Hval1. split; eauto. }
  split_and!.
  - destruct (len_terminates pth1 t1 Ht1 Hf1) as (fuel & m & Hm).
    exists fuel, m. by rewrite Hlen.
  - done.
  - by eapply get_stored.
Qed.

(** C8. Prefix monotonicity, on any store: when [match(s)] is false,
    so is [match(s + x)]. *)
Theorem match_prefix_monotone t s x :
  match_ t s = false -> match_ t (s ++ x) = false.
Proof.
  unfold match_, get_node. rewrite !bool_decide_eq_false.
  rewrite get_node_from_app.
  destruct (get_node_from (nodes t) root s); simpl.
  - intros []. eauto.
  - done.
Qed.

(** C9. A sequence that is not stored -- no node is reached, or the
    node reached holds no value -- makes [get] raise [KeyError]
    without a default and return the default otherwise. *)
Theorem get_missing t s :
  get_node t s = None ∨
    (∃ a, get_node t s = Some a ∧ value_at (nodes t) a = None) ->
  get t s None = Raise KeyError ∧ ∀ dflt : V, get t s (Some dflt) = Ok dflt.
Proof.
  unfold get. intros [->|(a & -> & ->)]; by split.
Qed.

(** The root after [make_automaton]: a child for every item of the
    universe, itself where the trie had none, and still no value. *)
Lemma root_child_after range cont ops fuel t' i :
  make_automaton fuel (build range cont ops) = Ok t' ->
  i < range ->
  value_at (nodes t') root = None ∧
  ∃ c, child (nodes t') root (cont i) c ∧
       (get_node (build range cont ops) [cont i] = None -> c = root).
Proof.
  intros Hmake Hi.
  destruct (make_automaton_spec range cont ops fuel t' Hmake)
    as (pth & Ht & Hf & Haut & _ & _ & _ & Hval & _ & Hroot).
  split.
  - rewrite Hval. destruct (tree_root _ _ Ht) as (r & Hr & _ & Hv).
    unfold value_at. rewrite Hr. done.
  - destruct (aut_root_total _ _ _ _ Haut i Hi) as (c & Hc).
    exists c. split; [done|]. intros Hno.
    destruct (Hroot _ _ Hc) as [Hold|[-> _]]; [|done].
    unfold get_node in Hno.
    rewrite (get_node_from_child _ _ _ c) in Hno by done. done.
Qed.

(** C10. After [make_automaton] the root has a child for every item
    of the universe, so [match] is true on it; where no stored
    sequence begins with the item that child is the root itself, and
    [exists] stays false. *)
Theorem root_total_after_make_automaton range cont ops fuel t' i :
  make_automaton fuel (build range cont ops) = Ok t' ->
  i < range ->
  match_ t' [cont i] = true ∧
  (match_ (build range cont ops) [cont i] = false ->
   get_node t' [cont i] = Some root ∧ exists_ t' [cont i] = false).
Proof.
  intros Hmake Hi.
  destruct (root_child_after range cont ops fuel t' i Hmake Hi)
    as (Hv & c & Hc & Hself).
  assert (Hget : get_node t' [cont i] = Some c).
  { unfold get_node. by rewrite (get_node_from_child _ _ _ c). }
  split.
  - unfold match_. rewrite Hget. by apply bool_decide_eq_true_2.
  - unfold match_ at 1. rewrite bool_decide_eq_false. intros Hno.
    assert (c = root) as ->.
    { apply Hself. destruct (get_node _ [cont i]) eqn:Hg; [|done].
      destruct Hno. eauto. }
    split; [done|]. unfold exists_. rewrite Hget, Hv.
    apply bool_decide_eq_false_2. by intros [? ?].
Qed.

(** Once the root is its own child, [__len__] does not return. *)
Lemma len_after_make_automaton range cont ops fuel t' i :
  make_automaton fuel (build range cont ops) = Ok t' ->
  i < range ->
  match_ (build range cont ops) [cont i] = false ->
  ∀ fuel' m, len fuel' t' ≠ Ok m.
Proof.
  intros Hmake Hi Hno fuel' m.
  destruct (root_child_after range cont ops fuel t' i Hmake Hi)
    as (_ & c & Hc & Hself).
  assert (c = root) as ->.
  { apply Hself. unfold match_ in Hno. rewrite bool_decide_eq_false in Hno.
    destruct (get_node _ [cont i]) eqn:Hg; [|done]. destruct Hno. eauto. }
  destruct Hc as (r & Hr & Hc).
  eapply (len_loop_self_child (nodes t') root r); [done| |].
  - apply elem_dict_values. exists (cont i). by apply dict_get_elem.
  - apply elem_of_cons. by left.
Qed.

(** C1. A non-empty sequence added with value [v] (and not added
    again), all of whose items are in the universe, is found by
    [search] in itself: an entry is yielded for its last index, and
    the values of that entry contain [v]. *)
Theorem search_finds_inserted range cont ops s (v : V) more fuel t' :
  s ≠ [] -> Forall (fun op => op.1 ≠ s) more ->
  forallb (in_universe range cont) s = true ->
  make_automaton fuel (build range cont (ops ++ (s, v) :: more)) = Ok t' ->
  ∃ fuel' out vals,
    search fuel' t' s = Ok out ∧ (length s - 1, vals) ∈ out ∧ v ∈ vals.
Proof.
  intros Hs Hmore HU Hmake.
  destruct (build_stored range cont ops s v more Hs Hmore) as (a & Hg & Hv).
  destruct (make_automaton_spec range cont _ fuel t' Hmake)
    as (pth & Ht & Hf & Haut & _ & _ & _ & Hval & Hchild & _).
  pose proof (aut_tree _ _ _ _ Haut) as Ht'.
  destruct (tree_root _ _ Ht') as (r & Hr & _).
  destruct (search_loop_path range cont pth (nodes t') Haut
              (S (length (nodes t'))) s HU (Nat.lt_succ_diag_r _) root 0 a)
    as (out & Hloop & Hout).
  - by eapply lookup_lt_Some.
  - by apply (universe_path_root range cont pth (nodes t')).
  - eapply get_node_from_ext; [exact Hchild|exact Hg].
  - destruct (Hout v Hs) as (vals & Hin & Hvin); [by rewrite Hval|].
    exists (S (length (nodes t'))), out, vals. split_and!; try done.
    unfold search. by rewrite Hloop.
Qed.

(** C4. After [make_automaton], on input over the universe: at every
    position the inner loop of [search] ends in a state that has a
    child for the item read, and [search] as a whole returns, with
    any fuel above the number of nodes. *)
Theorem search_total range cont ops fuel t' s fuel' :
  make_automaton fuel (build range cont ops) = Ok t' ->
  forallb (in_universe range cont) s = true ->
  length (nodes t') < fuel' ->
  (∀ pre k post, s = pre ++ k :: post ->
     ∃ state out st stn,
       search_loop fuel' (nodes t') root 0 pre = Ok (state, out) ∧
       follow_fail fuel' (nodes t') (Some state) (Some k) = Ok st ∧
       nodes t' !! st = Some stn ∧
       dict_mem (children stn) (Some k) = true) ∧
  ∃ out, search fuel' t' s = Ok out.
Proof.
  intros Hmake HU Hfuel.
  destruct (make_automaton_spec range cont _ fuel t' Hmake)
    as (pth & _ & _ & Haut & _).
  pose proof (aut_tree _ _ _ _ Haut) as Ht'.
  destruct (tree_root _ _ Ht') as (r & Hr & _).
  assert (Hrl : root < length (nodes t')) by (by eapply lookup_lt_Some).
  pose proof (universe_path_root range cont pth (nodes t') Haut) as HUr.
  split.
  - intros pre k post ->.
    rewrite forallb_app in HU. apply andb_true_iff in HU as [HUpre HUk].
    simpl in HUk. apply andb_true_iff in HUk as [HUk _].
    destruct (search_loop_total range cont pth (nodes t') Haut fuel' pre
                HUpre Hfuel root 0 Hrl HUr)
      as (state & out & Hloop & Hsl & HUs).
    destruct (search_step_total range cont pth (nodes t') Haut fuel' state k
                HUk Hsl HUs Hfuel)
      as (st & c & vals & Hff & (stn & Hstn & Hc) & _).
    exists state, out, st, stn. split_and!; try done.
    apply dict_mem_Some. eauto.
  - destruct (search_loop_total range cont pth (nodes t') Haut fuel' s
                HU Hfuel root 0 Hrl HUr) as (final & out & Hloop & _).
    exists out. unfold search. by rewrite Hloop.
Qed.

(** C3, as the code has it.  Before [make_automaton] no node has a
    fail link.  After it has returned, the root still has none (the
    walk of [search] along the fail links stops there), and every
    other node whose sequence lies in the universe has one. *)
Theorem fail_links_after_make_automaton range cont ops fuel t' :
  make_automaton fuel (build range cont ops) = Ok t' ->
  (∀ a, fail_at (nodes (build range cont ops)) a = None) ∧
  fail_at (nodes t') root = None ∧
  ∀ s a, s ≠ [] -> forallb (in_universe range cont) s = true ->
         get_node (build range cont ops) s = Some a ->
         is_Some (fail_at (nodes t') a).
Proof.
  intros Hmake.
  destruct (make_automaton_spec range cont _ fuel t' Hmake)
    as (pth & Ht & Hf & Haut & _ & _ & Hlen & _).
  split_and!.
  - apply Hf.
  - apply (aut_root_fail _ _ _ _ Haut).
  - intros s a Hs HU Hget.
    assert (Hpa : pth a = s).
    { rewrite (get_node_from_pth pth _ root s a Ht (proj2 Hf) Hget).
      by rewrite (tree_pth_root _ _ Ht). }
    destruct (tree_root _ _ Ht) as (r & Hr & _).
    apply (aut_linked _ _ _ _ Haut).
    + split.
      * destruct a; [|lia]. change 0 with root in Hpa.
        rewrite (tree_pth_root _ _ Ht) in Hpa. by subst s.
      * rewrite Hlen. eapply get_node_from_lt; [done| |exact Hget].
        by eapply lookup_lt_Some.
    + unfold universe_path. rewrite Hpa.
      apply Forall_forall. intros k Hk.
      rewrite forallb_forall in HU. apply HU. by apply list_elem_of_In.
Qed.

End Proofs.

(** * The default trie: bytes, [items_range = 256], [content = chr] *)

Lemma chr_names_once : NoDup (chr <$> seq 0 256).
Proof. apply (bool_decide_unpack _). vm_compute. exact I. Qed.

Lemma chr_universe (k : ascii) : in_universe 256 chr k = true.
Proof.
  apply in_universe_spec. exists (nat_of_ascii k). split.
  - apply nat_ascii_bounded.
  - apply ascii_nat_embedding.
Qed.

(** X17. With the defaults of [Trie.__init__] every item is in the
    universe, and [make_automaton] returns whatever was added. *)
Lemma make_automaton_default {V : Type} (ops : list (list ascii * V)) :
  ∃ fuel t', make_automaton fuel (build 256 chr ops) = Ok t'.
Proof.
  apply make_automaton_total; [apply chr_names_once|].
  apply Forall_forall. intros op _. apply forallb_forall.
  intros k _. apply chr_universe.
Qed.

(** * The examples of the specification *)

(** C2, as the code has it.  With ["he"], ["she"] and ["hers"] stored
    under [A], [B] and [C], [search("ushers")] yields two entries: at
    index 3, where ["she"] ends, the values [B] and [A] in that order;
    and at index 5, the final ['s'], where ["hers"] ends, the value
    [C]. *)
Theorem ushers_overlap {V : Type} (A B C : V) :
  search_after_compile 100 (ushers_trie A B C) (str "ushers")
  = Ok [(3, [B; A]); (5, [C])].
Proof. vm_compute. reflexivity. Qed.

(** C2, as stated, fails: there is an entry at the final ['s']. *)
Lemma ushers_final_s_entry :
  ¬ (∃ out,
       search_after_compile 100 (ushers_trie 1 2 3) (str "ushers") = Ok out ∧
       (3, [2; 1]) ∈ out ∧
       ∀ vals, (5, vals) ∉ out).
Proof.
  intros (out & Hout & _ & Hno). vm_compute in Hout.
  injection Hout as <-. apply (Hno [3]).
  apply elem_of_cons. right. apply elem_of_cons. by left.
Qed.

(** C3, as stated, fails: after [make_automaton] has returned, the
    root has no fail link. *)
Lemma root_fail_unset :
  make_automaton 100 (ushers_trie 1 2 3) = Ok ushers_automaton ∧
  ¬ (∀ a, a < length (nodes ushers_automaton) ->
          is_Some (fail_at (nodes ushers_automaton) a)).
Proof.
  split; [vm_compute; reflexivity|].
  intros Hall. destruct (Hall root) as [b Hb].
  - vm_compute. lia.
  - vm_compute in Hb. discriminate.
Qed.

(** A node below a root child whose item is outside the universe is
    not linked either: with the universe [{chr 0}], the node of ["a"]
    keeps no fail link. *)
Lemma off_universe_fail_unset :
  ∃ t', make_automaton 100 (build 1 chr [(str "a", 1)]) = Ok t' ∧
        get_node t' (str "a") = Some 1 ∧ fail_at (nodes t') 1 = None.
Proof. eexists. split_and!; vm_compute; reflexivity. Qed.

(** C5, on the code: [__len__] of a trie that holds ["a"] returns 1
    before [make_automaton], and after it never returns, whatever the
    fuel. *)
Theorem len_diverges_after_make_automaton :
  len 10 a_trie = Ok 1 ∧
  make_automaton 100 a_trie = Ok a_automaton ∧
  ∀ fuel m, len fuel a_automaton ≠ Ok m.
Proof.
  assert (Hmake : make_automaton 100 a_trie = Ok a_automaton)
    by (vm_compute; reflexivity).
  split; [vm_compute; reflexivity|]. split; [exact Hmake|].
  apply (len_after_make_automaton 256 chr [(str "a", 1)] 100 a_automaton 0
           Hmake); [lia|vm_compute; reflexivity].
Qed.

(** * Instances of the theorems on the tries of the examples *)

Lemma search_finds_inserted_witness :
  (str "she" ≠ [] ∧
   Forall (fun op : list ascii * nat => op.1 ≠ str "she") [(str "hers", 3)] ∧
   forallb (in_universe 256 chr) (str "she") = true ∧
   make_automaton 100
     (build 256 chr ([(str "he", 1)] ++ (str "she", 2) :: [(str "hers", 3)]))
   = Ok ushers_automaton) ∧
  ∃ fuel' out vals,
    search fuel' ushers_automaton (str "she") = Ok out ∧
    (length (str "she") - 1, vals) ∈ out ∧ 2 ∈ vals.
Proof.
  assert (H1 : str "she" ≠ []) by (vm_compute; discriminate).
  assert (H2 : Forall (fun op : list ascii * nat => op.1 ≠ str "she")
                 [(str "hers", 3)])
    by (repeat constructor; vm_compute; discriminate).
  assert (H3 : forallb (in_universe 256 chr) (str "she") = true)
    by (vm_compute; reflexivity).
  assert (H4 : make_automaton 100
     (build 256 chr ([(str "he", 1)] ++ (str "she", 2) :: [(str "hers", 3)]))
     = Ok ushers_automaton) by (vm_compute; reflexivity).
  split; [exact (conj H1 (conj H2 (conj H3 H4)))|].
  exact (search_finds_inserted 256 chr [(str "he", 1)] (str "she") 2
           [(str "hers", 3)] 100 ushers_automaton H1 H2 H3 H4).
Defined.

Lemma fail_links_after_make_automaton_witness :
  make_automaton 100 (build 256 chr
    [(str "he", 1); (str "she", 2); (str "hers", 3)]) = Ok ushers_automaton ∧
  (∀ a, fail_at (nodes (build 256 chr
     [(str "he", 1); (str "she", 2); (str "hers", 3)])) a = None) ∧
  fail_at (nodes ushers_automaton) root = None ∧
  ∀ s a, s ≠ [] -> forallb (in_universe 256 chr) s = true ->
         get_node (build 256 chr
           [(str "he", 1); (str "she", 2); (str "hers", 3)]) s = Some a ->
         is_Some (fail_at (nodes ushers_automaton) a).
Proof.
  assert (H1 : make_automaton 100 (build 256 chr
    [(str "he", 1); (str "she", 2); (str "hers", 3)]) = Ok ushers_automaton)
    by (vm_compute; reflexivity).
  split; [exact H1|].
  exact (fail_links_after_make_automaton 256 chr
           [(str "he", 1); (str "she", 2); (str "hers", 3)] 100
           ushers_automaton H1).
Defined.

Lemma search_total_witness :
  (make_automaton 100 (build 256 chr
     [(str "he", 1); (str "she", 2); (str "hers", 3)]) = Ok ushers_automaton ∧
   forallb (in_universe 256 chr) (str "ushers") = true ∧
   length (nodes ushers_automaton) < 9) ∧
  (∀ pre k post, str "ushers" = pre ++ k :: post ->
     ∃ state out st stn,
       search_loop 9 (nodes ushers_automaton) root 0 pre = Ok (state, out) ∧
       follow_fail 9 (nodes ushers_automaton) (Some state) (Some k) = Ok st ∧
       nodes ushers_automaton !! st = Some stn ∧
       dict_mem (children stn) (Some k) = true) ∧
  ∃ out, search 9 ushers_automaton (str "ushers") = Ok out.
Proof.
  assert (H1 : make_automaton 100 (build 256 chr
    [(str "he", 1); (str "she", 2); (str "hers", 3)]) = Ok ushers_automaton)
    by (vm_compute; reflexivity).
  assert (H2 : forallb (in_universe 256 chr) (str "ushers") = true)
    by (vm_compute; reflexivity).
  assert (H3 : length (nodes ushers_automaton) < 9) by (vm_compute; lia).
  split; [exact (conj H1 (conj H2 H3))|].
  exact (search_total 256 chr
           [(str "he", 1); (str "she", 2); (str "hers", 3)] 100
           ushers_automaton (str "ushers") 9 H1 H2 H3).
Defined.

Lemma get_after_add_witness :
  (str "she" ≠ [] ∧
   Forall (fun op : list ascii * nat => op.1 ≠ str "she") [(str "hers", 3)]) ∧
  get (build 256 chr ([(str "he", 1)] ++ (str "she", 2) :: [(str "hers", 3)]))
    (str "she") None = Ok 2.
Proof.
  assert (H1 : str "she" ≠ []) by (vm_compute; discriminate).
  assert (H2 : Forall (fun op : list ascii * nat => op.1 ≠ str "she")
                 [(str "hers", 3)])
    by (repeat constructor; vm_compute; discriminate).
  split; [exact (conj H1 H2)|].
  exact (get_after_add 256 chr [(str "he", 1)] (str "she") 2
           [(str "hers", 3)] None H1 H2).
Defined.

Lemma add_overwrite_witness :
  str "he" ≠ [] ∧
  let t1 := add (build 256 chr [(str "she", 2)]) (str "he") 1 in
  let t2 := add t1 (str "he") 7 in
  (∃ fuel m, len fuel t1 = Ok m ∧ len fuel t2 = Ok m) ∧
  (∀ fuel, len fuel t2 = len fuel t1) ∧
  get t2 (str "he") None = Ok 7.
Proof.
  assert (H1 : str "he" ≠ []) by (vm_compute; discriminate).
  split; [exact H1|].
  exact (add_overwrite 256 chr [(str "she", 2)] (str "he") 1 7 H1).
Defined.

Lemma match_prefix_monotone_witness :
  match_ (ushers_trie 1 2 3) (str "hi") = false ∧
  match_ (ushers_trie 1 2 3) (str "hi" ++ str "s") = false.
Proof.
  assert (H1 : match_ (ushers_trie 1 2 3) (str "hi") = false)
    by (vm_compute; reflexivity).
  split; [exact H1|].
  exact (match_prefix_monotone (ushers_trie 1 2 3) (str "hi") (str "s") H1).
Defined.

Lemma get_missing_witness :
  (get_node (ushers_trie 1 2 3) (str "h") = None ∨
   ∃ a, get_node (ushers_trie 1 2 3) (str "h") = Some a ∧
        value_at (nodes (ushers_trie 1 2 3)) a = None) ∧
  get (ushers_trie 1 2 3) (str "h") None = Raise KeyError ∧
  ∀ dflt, get (ushers_trie 1 2 3) (str "h") (Some dflt) = Ok dflt.
Proof.
  assert (H1 : get_node (ushers_trie 1 2 3) (str "h") = None ∨
    ∃ a, get_node (ushers_trie 1 2 3) (str "h") = Some a ∧
         value_at (nodes (ushers_trie 1 2 3)) a = None).
  { right. exists 1. split; vm_compute; reflexivity. }
  split; [exact H1|].
  exact (get_missing (ushers_trie 1 2 3) (str "h") H1).
Defined.

Lemma root_total_after_make_automaton_witness :
  (make_automaton 100 (build 256 chr
     [(str "he", 1); (str "she", 2); (str "hers", 3)]) = Ok ushers_automaton ∧
   120 < 256) ∧
  match_ ushers_automaton [chr 120] = true ∧
  (match_ (build 256 chr [(str "he", 1); (str "she", 2); (str "hers", 3)])
     [chr 120] = false ->
   get_node ushers_automaton [chr 120] = Some root ∧
   exists_ ushers_automaton [chr 120] = false).
Proof.
  assert (H1 : make_automaton 100 (build 256 chr
    [(str "he", 1); (str "she", 2); (str "hers", 3)]) = Ok ushers_automaton)
    by (vm_compute; reflexivity).
  assert (H2 : 120 < 256) by lia.
  split; [exact (conj H1 H2)|].
  exact (root_total_after_make_automaton 256 chr
           [(str "he", 1); (str "she", 2); (str "hers", 3)] 100
           ushers_automaton 120 H1 H2).
Defined.

(** * Further properties of the code *)

Section More.
Context {Item : Type} `{!EqDecision Item} {V : Type}.

Implicit Types (h : heap Item V) (t : Trie Item V) (n : TrieNode Item V).
Implicit Types (k : Item) (a b c p : addr).
Implicit Types (pth : addr -> list Item) (s : list Item).
Implicit Types (cont : nat -> Item) (ops more : list (list Item * V)).

(** ** [add], [get] and [match] together *)

(** Later [add] calls keep every path of the trie. *)
Lemma path_after_adds pth t s a more :
  tree pth (nodes t) -> fresh (nodes t) ->
  get_node t s = Some a ->
  get_node (foldl (fun t op => add t op.1 op.2) t more) s = Some a.
Proof.
  intros Ht Hf Hg.
  assert (Hall : ∃ pth', tree pth' (nodes (foldl (fun t op => add t op.1 op.2)
                                              t more)) ∧
            fresh (nodes (foldl (fun t op => add t op.1 op.2) t more)) ∧
            get_node (foldl (fun t op => add t op.1 op.2) t more) s = Some a);
    [|by destruct Hall as (_ & _ & _ & ?)].
  induction more as [|[s' v'] more IH] using rev_ind; [by exists pth|].
  destruct IH as (pth1 & Ht1 & Hf1 & Hg1).
  rewrite foldl_snoc. simpl.
  destruct s' as [|k s']; [by exists pth1|].
  destruct (add_spec pth1 _ (k :: s') v' Ht1 Hf1)
    as (pth' & b & Ht' & Hf' & _ & _ & _ & Hget); [done|].
  exists pth'. split_and!; [done|done|]. by apply Hget.
Qed.

(** X1. Once a sequence has been added, every prefix of it is matched,
    whatever is added before or after. *)
Theorem match_prefix_of_added range cont ops s (v : V) more (pre : list Item) :
  pre `prefix_of` s ->
  match_ (build range cont (ops ++ (s, v) :: more)) pre = true.
Proof.
  intros [r ->].
  rewrite (cons_middle (pre ++ r, v)), app_assoc, build_app, build_snoc.
  destruct (build_tree range cont ops) as (pth & Ht & Hf).
  set (t0 := build range cont ops) in *.
  assert (Hadd : ∃ pth1 a, tree pth1 (nodes (add t0 (pre ++ r) v)) ∧
                           fresh (nodes (add t0 (pre ++ r) v)) ∧
                           get_node (add t0 (pre ++ r) v) (pre ++ r) = Some a).
  { destruct (pre ++ r) as [|k s] eqn:Hs.
    - exists pth, root. by rewrite add_nil.
    - destruct (add_spec pth t0 (k :: s) v Ht Hf)
        as (pth1 & a & ? & ? & ? & _); [done|]. by exists pth1, a. }
  destruct Hadd as (pth1 & a & Ht1 & Hf1 & Hg1).
  pose proof (path_after_adds pth1 _ _ a more Ht1 Hf1 Hg1) as Hg.
  unfold match_. apply bool_decide_eq_true_2.
  unfold get_node in *. rewrite get_node_from_app in Hg.
  destruct (get_node_from _ root pre); [eauto|done].
Qed.

Lemma add_walk_old_edges s :
  ∀ h node h' a,
    add_walk h node s = (h', a) ->
    ∀ p k c, child h' p k c -> c < length h -> child h p k c.
Proof.
  induction s as [|k0 s IH]; intros h node h' a Hw p k c.
  - by simplify_eq/=.
  - simpl in Hw. destruct (h !! node) as [nd|] eqn:Hnd; [|by simplify_eq].
    destruct (dict_get (children nd) k0) as [c0|] eqn:Hc0; [by eapply IH|].
    intros Hch Hc.
    eapply IH in Hch; [|exact Hw|].
    2:{ rewrite length_app, length_set_children. simpl. lia. }
    destruct Hch as (m & Hm & Hk).
    rewrite lookup_alloc, dict_set_absent in Hm by done.
    case_decide; [by simplify_eq|].
    case_decide; [|by exists m].
    subst p. rewrite Hnd in Hm. simplify_eq/=.
    rewrite dict_get_app in Hk.
    destruct (dict_get (children nd) k) eqn:Hold.
    + simplify_eq. by exists nd.
    + simpl in Hk. case_decide; simplify_eq. lia.
Qed.

Lemma path_le pth h :
  tree pth h -> fresh h ->
  ∀ s p b, get_node_from h p s = Some b -> p ≤ b.
Proof.
  intros Ht Hf. induction s as [|k s IH]; intros p b.
  - intros [= ->]. lia.
  - intros (c & Hc%child_edge & Hs)%get_node_from_cons.
    apply IH in Hs.
    destruct (tree_edge _ _ Ht _ _ _ Hc) as [[_ ->]|(? & _)]; [|lia].
    by destruct (proj2 Hf _ _ Hc).
Qed.

Lemma path_of_old pth h h' :
  tree pth h' -> fresh h' ->
  (∀ p k c, child h' p k c -> c < length h -> child h p k c) ->
  ∀ s p b, get_node_from h' p s = Some b -> b < length h ->
           get_node_from h p s = Some b.
Proof.
  intros Ht Hf Hold. induction s as [|k s IH]; intros p b; [done|].
  intros (c & Hc & Hs)%get_node_from_cons Hb.
  pose proof (path_le pth h' Ht Hf _ _ _ Hs).
  rewrite (get_node_from_child h p k c); [by apply IH|].
  apply Hold; [done|lia].
Qed.

(** X2. [add(s, v)] changes what [get] returns for [s] only: every other
    sequence keeps its value, and a sequence that was missing stays
    missing (also when it is a prefix or an extension of [s]). *)
Theorem get_add_other range cont ops s (v : V) s' dflt :
  s' ≠ s ->
  get (add (build range cont ops) s v) s' dflt
  = get (build range cont ops) s' dflt.
Proof.
  intros Hne. set (t := build range cont ops).
  destruct s as [|k0 s0]; [done|]. remember (k0 :: s0) as s eqn:Hs.
  destruct (build_tree range cont ops) as (pth & Ht & Hf). fold t in Ht, Hf.
  destruct (tree_root _ _ Ht) as (r & Hr & _).
  assert (Hlt : root < length (nodes t)) by (by eapply lookup_lt_Some).
  destruct (add_walk (nodes t) root s) as [h' a] eqn:Hw.
  destruct (add_walk_spec _ _ _ _ _ _ Ht Hf Hlt Hw)
    as (pth' & Ht' & Hf' & (Hlen & Hp & Hc & Hv & Hn) & Hget).
  assert (Hnodes : nodes (add t s v) = set_value h' a (Some v)).
  { unfold add. destruct s; [done|]. by rewrite Hw. }
  assert (Hpath : ∀ x b, get_node_from h' root x = Some b -> pth' b = x).
  { intros x b Hx.
    rewrite (get_node_from_pth pth' h' root x b Ht' (proj2 Hf') Hx).
    by rewrite (tree_pth_root _ _ Ht'). }
  assert (Hsame : ∀ b, get_node_from h' root s' = Some b ->
            get_node (add t s v) s' = Some b ∧
            value_at (nodes (add t s v)) b = value_at h' b).
  { intros b Hb. split.
    - unfold get_node. rewrite Hnodes. eapply get_node_from_ext; [|done].
      intros ???. by apply child_set_value.
    - rewrite Hnodes, value_at_set_value. case_decide; [|done].
      subst b. destruct Hne. rewrite <- (Hpath _ _ Hb). by apply Hpath. }
  unfold get at 2. fold (get_node t s').
  destruct (get_node t s') as [b|] eqn:Hb.
  - assert (Hb' : get_node_from h' root s' = Some b).
    { eapply get_node_from_ext; [exact Hc|exact Hb]. }
    destruct (Hsame b Hb') as [Hg Hval]. unfold get. rewrite Hg, Hval.
    rewrite Hv; [done|]. by eapply get_node_from_lt.
  - unfold get. destruct (get_node (add t s v) s') as [b|] eqn:Hg; [|done].
    assert (Hb' : get_node_from h' root s' = Some b).
    { unfold get_node in Hg. rewrite Hnodes in Hg.
      eapply get_node_from_ext; [|exact Hg].
      intros ???. by apply child_set_value. }
    destruct (Hsame b Hb') as [_ ->].
    destruct (decide (b < length (nodes t))) as [Hbl|Hbl].
    + pose proof (path_of_old pth' (nodes t) h' Ht' Hf'
                    (add_walk_old_edges _ _ _ _ _ Hw) _ _ _ Hb' Hbl) as Hold.
      unfold get_node in Hb. congruence.
    + rewrite Hn; [done|lia].
Qed.

(** ** [get], [exists], [match] and [add] after [make_automaton] *)

(** X8. [make_automaton] keeps what is stored: a value that [get] returned
    before is returned after. *)
Theorem get_after_make_automaton range cont ops fuel t' s (v : V) dflt :
  make_automaton fuel (build range cont ops) = Ok t' ->
  get (build range cont ops) s None = Ok v ->
  get t' s dflt = Ok v.
Proof.
  intros Hmake Hget.
  destruct (make_automaton_spec range cont ops fuel t' Hmake)
    as (pth & _ & _ & _ & _ & _ & _ & Hval & Hchild & _).
  unfold get in Hget.
  destruct (get_node (build range cont ops) s) as [a|] eqn:Ha; [|done].
  destruct (value_at (nodes (build range cont ops)) a) as [w|] eqn:Hw;
    [|done].
  simplify_eq. apply (get_stored t' s a).
  - unfold get_node in *. eapply get_node_from_ext; [exact Hchild|exact Ha].
  - by rewrite Hval.
Qed.

(** X9. After [make_automaton] the root is its own child for an item of
    the universe that starts no stored sequence, so a lookup that
    begins with such an item goes on from the root as if the item were
    not there: [get], [exists] and [match] answer for the rest of the
    sequence. *)
Theorem lookup_skips_unused_item range cont ops fuel t' i s
    (dflt : option V) :
  make_automaton fuel (build range cont ops) = Ok t' ->
  i < range ->
  match_ (build range cont ops) [cont i] = false ->
  get t' (cont i :: s) dflt = get t' s dflt ∧
  exists_ t' (cont i :: s) = exists_ t' s ∧
  match_ t' (cont i :: s) = match_ t' s.
Proof.
  intros Hmake Hi Hno.
  destruct (root_child_after range cont ops fuel t' i Hmake Hi)
    as (_ & c & Hc & Hself).
  assert (c = root) as ->.
  { apply Hself. unfold match_ in Hno. rewrite bool_decide_eq_false in Hno.
    destruct (get_node _ [cont i]) eqn:Hg; [|done]. destruct Hno. eauto. }
  assert (Hg : get_node t' (cont i :: s) = get_node t' s).
  { unfold get_node. by rewrite (get_node_from_child _ _ _ root). }
  unfold get, exists_, match_. by rewrite Hg.
Qed.

(** X10. For the same reason an [add] made after [make_automaton] with
    such an item in front lands on the node of the rest of the
    sequence, and with that item alone it sets the value of the root
    itself. *)
Theorem add_after_make_automaton range cont ops fuel t' i :
  make_automaton fuel (build range cont ops) = Ok t' ->
  i < range ->
  match_ (build range cont ops) [cont i] = false ->
  (∀ s (v : V), s ≠ [] -> add t' (cont i :: s) v = add t' s v) ∧
  (∀ v : V, value_at (nodes (add t' [cont i] v)) root = Some v).
Proof.
  intros Hmake Hi Hno.
  destruct (root_child_after range cont ops fuel t' i Hmake Hi)
    as (_ & c & Hc & Hself).
  assert (c = root) as ->.
  { apply Hself. unfold match_ in Hno. rewrite bool_decide_eq_false in Hno.
    destruct (get_node _ [cont i]) eqn:Hg; [|done]. destruct Hno. eauto. }
  destruct Hc as (r & Hr & Hc).
  assert (Hw : ∀ s, add_walk (nodes t') root (cont i :: s)
                    = add_walk (nodes t') root s).
  { intros s. simpl. by rewrite Hr, Hc. }
  split.
  - intros s v Hs. unfold add. rewrite Hw. by destruct s.
  - intros v. unfold add. rewrite Hw. simpl.
    rewrite value_at_set_value, decide_True by done.
    rewrite decide_True; [done|]. by eapply lookup_lt_Some.
Qed.

(** ** [make_automaton]: when it returns, and when it cannot *)

(** X11. Under the contract -- every item of every stored sequence is in
    the universe, and [content] names each item once --
    [make_automaton] returns, and it leaves every node but the root
    with a fail link. *)
Theorem make_automaton_links_all range cont ops :
  NoDup (cont <$> seq 0 range) ->
  Forall (fun op => forallb (in_universe range cont) op.1 = true) ops ->
  ∃ fuel t',
    make_automaton fuel (build range cont ops) = Ok t' ∧
    fail_at (nodes t') root = None ∧
    ∀ a, 0 < a < length (nodes t') -> is_Some (fail_at (nodes t') a).
Proof.
  intros Hinj Hops.
  destruct (make_automaton_total range cont ops Hinj Hops)
    as (fuel & t' & Hmake).
  exists fuel, t'. split; [done|].
  destruct (make_automaton_spec range cont ops fuel t' Hmake)
    as (pth & Ht & Hf & Haut & _ & _ & Hlen & _).
  split; [apply (aut_root_fail _ _ _ _ Haut)|].
  pose proof (build_keys_in range cont ops Hops) as Hkeys.
  assert (HU : ∀ a, a < length (nodes (build range cont ops)) ->
                    universe_path range cont pth a).
  { intros a. induction (lt_wf a) as [a _ IH]. intros Ha.
    destruct (decide (a = 0)) as [->|Hne].
    - unfold universe_path. change 0 with root.
      rewrite (tree_pth_root _ _ Ht). constructor.
    - destruct (tree_parent _ _ Ht a) as (p & k & Hch%child_edge); [lia|].
      destruct (tree_edge _ _ Ht _ _ _ Hch) as [[_ ?]|(Hlt & _ & Hpa)];
        [done|].
      unfold universe_path. rewrite Hpa. apply Forall_app. split.
      + apply IH; lia.
      + apply Forall_singleton. by eapply Hkeys. }
  intros a Ha. apply (aut_linked _ _ _ _ Haut); [done|].
  apply HU. lia.
Qed.

Lemma root_loop_app cont (hq : heap Item V * list addr) l1 l2 :
  root_loop cont hq (l1 ++ l2) =
    root_loop cont hq l1 ≫= fun hq' => root_loop cont hq' l2.
Proof.
  revert hq. induction l1 as [|i l1 IH]; intros hq; [done|].
  simpl. destruct (root_step cont hq i) as [hq1| |]; simpl; [apply IH|done..].
Qed.

Lemma root_step_queue cont h0 r0 h q D loops j h1 q1 :
  h0 !! root = Some r0 ->
  root_closed cont h0 r0 h q D loops ->
  root_step cont (h, q) j = Ok (h1, q1) ->
  q1 = q ++ match dict_get (children r0 ++ loops) (cont j) with
            | Some x => [x]
            | None => []
            end.
Proof.
  intros Hr0 (Hh & _).
  assert (Hr : ∃ r, h !! root = Some r ∧ children r = children r0 ++ loops).
  { rewrite Hh, Hr0. by eexists. }
  destruct Hr as (r & Hr & Hcr).
  unfold root_step, deref. rewrite Hr. simpl. rewrite Hcr.
  destruct (dict_get (children r0 ++ loops) (cont j));
    intros [= <- <-]; by rewrite ?app_nil_r.
Qed.

Lemma root_loop_queue_mono cont l :
  ∀ (hq hq' : heap Item V * list addr),
    root_loop cont hq l = Ok hq' -> ∀ x, x ∈ hq.2 -> x ∈ hq'.2.
Proof.
  induction l as [|i l IH]; intros hq hq'.
  - by intros [= <-].
  - rewrite root_loop_cons. intros (hq1 & Hstep & Hloop)%bind_Ok x Hx.
    eapply IH; [done|]. destruct hq as [h q].
    unfold root_step in Hstep.
    apply bind_Ok in Hstep as (r & _ & Hstep).
    destruct (dict_get (children r) (cont i)); simplify_eq/=; [|done].
    apply elem_of_app. by left.
Qed.

(** A second index with the same item finds the entry the first one
    made, and queues the root. *)
Lemma root_loop_requeue cont h0 r0 (K : Item) l :
  h0 !! root = Some r0 ->
  (∀ k, dict_get (children r0) k ≠ Some root) ->
  dict_get (children r0) K = None ->
  ∀ h q D loops h' q',
    root_closed cont h0 r0 h q D loops ->
    (∃ i, i ∈ D ∧ cont i = K) ->
    (∃ j, j ∈ l ∧ cont j = K) ->
    root_loop cont (h, q) l = Ok (h', q') ->
    root ∈ q'.
Proof.
  intros Hr0 Hnl HK. induction l as [|j' l IH];
    intros h q D loops h' q' Hcl HD (j & Hj & Hcj).
  - by apply elem_of_nil in Hj.
  - rewrite root_loop_cons. intros ([h1 q1] & Hstep & Hloop)%bind_Ok.
    destruct (root_step_spec cont h0 r0 h q D loops j' Hr0 Hnl Hcl)
      as (h1' & q1' & loops1 & Hstep' & Hcl1).
    rewrite Hstep in Hstep'. injection Hstep' as <- <-.
    destruct (decide (cont j' = K)) as [HjK|HjK].
    + pose proof (root_step_queue _ _ _ _ _ _ _ _ _ _ Hr0 Hcl Hstep) as Hq1.
      destruct HD as (i & Hi & Hci).
      destruct Hcl as (_ & Hloops & _ & HD4 & _).
      destruct (HD4 i Hi) as (x & Hx & _).
      rewrite Hci, dict_get_app, HK in Hx.
      pose proof (dict_get_elem _ _ _ Hx) as Hin.
      rewrite Forall_forall in Hloops.
      destruct (Hloops _ Hin) as [Hroot _]. simpl in Hroot. subst x.
      rewrite HjK, dict_get_app, HK, Hx in Hq1.
      apply (root_loop_queue_mono cont l _ _ Hloop). simpl.
      rewrite Hq1. apply elem_of_app. right. by apply list_elem_of_singleton.
    + eapply (IH h1 q1 (D ++ [j']) loops1); [done| | |done].
      * destruct HD as (i & Hi & Hci). exists i. split; [|done].
        apply elem_of_app. by left.
      * exists j. split; [|done].
        apply elem_of_cons in Hj as [->|?]; [done|done].
Qed.

(** X12. With a [content] that gives one item for two indices, and no
    stored sequence beginning with that item, [make_automaton] never
    returns: step 1 makes the root its own fail link and queues it,
    and step 2 ends in an exception or goes round for ever. *)
Theorem make_automaton_repeated_item range cont ops i j fuel t' :
  i < j -> j < range -> cont i = cont j ->
  match_ (build range cont ops) [cont i] = false ->
  make_automaton fuel (build range cont ops) ≠ Ok t'.
Proof.
  intros Hij Hj Hc Hno. set (t := build range cont ops) in *.
  unfold make_automaton.
  assert (Hrange : items_range t = range) by apply build_items_range.
  assert (Hcont : content t = cont) by apply build_content.
  rewrite Hrange, Hcont.
  destruct (build_tree range cont ops) as (pth & Ht & Hf). fold t in Ht, Hf.
  destruct (tree_root _ _ Ht) as (r0 & Hr0 & _).
  assert (Hnl : ∀ k, dict_get (children r0) k ≠ Some root).
  { intros k Hk. apply (proj2 Hf root k). exists r0.
    split; [done|]. by apply dict_get_elem. }
  assert (HK : dict_get (children r0) (cont i) = None).
  { unfold match_, get_node in Hno. rewrite bool_decide_eq_false in Hno.
    simpl in Hno. rewrite Hr0 in Hno.
    destruct (dict_get (children r0) (cont i)); [|done].
    destruct Hno. eauto. }
  destruct (root_loop_spec cont (nodes t) r0 (seq 0 range) Hr0 Hnl
              (nodes t) [] [] [] (root_closed_init cont _ _ Hf Hr0))
    as (h1 & q1 & loops & Hloop & Hclosed).
  rewrite Hloop. simpl.
  intros (h' & Hbfs & _)%bind_Ok.
  assert (Hin : root ∈ q1).
  { replace range with (j + (range - j)) in Hloop by lia.
    rewrite seq_app, root_loop_app in Hloop. simpl in Hloop.
    destruct (root_loop_spec cont (nodes t) r0 (seq 0 j) Hr0 Hnl
                (nodes t) [] [] [] (root_closed_init cont _ _ Hf Hr0))
      as (h2 & q2 & loops2 & Hloop2 & Hclosed2).
    rewrite Hloop2 in Hloop. simpl in Hloop.
    eapply (root_loop_requeue cont (nodes t) r0 (cont i) _ Hr0 Hnl HK
              h2 q2 _ loops2 h1 q1 Hclosed2); [| |exact Hloop].
    - exists i. split; [|done]. simpl. apply elem_of_seq. lia.
    - exists j. split; [|done]. apply elem_of_seq. lia. }
  destruct (root_closed_facts cont pth _ _ _ _ _ _ Ht Hf Hr0 Hclosed)
    as (Ht1 & _ & _ & _ & _ & _ & Hq1 & _).
  destruct (Hq1 _ Hin) as (Hfr & k & Hk%child_edge).
  eapply (bfs_stuck pth fuel h1 q1 h'); eauto.
Qed.

(** ** [search] before [make_automaton] *)

Lemma search_loop_fresh pth h fuel :
  tree pth h -> fresh h -> 2 ≤ fuel ->
  ∀ s a idx, a < length h ->
    match get_node_from h a s with
    | Some b =>
        ∃ out, search_loop fuel h a idx s = Ok (b, out) ∧
          ∀ i vals, (i, vals) ∈ out <->
            ∃ m (v : V) b', i = idx + m ∧ m < length s ∧
              get_node_from h a (take (S m) s) = Some b' ∧
              value_at h b' = Some v ∧ vals = [v]
    | None => search_loop fuel h a idx s = Raise AttributeError
    end.
Proof.
  intros Ht Hf Hfuel. destruct fuel as [|[|fuel]]; [lia|lia|].
  induction s as [|k s IH]; intros a idx Ha.
  - simpl. exists []. split; [done|]. intros i vals. split.
    + by intros ?%elem_of_nil.
    + intros (m & _ & _ & _ & Hm & _). simpl in Hm. lia.
  - destruct (lookup_lt_is_Some_2 _ _ Ha) as [nd Hnd].
    assert (Hfa : fail nd = None).
    { pose proof (proj1 Hf a) as Hfa. unfold fail_at in Hfa.
      by rewrite Hnd in Hfa. }
    rewrite search_loop_cons.
    cbn [get_node_from]. rewrite Hnd.
    destruct (dict_get (children nd) k) as [c|] eqn:Hc.
    2:{ unfold search_step. simpl. unfold deref. rewrite Hnd. simpl.
        rewrite bool_decide_eq_false_2 by (rewrite Hc; by intros [? ?]).
        by rewrite Hfa. }
    assert (Hcl : c < length h).
    { eapply tree_edge_lt; [done|]. exists nd. split; [done|].
      by apply dict_get_elem. }
    destruct (lookup_lt_is_Some_2 _ _ Hcl) as [cn Hcn].
    assert (Hfc : fail cn = None).
    { pose proof (proj1 Hf c) as Hfc. unfold fail_at in Hfc.
      by rewrite Hcn in Hfc. }
    assert (Hstep : search_step (S (S fuel)) h a k
      = Ok (c, match value cn with Some v => [v] | None => [] end)).
    { unfold search_step. simpl. unfold deref. rewrite Hnd. simpl.
      rewrite bool_decide_eq_true_2 by (by rewrite Hc).
      simpl. rewrite Hnd. simpl. rewrite Hc. simpl. rewrite Hcn. simpl.
      rewrite Hfc. by destruct (value cn). }
    rewrite Hstep. clear Hstep. simpl.
    specialize (IH c (S idx) Hcl).
    destruct (get_node_from h c s) as [b|] eqn:Hb.
    2:{ by rewrite IH. }
    destruct IH as (out & -> & Hout). simpl.
    eexists. split; [done|]. intros i vals.
    assert (Hhd : ∀ m b', get_node_from h a (take (S m) (k :: s)) = Some b'
                  <-> get_node_from h c (take m s) = Some b').
    { intros m b'. simpl. by rewrite Hnd, Hc. }
    assert (Hmain : (i, vals) ∈ out ∨
              (∃ v, value cn = Some v ∧ i = idx ∧ vals = [v]) <->
            ∃ m (v : V) b', i = idx + m ∧ m < length (k :: s) ∧
              get_node_from h a (take (S m) (k :: s)) = Some b' ∧
              value_at h b' = Some v ∧ vals = [v]).
    { split.
      - intros [Hin|(v & Hv & -> & ->)].
        + apply Hout in Hin as (m & v & b' & -> & Hm & Hg & Hv & ->).
          exists (S m), v, b'.
          split_and!; [lia|simpl; lia|by apply Hhd|done|done].
        + exists 0, v, c. split_and!; [lia|simpl; lia| | |done].
          * apply Hhd. by destruct s.
          * unfold value_at. by rewrite Hcn.
      - intros (m & v & b' & -> & Hm & Hg & Hv & ->).
        apply Hhd in Hg. destruct m as [|m].
        + right. exists v. rewrite take_0 in Hg. simplify_eq/=.
          unfold value_at in Hv. rewrite Hcn in Hv. simpl in Hv.
          split_and!; [done|lia|done].
        + left. apply Hout. exists m, v, b'.
          split_and!; [lia|simpl in Hm; lia|done|done|done]. }
    rewrite <- Hmain. destruct (value cn) as [v|].
    + rewrite elem_of_cons. split.
      * intros [[= -> ->]|?]; [right; by exists v|by left].
      * intros [?|(v' & [= <-] & -> & ->)]; [by right|by left].
    + split; [by left|]. by intros [?|(v' & ? & _)].
Qed.

(** X14. On a trie that was not compiled, [search] follows the input down
    from the root and yields, at each position where the input read
    so far is a stored sequence, the value of that sequence alone; at
    the first item that has no child it raises [AttributeError],
    reading [children] from the [NIL] fail link. *)
Theorem search_before_make_automaton range cont ops s fuel :
  2 ≤ fuel ->
  let t := build range cont ops in
  (match_ t s = true ->
   ∃ out, search fuel t s = Ok out ∧
     ∀ i vals, (i, vals) ∈ out <->
       i < length s ∧
       ∃ v : V, get t (take (S i) s) None = Ok v ∧ vals = [v]) ∧
  (match_ t s = false -> search fuel t s = Raise AttributeError).
Proof.
  intros Hfuel t.
  destruct (build_tree range cont ops) as (pth & Ht & Hf). fold t in Ht, Hf.
  destruct (tree_root _ _ Ht) as (r & Hr & _).
  assert (Hlt : root < length (nodes t)) by (by eapply lookup_lt_Some).
  pose proof (search_loop_fresh pth (nodes t) fuel Ht Hf Hfuel s root 0 Hlt)
    as Hloop.
  unfold match_, get_node. split.
  - intros [b Hb]%bool_decide_eq_true. rewrite Hb in Hloop.
    destruct Hloop as (out & Hrun & Hout).
    exists out. unfold search. rewrite Hrun. split; [done|].
    intros i vals. rewrite Hout. split.
    + intros (m & v & b' & -> & Hm & Hg & Hv & ->). split; [lia|].
      exists v. split; [|done]. by apply (get_stored t _ b').
    + intros (Hi & v & Hg & ->). unfold get in Hg.
      destruct (get_node t (take (S i) s)) as [b'|] eqn:Hb'; [|done].
      destruct (value_at (nodes t) b') as [w|] eqn:Hw; [|done].
      simplify_eq. by exists i, v, b'.
  - intros Hno%bool_decide_eq_false.
    destruct (get_node_from (nodes t) root s); [destruct Hno; eauto|].
    unfold search. by rewrite Hloop.
Qed.

(** ** [iteritems] *)

Lemma walk_each_cons
    (rec : addr -> list (list Item * V) -> walk_result (list (list Item * V)))
    a c (cs : list addr) L :
  walk_each rec a (c :: cs) L =
    if decide (c = a) then walk_each rec a cs L
    else match rec c L with
         | Walked L' => walk_each rec a cs L'
         | r => r
         end.
Proof. done. Qed.

Lemma walk_each_app
    (rec : addr -> list (list Item * V) -> walk_result (list (list Item * V)))
    a (l1 l2 : list addr) L :
  walk_each rec a (l1 ++ l2) L =
    match walk_each rec a l1 L with
    | Walked L1 => walk_each rec a l2 L1
    | r => r
    end.
Proof.
  revert L. induction l1 as [|c l1 IH]; intros L; simpl; [done|].
  case_decide; [apply IH|]. destruct (rec c L); first [apply IH|done].
Qed.

Lemma walk_each_ext
    (rec rec' : addr -> list (list Item * V)
                -> walk_result (list (list Item * V)))
    a (l : list addr) :
  (∀ c L, rec c L = rec' c L) ->
  ∀ L, walk_each rec a l L = walk_each rec' a l L.
Proof.
  intros Hext. induction l as [|c l IH]; intros L; simpl; [done|].
  case_decide; [apply IH|]. rewrite Hext.
  destruct (rec' c L); first [apply IH|done].
Qed.

Lemma walk_each_self
    (rec : addr -> list (list Item * V) -> walk_result (list (list Item * V)))
    a (l : list addr) L :
  Forall (fun c => c = a) l -> walk_each rec a l L = Walked L.
Proof.
  induction 1 as [|c l -> _ IH]; simpl; [done|]. by rewrite decide_True.
Qed.

Lemma walk_S as_list fuel h a (sa : list Item) L :
  walk as_list (S fuel) h a sa L =
    match h !! a with
    | None => NoNode
    | Some nd =>
        match walk_key as_list nd sa with
        | None => TypeError
        | Some s' =>
            walk_each (fun child L => walk as_list fuel h child s' L)
              a (dict_values (children nd))
              (match value nd with
               | Some v => L ++ [(s', v)]
               | None => L
               end)
        end
    end.
Proof. done. Qed.

Lemma items_at_app pth h (l1 l2 : list addr) :
  items_at pth h (l1 ++ l2) = items_at pth h l1 ++ items_at pth h l2.
Proof. apply omap_app. Qed.

Lemma elem_of_items_at pth h (vis : list addr) s (v : V) :
  (s, v) ∈ items_at pth h vis <->
  ∃ x, x ∈ vis ∧ pth x = s ∧ value_at h x = Some v.
Proof.
  unfold items_at. rewrite list_elem_of_omap. split.
  - intros (x & Hx & Hv). exists x. split; [done|].
    destruct (value_at h x); simplify_eq/=. done.
  - intros (x & Hx & <- & Hv). exists x. split; [done|]. by rewrite Hv.
Qed.

Lemma length_items_at pth h (vis : list addr) :
  length (items_at pth h vis) = valued h vis.
Proof.
  unfold items_at, valued. induction vis as [|x vis IH]; [done|].
  rewrite filter_cons. simpl.
  destruct (decide (is_Some (value_at h x))) as [[v Hv]|Hn].
  - rewrite Hv. simpl. f_equal. exact IH.
  - destruct (value_at h x) eqn:Hv; [destruct Hn; eauto|]. exact IH.
Qed.

Lemma items_at_keys_nodup pth h (vis : list addr) :
  NoDup vis ->
  (∀ x y, x ∈ vis -> y ∈ vis -> pth x = pth y -> x = y) ->
  NoDup (items_at pth h vis).*1.
Proof.
  induction 1 as [|x vis Hx Hnd IH]; intros Hinj; [constructor|].
  assert (Hrest : NoDup (items_at pth h vis).*1).
  { apply IH. intros y z Hy Hz. apply Hinj; apply elem_of_cons; by right. }
  unfold items_at in *. simpl. destruct (value_at h x) as [v|]; [|done].
  simpl. apply NoDup_cons. split; [|done].
  intros ([s w] & Hs & Hin)%list_elem_of_fmap. simpl in Hs.
  apply elem_of_items_at in Hin as (y & Hy & Hpy & _).
  apply Hx. rewrite (Hinj x y); [done| | |congruence].
  - apply elem_of_cons. by left.
  - apply elem_of_cons. by right.
Qed.

(** Every node lies at the end of its own path. *)
Lemma node_path pth h a :
  tree pth h -> a < length h ->
  get_node_from h root (pth a) = Some a.
Proof.
  intros Ht. induction (lt_wf a) as [a _ IH]. intros Ha.
  destruct (decide (a = 0)) as [->|Hne].
  - change 0 with root. by rewrite (tree_pth_root _ _ Ht).
  - destruct (tree_parent _ _ Ht a) as (p & k & Hch); [lia|].
    pose proof (child_edge _ _ _ _ Hch) as He.
    destruct (tree_edge _ _ Ht _ _ _ He) as [[_ ?]|(Hlt & _ & ->)]; [done|].
    rewrite get_node_from_app, IH by lia.
    destruct Hch as (n & Hn & Hc). simpl. by rewrite Hn, Hc.
Qed.

Lemma walk_entries as_list pth h fuel a (sa : list Item)
    (es : list (Item * addr)) :
  tree pth h -> fresh h ->
  NoDup es.*1 ->
  (∀ k c, (k, c) ∈ es -> edge h a k c ∧
     ∀ L, ∃ vis,
       walk as_list fuel h c sa L = Walked (L ++ items_at pth h vis) ∧
       NoDup vis ∧
       (∀ x, x ∈ vis -> x < length h ∧ pth c `prefix_of` pth x) ∧
       c ∈ vis ∧
       (∀ x k' c', x ∈ vis -> edge h x k' c' -> c' ∈ vis)) ->
  ∀ L, ∃ vis,
    walk_each (fun child L => walk as_list fuel h child sa L) a es.*2 L
    = Walked (L ++ items_at pth h vis) ∧
    NoDup vis ∧
    (∀ x, x ∈ vis ->
       ∃ k c, (k, c) ∈ es ∧ x < length h ∧ pth c `prefix_of` pth x) ∧
    (∀ k c, (k, c) ∈ es -> c ∈ vis) ∧
    (∀ x k' c', x ∈ vis -> edge h x k' c' -> c' ∈ vis).
Proof.
  intros Ht Hf. induction es as [|[k c] es IH]; intros Hnd Hes L.
  - exists []. simpl. rewrite app_nil_r. split_and!; try done.
    + constructor.
    + by intros x ?%elem_of_nil.
    + by intros k c ?%elem_of_nil.
    + by intros x k' c' ?%elem_of_nil.
  - simpl in Hnd. apply NoDup_cons in Hnd as [Hk Hnd].
    destruct (Hes k c) as (He & Hc); [apply elem_of_cons; by left|].
    destruct (Hc L) as (vis1 & Hrun1 & Hnd1 & Hin1 & Hc1 & Hcl1).
    destruct (IH Hnd) with (L := L ++ items_at pth h vis1)
      as (vis2 & Hrun2 & Hnd2 & Hin2 & Hc2 & Hcl2).
    { intros k' c' Hin. apply Hes. apply elem_of_cons. by right. }
    exists (vis1 ++ vis2). split_and!.
    + rewrite fmap_cons, walk_each_cons. simpl snd.
      destruct (decide (c = a)) as [Hca|_].
      * destruct (tree_edge _ _ Ht _ _ _ He) as [[_ Hc0]|(? & _)]; [|lia].
        rewrite Hc0 in He. by destruct (proj2 Hf _ _ He).
      * rewrite Hrun1, Hrun2. by rewrite items_at_app, app_assoc.
    + apply NoDup_app. split_and!; [done| |done].
      intros x Hx1 Hx2.
      destruct (Hin1 x Hx1) as [_ Hp1].
      destruct (Hin2 x Hx2) as (k' & c' & Hin' & _ & Hp2).
      destruct (Hes k' c') as [He' _]; [apply elem_of_cons; by right|].
      assert (k = k') as -> by (by eapply siblings_disjoint).
      apply Hk. apply list_elem_of_fmap. by exists (k', c').
    + intros x [Hx|Hx]%elem_of_app.
      * destruct (Hin1 x Hx). exists k, c. split_and!; try done.
        apply elem_of_cons. by left.
      * destruct (Hin2 x Hx) as (k' & c' & ? & ? & ?).
        exists k', c'. split_and!; try done. apply elem_of_cons. by right.
    + intros k' c' [?|?]%elem_of_cons; apply elem_of_app.
      * simplify_eq. by left.
      * right. eauto.
    + intros x k' c' [Hx|Hx]%elem_of_app He'; apply elem_of_app.
      * left. eauto.
      * right. eauto.
Qed.

Lemma walk_visit as_list pth h :
  tree pth h -> fresh h -> keys_nodup h ->
  (∀ k, as_list k = Some [k]) ->
  ∀ a nd fuel (sa : list Item) L,
    h !! a = Some nd -> length h - a < fuel ->
    walk_key as_list nd sa = Some (pth a) ->
    ∃ vis,
      walk as_list fuel h a sa L = Walked (L ++ items_at pth h vis) ∧
      NoDup vis ∧
      (∀ x, x ∈ vis -> x < length h ∧ pth a `prefix_of` pth x) ∧
      a ∈ vis ∧
      (∀ x k' c', x ∈ vis -> edge h x k' c' -> c' ∈ vis).
Proof.
  intros Ht Hf Hkeys Has a.
  remember (length h - a) as m eqn:Hm. revert a Hm.
  induction (lt_wf m) as [m _ IH]. intros a -> nd fuel sa L Hnd Hfuel Hkey.
  assert (Ha : a < length h) by (by eapply lookup_lt_Some).
  destruct fuel as [|fuel]; [lia|].
  assert (Hedge : ∀ k c, edge h a k c -> a < c ∧ c < length h ∧
             pth c = pth a ++ [k] ∧ keyitem_at h c = Some k).
  { intros k c He. destruct (tree_edge _ _ Ht _ _ _ He)
      as [[_ ->]|(? & Hki & ?)]; [by destruct (proj2 Hf _ _ He)|].
    split_and!; try done. by eapply keyitem_at_lt. }
  set (L' := match value nd with
             | Some v => L ++ [(pth a, v)]
             | None => L
             end).
  destruct (walk_entries as_list pth h fuel a (pth a) (children nd) Ht Hf)
    with (L := L') as (vis & Hrun & Hndv & Hin & Hch & Hcl).
  { by eapply Hkeys. }
  { intros k c Hkc. assert (He : edge h a k c) by (by exists nd).
    split; [done|]. destruct (Hedge _ _ He) as (? & Hcl & Hpc & Hki).
    apply keyitem_at_Some in Hki as (cn & Hcn & Hk). intros L0.
    apply (IH (length h - c)) with (nd := cn); [lia|done|done|lia|].
    unfold walk_key. rewrite Hk. simpl. rewrite Has. simpl.
    rewrite Hpc. by destruct (pth a). }
  exists (a :: vis). split_and!.
  - rewrite walk_S, Hnd, Hkey. fold L'. unfold dict_values. rewrite Hrun.
    f_equal. unfold L', items_at. simpl. unfold value_at at 2.
    rewrite Hnd. simpl. destruct (value nd); simpl; [|done].
    by rewrite <- app_assoc.
  - apply NoDup_cons. split; [|done]. intros Hx.
    destruct (Hin a Hx) as (k & c & Hkc & _ & [l Hl]).
    destruct (Hedge k c) as (_ & _ & Hpc & _); [by exists nd|].
    rewrite Hpc in Hl. apply (f_equal length) in Hl.
    rewrite !length_app in Hl. simpl in Hl. lia.
  - intros x [->|Hx]%elem_of_cons; [by split|].
    destruct (Hin x Hx) as (k & c & Hkc & ? & [l Hl]).
    destruct (Hedge k c) as (_ & _ & Hpc & _); [by exists nd|].
    split; [done|]. exists ([k] ++ l). by rewrite Hl, Hpc, <- app_assoc.
  - apply elem_of_cons. by left.
  - intros x k' c' [->|Hx]%elem_of_cons He; apply elem_of_cons; right.
    + destruct He as (n' & Hn' & Hkc). simplify_eq. by apply (Hch k').
    + eauto.
Qed.

(** X4. With items that are one-character strings, [iteritems] on a trie
    under construction returns every stored sequence once, with its
    value: a pair is returned exactly when [get] returns its value for
    its key, and there are as many pairs as [__len__] counts. *)
Theorem iteritems_stored as_list range cont ops fuel :
  (∀ k, as_list k = Some [k]) ->
  let t := build range cont ops in
  length (nodes t) < fuel ->
  ∃ L : list (list Item * V),
    iteritems as_list fuel t = Walked L ∧
    NoDup L.*1 ∧
    (∀ s v, (s, v) ∈ L <-> get t s None = Ok v) ∧
    ∃ fuel', len fuel' t = Ok (length L).
Proof.
  intros Has t Hfuel.
  destruct (build_tree range cont ops) as (pth & Ht & Hf). fold t in Ht, Hf.
  destruct (tree_root _ _ Ht) as (r & Hr & Hrk & _).
  destruct (walk_visit as_list pth (nodes t) Ht Hf
              (build_keys range cont ops) Has root r fuel [] [] Hr)
    as (vis & Hrun & Hnd & Hin & Hroot & Hcl).
  { lia. }
  { unfold walk_key. rewrite Hrk. by rewrite (tree_pth_root _ _ Ht). }
  assert (Hall : ∀ x, x < length (nodes t) -> x ∈ vis).
  { intros x. induction (lt_wf x) as [x _ IH]. intros Hx.
    destruct (decide (x = 0)) as [->|Hne]; [done|].
    destruct (tree_parent _ _ Ht x) as (p & k & Hch%child_edge); [lia|].
    destruct (tree_edge _ _ Ht _ _ _ Hch) as [[_ ?]|(Hlt & _)]; [done|].
    apply (Hcl p k); [|done]. apply IH; [done|lia]. }
  exists (items_at pth (nodes t) vis). split_and!.
  - done.
  - apply items_at_keys_nodup; [done|]. intros x y Hx Hy Hxy.
    destruct (Hin x Hx) as [Hxl _]. destruct (Hin y Hy) as [Hyl _].
    pose proof (node_path pth _ x Ht Hxl) as Hpx.
    pose proof (node_path pth _ y Ht Hyl) as Hpy.
    rewrite Hxy in Hpx. congruence.
  - intros s v. rewrite elem_of_items_at. split.
    + intros (x & Hx & <- & Hv). destruct (Hin x Hx) as [Hxl _].
      apply (get_stored t _ x); [|done]. by apply node_path.
    + unfold get. destruct (get_node t s) as [a|] eqn:Ha; [|done].
      destruct (value_at (nodes t) a) as [w|] eqn:Hw; [|done].
      intros [= ->]. exists a. split_and!; [|  |done].
      * apply Hall. eapply get_node_from_lt; [done| |exact Ha].
        by eapply lookup_lt_Some.
      * rewrite (get_node_from_pth pth _ root s a Ht (proj2 Hf) Ha).
        by rewrite (tree_pth_root _ _ Ht).
  - destruct (len_counts range cont ops) as [fuel' Hlen]. fold t in Hlen.
    exists fuel'. rewrite Hlen. f_equal. rewrite length_items_at.
    unfold valued. apply Permutation_length. apply filter_Permutation.
    symmetry. apply NoDup_Permutation; [done|apply NoDup_seq|].
    intros x. rewrite elem_of_seq. split.
    + intros Hx. destruct (Hin x Hx). lia.
    + intros [_ Hx]. by apply Hall.
Qed.

(** What [make_automaton] changes in the store: [fail] slots, and
    entries added to the root that point at the root. *)
Lemma make_automaton_nodes range cont ops fuel t' :
  let t := build range cont ops in
  make_automaton fuel t = Ok t' ->
  ∃ loops : list (Item * addr),
    Forall (fun e => e.2 = root) loops ∧
    ∀ x, match nodes t !! x, nodes t' !! x with
         | Some n0, Some n1 =>
             keyitem n1 = keyitem n0 ∧ value n1 = value n0 ∧
             children n1 =
               children n0 ++ (if decide (x = root) then loops else [])
         | None, None => True
         | _, _ => False
         end.
Proof.
  intros t. unfold make_automaton.
  assert (Hrange : items_range t = range) by apply build_items_range.
  assert (Hcont : content t = cont) by apply build_content.
  rewrite Hrange, Hcont.
  destruct (build_tree range cont ops) as (pth & Ht & Hf). fold t in Ht, Hf.
  destruct (tree_root _ _ Ht) as (r0 & Hr0 & _).
  assert (Hnl : ∀ k, dict_get (children r0) k ≠ Some root).
  { intros k Hk. apply (proj2 Hf root k). exists r0.
    split; [done|]. by apply dict_get_elem. }
  destruct (root_loop_spec cont (nodes t) r0 (seq 0 range) Hr0 Hnl
              (nodes t) [] [] [] (root_closed_init cont _ _ Hf Hr0))
    as (h1 & q1 & loops & Hloop & Hclosed).
  rewrite Hloop. simpl.
  intros (h' & Hbfs & [= <-])%bind_Ok.
  destruct (root_closed_facts cont pth _ _ _ _ _ _ Ht Hf Hr0 Hclosed)
    as (Ht1 & Hlen & Hval & Hchild & Hrootch & Hfail1 & Hq1 & Htot).
  destruct (decide (root ∈ q1)) as [Hin|Hnin].
  { exfalso. eapply (bfs_stuck pth fuel h1 q1 h'); try done.
    - by destruct (Hq1 _ Hin).
    - destruct (Hq1 _ Hin) as (_ & k & ?%child_edge). by exists k. }
  assert (Hinv : bfs_inv range cont pth h1 q1)
    by (by apply bfs_inv_init).
  destruct (bfs_spec range cont pth fuel h1 q1 h' Hinv Hbfs) as [_ Hs].
  destruct Hclosed as (Hh & Hloops & _).
  exists loops. split.
  - eapply Forall_impl; [exact Hloops|]. by intros e (? & _).
  - intros x. simpl. specialize (Hs x). rewrite Hh in Hs.
    destruct (nodes t !! x) as [n0|]; simpl in *.
    + destruct (h' !! x) as [n1|]; [|done]. destruct Hs as [f ->].
      simpl. split_and!; [done..|]. case_decide; [done|].
      by rewrite app_nil_r.
    + by destruct (h' !! x).
Qed.

Lemma walk_loops as_list h h' (loops : list (Item * addr)) :
  Forall (fun e => e.2 = root) loops ->
  (∀ x, match h !! x, h' !! x with
        | Some n0, Some n1 =>
            keyitem n1 = keyitem n0 ∧ value n1 = value n0 ∧
            children n1 =
              children n0 ++ (if decide (x = root) then loops else [])
        | None, None => True
        | _, _ => False
        end) ->
  ∀ fuel a (sa : list Item) L,
    walk as_list fuel h' a sa L = walk as_list fuel h a sa L.
Proof.
  intros Hloops Hrel. induction fuel as [|fuel IH]; intros a sa L; [done|].
  rewrite !walk_S. specialize (Hrel a).
  destruct (h !! a) as [n0|], (h' !! a) as [n1|]; try done.
  destruct Hrel as (Hk & Hv & Hc).
  assert (Hkey : walk_key as_list n1 sa = walk_key as_list n0 sa)
    by (unfold walk_key; by rewrite Hk).
  rewrite Hkey, Hv, Hc. destruct (walk_key as_list n0 sa) as [s'|]; [|done].
  unfold dict_values. rewrite fmap_app, walk_each_app.
  rewrite (walk_each_ext _ (fun child L => walk as_list fuel h child s' L))
    by (intros; apply IH).
  destruct (walk_each _ a (children n0).*2 _) as [L1| | |]; try done.
  apply walk_each_self. case_decide as Ha; [|constructor].
  subst a. apply Forall_fmap. eapply Forall_impl; [exact Hloops|]. done.
Qed.

(** X7. [iteritems] returns the same pairs, in the same order, before
    and after [make_automaton]: the entries that [make_automaton]
    adds to the root point at the root, and [walk] skips them. *)
Theorem iteritems_after_make_automaton as_list range cont ops fuel0 t' fuel :
  make_automaton fuel0 (build range cont ops) = Ok t' ->
  iteritems as_list fuel t' = iteritems as_list fuel (build range cont ops) ∧
  iterkeys as_list fuel t' = iterkeys as_list fuel (build range cont ops) ∧
  itervalues as_list fuel t'
    = itervalues as_list fuel (build range cont ops).
Proof.
  intros Hmake.
  destruct (make_automaton_nodes range cont ops fuel0 t' Hmake)
    as (loops & Hloops & Hrel).
  assert (Hit : iteritems as_list fuel t'
                = iteritems as_list fuel (build range cont ops)).
  { unfold iteritems. by apply (walk_loops as_list _ _ loops). }
  unfold iterkeys, itervalues. by rewrite Hit.
Qed.

Lemma walk_each_Walked
    (rec : addr -> list (list Item * V) -> walk_result (list (list Item * V)))
    a (cs : list addr) L L' c :
  walk_each rec a cs L = Walked L' -> c ∈ cs -> c ≠ a ->
  ∃ L0 L1, rec c L0 = Walked L1.
Proof.
  revert L. induction cs as [|c0 cs IH]; intros L Hrun Hc Hne.
  - by apply elem_of_nil in Hc.
  - rewrite walk_each_cons in Hrun. apply elem_of_cons in Hc as [->|Hc].
    + rewrite decide_False in Hrun by done.
      destruct (rec c0 L) as [L1| | |] eqn:Hr; try done. eauto.
    + destruct (decide (c0 = a)); [by eapply IH|].
      destruct (rec c0 L) as [L1| | |]; try done. by eapply IH.
Qed.

Lemma walk_depth as_list pth h :
  tree pth h -> fresh h ->
  ∀ fuel a (sa : list Item) L L' s b,
    walk as_list fuel h a sa L = Walked L' ->
    get_node_from h a s = Some b ->
    length s < fuel.
Proof.
  intros Ht Hf. induction fuel as [|fuel IH]; intros a sa L L' s b; [done|].
  rewrite walk_S. destruct s as [|k s]; [simpl; lia|].
  intros Hrun (c & Hch & Hs)%get_node_from_cons.
  destruct Hch as (nd & Hnd & Hc). rewrite Hnd in Hrun.
  destruct (walk_key as_list nd sa) as [s'|]; [|done].
  assert (He : edge h a k c) by (exists nd; split; [done|by apply dict_get_elem]).
  destruct (walk_each_Walked _ a _ _ _ c Hrun) as (L0 & L1 & Hrec).
  - unfold dict_values. apply list_elem_of_fmap. exists (k, c).
    split; [done|]. by apply dict_get_elem.
  - intros ->. destruct (tree_edge _ _ Ht _ _ _ He) as [[_ Hc0]|(? & _)]; [|lia].
    rewrite Hc0 in He. by destruct (proj2 Hf _ _ He).
  - specialize (IH _ _ _ _ _ _ Hrec Hs). simpl. lia.
Qed.

(** X6. [walk] calls itself once for every item of a stored sequence: when
    [iteritems] returns, every sequence that [match] accepts is shorter
    than the recursion depth that was available. *)
Theorem iteritems_depth as_list range cont ops fuel (L : list (list Item * V))
    s :
  iteritems as_list fuel (build range cont ops) = Walked L ->
  match_ (build range cont ops) s = true ->
  length s < fuel.
Proof.
  intros Hrun Hm.
  destruct (build_tree range cont ops) as (pth & Ht & Hf).
  unfold match_ in Hm. apply bool_decide_eq_true in Hm as [b Hb].
  by eapply (walk_depth as_list pth _ Ht Hf fuel root [] [] L s b).
Qed.

Lemma walk_below_root as_list pth h :
  tree pth h -> fresh h ->
  (∀ k, as_list k = None) ->
  ∀ k c fuel L,
    edge h root k c -> 2 ≤ fuel ->
    ∃ nd, h !! c = Some nd ∧
      walk as_list fuel h c [] L =
        match children nd with
        | [] => Walked (match value nd with
                        | Some v => L ++ [([k], v)]
                        | None => L
                        end)
        | _ => TypeError
        end.
Proof.
  intros Ht Hf Has k c fuel L He Hfuel.
  destruct (tree_edge _ _ Ht _ _ _ He) as [[_ Hc0]|(Hlt & Hki & _)].
  { rewrite Hc0 in He. by destruct (proj2 Hf _ _ He). }
  apply keyitem_at_Some in Hki as (nd & Hnd & Hk).
  exists nd. split; [done|].
  destruct fuel as [|[|fuel]]; [lia..|].
  rewrite walk_S, Hnd. unfold walk_key at 1. rewrite Hk.
  destruct (children nd) as [|[k2 c2] es] eqn:Hes; [done|].
  assert (He2 : edge h c k2 c2).
  { exists nd. split; [done|]. rewrite Hes. apply elem_of_cons. by left. }
  unfold dict_values. rewrite fmap_cons, walk_each_cons. simpl snd.
  destruct (tree_edge _ _ Ht _ _ _ He2) as [[Hc _]|(Hlt2 & Hki2 & _)].
  { unfold root in *. lia. }
  rewrite decide_False by lia.
  apply keyitem_at_Some in Hki2 as (nd2 & Hnd2 & Hk2).
  rewrite walk_S, Hnd2. unfold walk_key. rewrite Hk2. simpl.
  by rewrite Has.
Qed.

Lemma walk_each_below_root as_list pth h fuel (es : list (Item * addr)) :
  tree pth h -> fresh h ->
  (∀ k, as_list k = None) ->
  2 ≤ fuel ->
  (∀ k c, (k, c) ∈ es -> edge h root k c) ->
  (∃ k c nd, (k, c) ∈ es ∧ h !! c = Some nd ∧ children nd ≠ []) ->
  ∀ L, walk_each (fun child L => walk as_list fuel h child [] L)
         root es.*2 L = TypeError.
Proof.
  intros Ht Hf Has Hfuel. induction es as [|[k c] es IH]; intros Hes Hex L.
  - destruct Hex as (? & ? & ? & []%elem_of_nil & _).
  - rewrite fmap_cons, walk_each_cons. simpl snd.
    assert (He : edge h root k c) by (apply Hes, elem_of_cons; by left).
    destruct (decide (c = root)) as [Hc|_].
    { rewrite Hc in He. by destruct (proj2 Hf _ _ He). }
    destruct (walk_below_root as_list pth h Ht Hf Has k c fuel L He Hfuel)
      as (nd & Hnd & ->).
    destruct (children nd) as [|e es'] eqn:Hch; [|done].
    apply IH.
    + intros k' c' Hin. apply Hes, elem_of_cons. by right.
    + destruct Hex as (k' & c' & nd' & Hin & Hnd' & Hne).
      apply elem_of_cons in Hin as [[= -> ->]|Hin]; [congruence|].
      by exists k', c', nd'.
Qed.

(** X5. With items that [list] cannot iterate over (integers, say),
    [iteritems] raises a TypeError as soon as the trie holds a sequence
    of two or more items: [walk] calls [list(node.keyitem)] at every
    node below the children of the root. *)
Theorem iteritems_not_iterable as_list range cont ops fuel s :
  (∀ k, as_list k = None) ->
  2 ≤ length s -> 3 ≤ fuel ->
  match_ (build range cont ops) s = true ->
  iteritems as_list fuel (build range cont ops) = @TypeError _ ∧
  iterkeys as_list fuel (build range cont ops) = @TypeError _ ∧
  itervalues as_list fuel (build range cont ops) = @TypeError _.
Proof.
  intros Has Hlen Hfuel Hm.
  destruct (build_tree range cont ops) as (pth & Ht & Hf).
  set (t := build range cont ops) in *.
  assert (Hit : iteritems as_list fuel t = @TypeError _).
  { unfold match_ in Hm. apply bool_decide_eq_true in Hm as [b Hb].
    destruct s as [|k1 [|k2 s]]; [simpl in Hlen; lia..|].
    apply get_node_from_cons in Hb as (c1 & Hc1 & Hb).
    apply get_node_from_cons in Hb as (c2 & (n1 & Hn1 & Hc2) & _).
    destruct (tree_root _ _ Ht) as (r & Hr & Hrk & _).
    destruct fuel as [|fuel]; [lia|].
    unfold iteritems. rewrite walk_S, Hr. unfold walk_key. rewrite Hrk.
    apply (walk_each_below_root as_list pth); [done..|lia| |].
    - intros k c Hkc. by exists r.
    - exists k1, c1, n1. split_and!; [|done|].
      + destruct Hc1 as (r' & Hr' & Hc1). unfold get_node in *.
        simplify_eq. by apply dict_get_elem.
      + intros Hnil. by rewrite Hnil in Hc2. }
  unfold iterkeys, itervalues. by rewrite Hit.
Qed.

(** ** [__len__] after [add] *)

Lemma len_loop_mono h :
  ∀ fuel fuel' (stack : list addr) m r,
    fuel ≤ fuel' ->
    len_loop fuel h stack m = Ok r -> len_loop fuel' h stack m = Ok r.
Proof.
  induction fuel as [|fuel IH]; intros fuel' stack m r Hle; [done|].
  destruct fuel' as [|fuel']; [lia|].
  destruct stack as [|node stack]; [done|].
  rewrite !len_loop_cons. destruct (deref h node) as [nd| |]; try done.
  simpl. apply IH. lia.
Qed.

Lemma valued_cons_at h a (l : list addr) :
  valued h (a :: l) =
    match value_at h a with Some _ => S (valued h l) | None => valued h l end.
Proof.
  unfold valued. rewrite filter_cons.
  destruct (decide (is_Some (value_at h a))) as [[w Hw]|Hn].
  - by rewrite Hw.
  - destruct (value_at h a); [destruct Hn; eauto|done].
Qed.

Lemma valued_unset h (l : list addr) :
  (∀ x, x ∈ l -> value_at h x = None) -> valued h l = 0.
Proof.
  induction l as [|x l IH]; intros Hl; [done|].
  rewrite valued_cons_at, Hl by (apply elem_of_cons; by left).
  apply IH. intros y Hy. apply Hl, elem_of_cons. by right.
Qed.

Lemma valued_elsewhere h h2 a (l : list addr) :
  (∀ x, x ≠ a -> value_at h2 x = value_at h x) ->
  a ∉ l -> valued h2 l = valued h l.
Proof.
  intros Hv. induction l as [|x l IH]; intros Hl; [done|].
  apply not_elem_of_cons in Hl as [Hx Hl].
  rewrite !valued_cons_at, Hv, IH by done. done.
Qed.

Lemma valued_update h h2 a (v : V) (l : list addr) :
  value_at h2 a = Some v ->
  (∀ x, x ≠ a -> value_at h2 x = value_at h x) ->
  NoDup l -> a ∈ l ->
  valued h2 l =
    match value_at h a with Some _ => valued h l | None => S (valued h l) end.
Proof.
  intros Ha Hv. induction 1 as [|x l Hx Hnd IH]; intros Hin.
  - by apply elem_of_nil in Hin.
  - rewrite !valued_cons_at. destruct (decide (x = a)) as [->|Hne].
    + rewrite Ha, (valued_elsewhere h h2 a l) by done.
      by destruct (value_at h a).
    + apply elem_of_cons in Hin as [?|Hin]; [done|].
      rewrite Hv, IH by done.
      by destruct (value_at h x), (value_at h a).
Qed.

(** X3. [__len__] after [add(s, v)] on a trie under construction: the
    count is unchanged when [exists(s)] held before (the value is
    replaced), and one more otherwise. *)
Theorem len_after_add range cont ops s (v : V) fuel m :
  s ≠ [] ->
  len fuel (build range cont ops) = Ok m ->
  ∃ fuel', len fuel' (add (build range cont ops) s v)
           = Ok (if exists_ (build range cont ops) s then m else S m).
Proof.
  intros Hs Hlen. set (t := build range cont ops) in *.
  destruct (len_counts range cont ops) as [f0 Hf0]. fold t in Hf0.
  assert (Hm : m = valued (nodes t) (seq 0 (length (nodes t)))).
  { unfold len in *.
    assert (H1 : fuel ≤ fuel + f0) by lia.
    assert (H2 : f0 ≤ fuel + f0) by lia.
    pose proof (len_loop_mono _ _ _ _ _ _ H1 Hlen).
    pose proof (len_loop_mono _ _ _ _ _ _ H2 Hf0).
    congruence. }
  destruct (len_counts range cont (ops ++ [(s, v)])) as [f1 Hf1].
  rewrite build_snoc in Hf1. fold t in Hf1.
  exists f1. rewrite Hf1. f_equal.
  destruct (build_tree range cont ops) as (pth & Ht & Hf). fold t in Ht, Hf.
  destruct (tree_root _ _ Ht) as (r & Hr & _).
  assert (Hlt : root < length (nodes t)) by (by eapply lookup_lt_Some).
  destruct (add_walk (nodes t) root s) as [h' a] eqn:Hw.
  destruct (add_walk_spec _ _ _ _ _ _ Ht Hf Hlt Hw)
    as (pth' & Ht' & Hf' & (Hle & Hp & Hc & Hv & Hn) & Hget).
  assert (Hnodes : nodes (add t s v) = set_value h' a (Some v)).
  { unfold add. destruct s; [done|]. by rewrite Hw. }
  assert (Ha : a < length h').
  { eapply get_node_from_lt; [exact Ht'| |exact Hget]. lia. }
  assert (Hout : ∀ x, length (nodes t) ≤ x -> value_at (nodes t) x = None).
  { intros x Hx. unfold value_at. by rewrite lookup_ge_None_2. }
  rewrite Hnodes, length_set_value.
  rewrite (valued_update (nodes t) _ a v).
  - replace (length h') with (length (nodes t) + (length h' - length (nodes t)))
      by lia.
    rewrite seq_app, valued_app, (valued_unset _ (seq (0 + _) _)),
      Nat.add_0_r, <- Hm.
    2:{ intros x [? _]%elem_of_seq. apply Hout. lia. }
    unfold exists_. destruct (get_node t s) as [b|] eqn:Hb.
    + assert (b = a) as ->.
      { pose proof (get_node_from_ext _ h' _ _ _ Hc Hb). congruence. }
      destruct (value_at (nodes t) a) as [w|] eqn:Hva.
      * rewrite bool_decide_eq_true_2 by eauto. done.
      * rewrite bool_decide_eq_false_2; [done|]. by intros [? ?].
    + destruct (decide (a < length (nodes t))) as [Hal|Hal].
      * pose proof (path_of_old pth' (nodes t) h' Ht' Hf'
                      (add_walk_old_edges s _ _ _ _ Hw) s root a Hget Hal).
        unfold get_node in Hb. congruence.
      * by rewrite Hout by lia.
  - rewrite value_at_set_value, decide_True by done. by rewrite decide_True.
  - intros x Hx. rewrite value_at_set_value, decide_False by done.
    destruct (decide (x < length (nodes t))); [by apply Hv|].
    rewrite Hn, Hout by lia. done.
  - apply NoDup_seq.
  - apply elem_of_seq. lia.
Qed.

(** ** What [search] yields *)

Lemma fail_chain_suffix pth h x st :
  fail_suffix pth h -> rtc (fail_step h) x st -> pth st `suffix_of` pth x.
Proof.
  intros Hfs. induction 1 as [x|x y z Hxy _ IH]; [done|].
  etrans; [exact IH|]. by apply Hfs.
Qed.

(** The node that [children.get(k, root)] gives at the end of a walk
    along the fail links from [x]: its path is a suffix of the path of
    [x] extended by [k]. *)
Lemma fail_target_suffix pth h fuel x (k : Item) st n :
  tree pth h -> fail_suffix pth h ->
  follow_fail fuel h (Some x) (Some k) = Ok st ->
  h !! st = Some n ->
  pth (dict_get_default (children n) (Some k) root)
    `suffix_of` (pth x ++ [k]).
Proof.
  intros Ht Hfs Hff Hn.
  apply follow_fail_Ok in Hff as (x' & n' & [= <-] & Hrtc & Hn' & Hmem).
  assert (n' = n) as -> by congruence. apply dict_mem_Some in Hmem as [c Hc]. simpl. rewrite Hc.
  simpl. assert (He : edge h st k c).
  { exists n. split; [done|]. by apply dict_get_elem. }
  destruct (tree_edge _ _ Ht _ _ _ He) as [[_ ->]|(_ & _ & ->)].
  - rewrite (tree_pth_root _ _ Ht). apply suffix_nil.
  - apply suffix_app. by eapply fail_chain_suffix.
Qed.

Lemma link_children_suffix pth fuel vals :
  ∀ h q cur h' q',
    tree pth h -> fail_suffix pth h -> cur ≠ root ->
    (∀ x, x ∈ vals -> ∃ k, edge h cur k x) ->
    link_children fuel h q cur vals = Ok (h', q') ->
    fail_suffix pth h'.
Proof.
  induction vals as [|node vals IH]; intros h q cur h' q' Ht Hfs Hcur Hvals.
  - simpl. by intros [= <- <-].
  - rewrite link_children_cons.
    intros (cn & Hcn%deref_Ok & Hrun)%bind_Ok.
    apply bind_Ok in Hrun as (nd & Hnd%deref_Ok & Hrun).
    apply bind_Ok in Hrun as (state & Hff & Hrun).
    apply bind_Ok in Hrun as (st & Hst%deref_Ok & Hrun).
    destruct (Hvals node) as [k He]; [apply elem_of_cons; by left|].
    destruct (tree_edge _ _ Ht _ _ _ He) as [[? _]|(_ & Hki & Hp)]; [done|].
    assert (Hk : keyitem nd = Some k).
    { apply keyitem_at_Some in Hki as (? & ? & ?). by simplify_eq. }
    rewrite Hk in Hff, Hrun.
    destruct (fail cn) as [x|] eqn:Hx.
    2:{ by destruct fuel. }
    assert (Hxc : pth x `suffix_of` pth cur).
    { apply Hfs. unfold fail_at. by rewrite Hcn. }
    pose proof (fail_target_suffix pth h fuel x k state st Ht Hfs Hff Hst)
      as Htarget.
    eapply (IH _ _ _ _ _ _ _ Hcur _ Hrun).
    Unshelve.
    + eapply tree_same_shape; [exact Ht|].
      apply same_shape_set_fail, same_shape_refl.
    + intros a b. rewrite fail_at_set_fail.
      destruct (decide (node = a)) as [<-|_]; [|by apply Hfs].
      case_decide; [|done]. intros [= <-]. rewrite Hp.
      etrans; [exact Htarget|]. by apply suffix_app.
    + intros y Hy. destruct (Hvals y) as [k' ?]; [apply elem_of_cons; by right|].
      exists k'. by apply edge_set_fail.
Qed.

Lemma bfs_suffix range cont pth fuel :
  ∀ h q h',
    bfs_inv range cont pth h q -> fail_suffix pth h ->
    bfs fuel h q = Ok h' -> fail_suffix pth h'.
Proof.
  induction fuel as [|fuel IH]; intros h q h' Hinv Hfs; [done|].
  simpl. destruct q as [|cur q]; [by intros [= <-]|].
  intros (cn & Hcn%deref_Ok & Hrun)%bind_Ok.
  apply bind_Ok in Hrun as ([h1 q1] & Hlink & Hrun).
  destruct (bfs_inv_pop range cont pth fuel h q cur cn h1 q1 Hinv Hcn Hlink)
    as (Hinv1 & _ & _).
  apply (IH h1 q1 h' Hinv1); [|done].
  apply (link_children_suffix pth fuel (dict_values (children cn))
           h q cur h1 q1); try done.
  - by destruct Hinv.
  - destruct Hinv as (_ & _ & _ & Hq & _).
    destruct (Hq cur) as [? _]; [apply elem_of_cons; by left|done].
  - intros x [k Hk]%elem_dict_values. exists k. by exists cn.
Qed.

Lemma pth_inj pth h x y :
  tree pth h -> x < length h -> y < length h -> pth x = pth y -> x = y.
Proof.
  intros Ht Hx Hy Hxy.
  pose proof (node_path pth h x Ht Hx) as Hpx.
  pose proof (node_path pth h y Ht Hy) as Hpy.
  rewrite Hxy in Hpx. congruence.
Qed.

(** A node other than the root, with its parent. *)
Lemma tree_parent_path pth h y :
  tree pth h -> 0 < y < length h ->
  ∃ x k, child h x k y ∧ x < length h ∧ pth y = pth x ++ [k].
Proof.
  intros Ht Hy. destruct (tree_parent _ _ Ht y Hy) as (x & k & Hch).
  pose proof (child_edge _ _ _ _ Hch) as He.
  destruct (tree_edge _ _ Ht _ _ _ He) as [[_ ->]|(_ & _ & Hp)];
    [unfold root in *; lia|].
  exists x, k. split_and!; [done| |done].
  destruct Hch as (n & Hn & _). by eapply lookup_lt_Some.
Qed.

(** The walk along the fail links from [b] stops at the first node
    that has a child for [k]: it does not pass a node [x] that has
    one. *)
Lemma follow_fail_longest pth h (k : Item) :
  tree pth h -> fail_longest pth h ->
  ∀ fuel b st x y,
    follow_fail fuel h (Some b) (Some k) = Ok st ->
    x < length h -> child h x k y ->
    pth x `suffix_of` pth b -> pth x `suffix_of` pth st.
Proof.
  intros Ht Hfl. induction fuel as [|fuel IH]; intros b st x y; [done|].
  simpl. intros (nb & Hnb%deref_Ok & Hrun)%bind_Ok Hx Hch Hsuf.
  destruct (dict_get (children nb) k) as [c|] eqn:Hmem.
  { rewrite bool_decide_eq_true_2 in Hrun by eauto. by injection Hrun as <-. }
  rewrite bool_decide_eq_false_2 in Hrun by (by intros [? ?]).
  destruct (fail nb) as [b'|] eqn:Hb'; [|by destruct fuel].
  apply (IH b' st x y Hrun Hx Hch).
  apply (Hfl b b'); [unfold fail_at; by rewrite Hnb|done| |done].
  intros ->. destruct Hch as (nx & Hnx & Hk). congruence.
Qed.

(** The node that [children.get(k, root)] gives at the end of the
    walk from [b]: when the path of [x] is a suffix of the path of [b],
    the path of the child of [x] for [k] is a suffix of the path of
    that node. *)
Lemma fail_target_longest pth h fuel b (k : Item) st n x y :
  tree pth h -> fail_longest pth h ->
  follow_fail fuel h (Some b) (Some k) = Ok st ->
  h !! st = Some n ->
  x < length h -> child h x k y -> pth y = pth x ++ [k] ->
  pth x `suffix_of` pth b ->
  pth y `suffix_of` pth (dict_get_default (children n) (Some k) root).
Proof.
  intros Ht Hfl Hff Hn Hx Hch Hp Hsuf.
  pose proof (follow_fail_longest pth h k Ht Hfl fuel b st x y Hff Hx Hch
                Hsuf) as Hxs.
  apply follow_fail_Ok in Hff as (_ & n' & _ & _ & Hn' & Hmem).
  assert (n' = n) as -> by congruence.
  apply dict_mem_Some in Hmem as [c Hc]. simpl. rewrite Hc. simpl.
  assert (He : edge h st k c).
  { exists n. split; [done|]. by apply dict_get_elem. }
  destruct (tree_edge _ _ Ht _ _ _ He) as [[-> ->]|(_ & _ & ->)].
  - exfalso. rewrite (tree_pth_root _ _ Ht) in Hxs.
    apply suffix_nil_inv in Hxs.
    assert (x = root) as ->.
    { apply (pth_inj pth h); [done..| |].
      - destruct (tree_root _ _ Ht) as (r & Hr & _). by eapply lookup_lt_Some.
      - by rewrite (tree_pth_root _ _ Ht). }
    destruct Hch as (nr & Hnr & Hky).
    assert (y = root) as -> by congruence.
    rewrite (tree_pth_root _ _ Ht) in Hp. by destruct (pth root).
  - rewrite Hp. by apply suffix_app.
Qed.

Lemma link_children_longest pth fuel vals :
  ∀ h q cur h' q',
    tree pth h -> fail_longest pth h -> cur ≠ root ->
    (∀ x, x ∈ vals -> ∃ k, edge h cur k x) ->
    link_children fuel h q cur vals = Ok (h', q') ->
    fail_longest pth h'.
Proof.
  induction vals as [|node vals IH]; intros h q cur h' q' Ht Hfl Hcur Hvals.
  - simpl. by intros [= <- <-].
  - rewrite link_children_cons.
    intros (cn & Hcn%deref_Ok & Hrun)%bind_Ok.
    apply bind_Ok in Hrun as (nd & Hnd%deref_Ok & Hrun).
    apply bind_Ok in Hrun as (state & Hff & Hrun).
    apply bind_Ok in Hrun as (st & Hst%deref_Ok & Hrun).
    destruct (Hvals node) as [k He]; [apply elem_of_cons; by left|].
    destruct (tree_edge _ _ Ht _ _ _ He) as [[? _]|(_ & Hki & Hp)]; [done|].
    assert (Hk : keyitem nd = Some k).
    { apply keyitem_at_Some in Hki as (? & ? & ?). by simplify_eq. }
    rewrite Hk in Hff, Hrun.
    destruct (fail cn) as [b|] eqn:Hb.
    2:{ by destruct fuel. }
    assert (Hcl : cur < length h) by (by eapply lookup_lt_Some).
    assert (Hnl : node < length h) by (by eapply lookup_lt_Some).
    assert (Hw : ∀ y, y < length h -> y ≠ node ->
              pth y `suffix_of` pth node ->
              pth y `suffix_of`
                pth (dict_get_default (children st) (Some k) root)).
    { intros y Hy Hyn Hsuf. rewrite Hp in Hsuf.
      destruct (decide (y = 0)) as [->|Hy0].
      { change 0 with root. rewrite (tree_pth_root _ _ Ht).
        apply suffix_nil. }
      destruct (tree_parent_path pth h y Ht) as (x & k' & Hch & Hx & Hpy);
        [lia|].
      rewrite Hpy in Hsuf.
      pose proof (suffix_snoc_inv_1 _ _ _ _ Hsuf) as ->.
      pose proof (suffix_snoc_inv_2 _ _ _ _ Hsuf) as Hxs.
      apply (fail_target_longest pth h fuel b k state st x y
               Ht Hfl Hff Hst Hx Hch Hpy).
      apply (Hfl cur b); [unfold fail_at; by rewrite Hcn|done| |done].
      intros ->. apply Hyn. apply (pth_inj pth h); [done..|].
      by rewrite Hpy, Hp. }
    eapply (IH _ _ _ _ _ _ _ Hcur _ Hrun).
    Unshelve.
    + eapply tree_same_shape; [exact Ht|].
      apply same_shape_set_fail, same_shape_refl.
    + intros a c. rewrite fail_at_set_fail, length_set_fail.
      destruct (decide (node = a)) as [<-|_]; [|by apply Hfl].
      case_decide; [|done]. intros [= <-]. exact Hw.
    + intros y Hy. destruct (Hvals y) as [k' ?]; [apply elem_of_cons; by right|].
      exists k'. by apply edge_set_fail.
Qed.

Lemma bfs_longest range cont pth fuel :
  ∀ h q h',
    bfs_inv range cont pth h q -> fail_longest pth h ->
    bfs fuel h q = Ok h' -> fail_longest pth h'.
Proof.
  induction fuel as [|fuel IH]; intros h q h' Hinv Hfl; [done|].
  simpl. destruct q as [|cur q]; [by intros [= <-]|].
  intros (cn & Hcn%deref_Ok & Hrun)%bind_Ok.
  apply bind_Ok in Hrun as ([h1 q1] & Hlink & Hrun).
  destruct (bfs_inv_pop range cont pth fuel h q cur cn h1 q1 Hinv Hcn Hlink)
    as (Hinv1 & _ & _).
  apply (IH h1 q1 h' Hinv1); [|done].
  apply (link_children_longest pth fuel (dict_values (children cn))
           h q cur h1 q1); try done.
  - by destruct Hinv.
  - destruct Hinv as (_ & _ & _ & Hq & _).
    destruct (Hq cur) as [? _]; [apply elem_of_cons; by left|done].
  - intros x [k Hk]%elem_dict_values. exists k. by exists cn.
Qed.

(** The fail links that [make_automaton] sets lead to the longest
    proper suffixes that the trie holds. *)
Lemma make_automaton_links range cont ops fuel t' :
  let t := build range cont ops in
  make_automaton fuel t = Ok t' ->
  ∃ pth,
    tree pth (nodes t) ∧ fresh (nodes t) ∧
    automaton range cont pth (nodes t') ∧
    fail_suffix pth (nodes t') ∧ fail_longest pth (nodes t') ∧
    length (nodes t') = length (nodes t) ∧
    (∀ x, value_at (nodes t') x = value_at (nodes t) x).
Proof.
  intros t. unfold make_automaton.
  assert (Hrange : items_range t = range) by apply build_items_range.
  assert (Hcont : content t = cont) by apply build_content.
  rewrite Hrange, Hcont.
  destruct (build_tree range cont ops) as (pth & Ht & Hf). fold t in Ht, Hf.
  destruct (tree_root _ _ Ht) as (r0 & Hr0 & _).
  assert (Hnl : ∀ k, dict_get (children r0) k ≠ Some root).
  { intros k Hk. apply (proj2 Hf root k). exists r0.
    split; [done|]. by apply dict_get_elem. }
  destruct (root_loop_spec cont (nodes t) r0 (seq 0 range) Hr0 Hnl
              (nodes t) [] [] [] (root_closed_init cont _ _ Hf Hr0))
    as (h1 & q1 & loops & Hloop & Hclosed).
  rewrite Hloop. simpl.
  intros (h' & Hbfs & [= <-])%bind_Ok.
  destruct (root_closed_facts cont pth _ _ _ _ _ _ Ht Hf Hr0 Hclosed)
    as (Ht1 & Hlen & Hval & Hchild & Hrootch & Hfail1 & Hq1 & Htot).
  destruct (decide (root ∈ q1)) as [Hin|Hnin].
  { exfalso. eapply (bfs_stuck pth fuel h1 q1 h'); try done.
    - by destruct (Hq1 _ Hin).
    - destruct (Hq1 _ Hin) as (_ & k & ?%child_edge). by exists k. }
  assert (Hinv : bfs_inv range cont pth h1 q1)
    by (by apply bfs_inv_init).
  destruct (bfs_spec range cont pth fuel h1 q1 h' Hinv Hbfs) as [Hfin Hs].
  exists pth. simpl. split_and!.
  - done.
  - done.
  - by apply bfs_inv_automaton.
  - apply (bfs_suffix range cont pth fuel h1 q1 h' Hinv); [|done].
    intros a b Hab. destruct (Hfail1 _ _ Hab) as [-> _].
    rewrite (tree_pth_root _ _ Ht). apply suffix_nil.
  - apply (bfs_longest range cont pth fuel h1 q1 h' Hinv); [|done].
    intros a b Hab x Hx Hxa Hsuf. destruct (Hfail1 _ _ Hab) as [-> Haq].
    destruct (Hq1 _ Haq) as (_ & k & Hch%child_edge).
    destruct (tree_edge _ _ Ht1 _ _ _ Hch) as [[_ ->]|(_ & _ & Hpa)];
      [done|].
    rewrite (tree_pth_root _ _ Ht1) in Hpa |- *. simpl in Hpa.
    rewrite Hpa in Hsuf.
    destruct (pth x) as [|k0 l] eqn:Hpx; [done|]. exfalso. apply Hxa.
    apply (pth_inj pth h1); [done..|by eapply tree_edge_lt|].
    rewrite Hpx, Hpa. apply suffix_length_eq; [done|].
    apply suffix_length in Hsuf. simpl in *. lia.
  - by rewrite (same_shape_length h1 h').
  - intros x. by rewrite (same_shape_value_at h1 h').
Qed.

(** The values that the walk along the fail links from [a] collects
    are those of nodes whose paths are suffixes of the path of [a],
    each shorter than the one before. *)
Lemma collect_sound range cont pth h :
  automaton range cont pth h -> fail_suffix pth h ->
  ∀ fuel a (acc vals : list V),
    collect fuel h (Some a) acc = Ok vals ->
    ∃ xs vs,
      vals = acc ++ vs ∧
      Forall2 (fun x v => value_at h x = Some v) xs vs ∧
      Forall (fun x => x < length h ∧ pth x `suffix_of` pth a) xs ∧
      StronglySorted (fun x y => length (pth y) < length (pth x)) xs.
Proof.
  intros Haut Hfs. induction fuel as [|fuel IH]; intros a acc vals; [done|].
  simpl. intros (nd & Hnd%deref_Ok & Hrun)%bind_Ok.
  assert (Ha : a < length h) by (by eapply lookup_lt_Some).
  assert (Hrest : ∀ acc',
            collect fuel h (fail nd) acc' = Ok vals ->
            ∃ xs vs,
              vals = acc' ++ vs ∧
              Forall2 (fun x v => value_at h x = Some v) xs vs ∧
              Forall (fun x => x < length h ∧ pth x `suffix_of` pth a ∧
                               length (pth x) < length (pth a)) xs ∧
              StronglySorted
                (fun x y => length (pth y) < length (pth x)) xs).
  { intros acc' Hrun'. destruct (fail nd) as [b|] eqn:Hb.
    - assert (Hab : fail_at h a = Some b)
        by (unfold fail_at; by rewrite Hnd).
      destruct (aut_fail _ _ _ _ Haut a b Hab) as (_ & Hlt & _).
      destruct (IH b acc' vals Hrun') as (xs & vs & -> & Hvs & Hxs & Hsort).
      exists xs, vs. split_and!; try done.
      eapply Forall_impl; [exact Hxs|]. intros x [Hx Hsuf].
      split_and!; [done|etrans; [exact Hsuf|by apply Hfs]|].
      apply suffix_length in Hsuf. lia.
    - destruct fuel; [done|]. simpl in Hrun'. injection Hrun' as <-.
      exists [], []. rewrite app_nil_r. split_and!; try done; constructor. }
  destruct (value nd) as [v|] eqn:Hv.
  - destruct (Hrest _ Hrun) as (xs & vs & -> & Hvs & Hxs & Hsort).
    exists (a :: xs), (v :: vs). split_and!.
    + by rewrite <- app_assoc.
    + constructor; [|done]. unfold value_at. by rewrite Hnd.
    + constructor; [done|]. eapply Forall_impl; [exact Hxs|].
      by intros x (? & ? & _).
    + constructor; [done|]. eapply Forall_impl; [exact Hxs|].
      by intros x (_ & _ & ?).
  - destruct (Hrest _ Hrun) as (xs & vs & -> & Hvs & Hxs & Hsort).
    exists xs, vs. split_and!; try done.
    eapply Forall_impl; [exact Hxs|]. by intros x (? & ? & _).
Qed.

Lemma search_step_sound range cont pth h fuel state k state'
    (vals : list V) (w : list Item) :
  automaton range cont pth h -> fail_suffix pth h ->
  pth state `suffix_of` w ->
  search_step fuel h state k = Ok (state', vals) ->
  pth state' `suffix_of` (w ++ [k]) ∧
  ∃ xs,
    Forall2 (fun x v => value_at h x = Some v) xs vals ∧
    Forall (fun x => x < length h ∧ pth x `suffix_of` (w ++ [k])) xs ∧
    StronglySorted (fun x y => length (pth y) < length (pth x)) xs.
Proof.
  intros Haut Hfs Hw. pose proof (aut_tree _ _ _ _ Haut) as Ht.
  unfold search_step.
  intros (st & Hff & Hrun)%bind_Ok.
  apply bind_Ok in Hrun as (n & Hn%deref_Ok & Hrun).
  apply bind_Ok in Hrun as (vals' & Hcol & [= <- <-]).
  pose proof (fail_target_suffix pth h fuel state k st n Ht Hfs Hff Hn)
    as Htarget.
  assert (Hsuf : pth (dict_get_default (children n) (Some k) root)
                   `suffix_of` (w ++ [k])).
  { etrans; [exact Htarget|]. by apply suffix_app. }
  split; [done|].
  destruct (collect_sound range cont pth h Haut Hfs _ _ _ _ Hcol)
    as (xs & vs & -> & Hvs & Hxs & Hsort).
  exists xs. split_and!; try done.
  eapply Forall_impl; [exact Hxs|]. intros x [? ?]. split; [done|by etrans].
Qed.

Lemma search_loop_sound range cont pth h fuel :
  automaton range cont pth h -> fail_suffix pth h ->
  ∀ s state idx (w : list Item) final (out : list (nat * list V)),
    pth state `suffix_of` w ->
    search_loop fuel h state idx s = Ok (final, out) ->
    StronglySorted lt out.*1 ∧
    ∀ i vals, (i, vals) ∈ out ->
      idx ≤ i < idx + length s ∧ vals ≠ [] ∧
      ∃ xs,
        Forall2 (fun x v => value_at h x = Some v) xs vals ∧
        Forall (fun x => x < length h ∧
                  pth x `suffix_of` (w ++ take (S (i - idx)) s)) xs ∧
        StronglySorted (fun x y => length (pth y) < length (pth x)) xs.
Proof.
  intros Haut Hfs. induction s as [|k s IH];
    intros state idx w final out Hw.
  - simpl. intros [= <- <-]. split; [constructor|].
    by intros i vals ?%elem_of_nil.
  - rewrite search_loop_cons.
    intros ([state' vals0] & Hstep & Hrun)%bind_Ok.
    apply bind_Ok in Hrun as ([final' out'] & Hloop & [= <- <-]).
    destruct (search_step_sound range cont pth h fuel state k state' vals0 w
                Haut Hfs Hw Hstep) as [Hw' Hvals0].
    destruct (IH state' (S idx) (w ++ [k]) _ _ Hw' Hloop) as [Hsorted Hall].
    split.
    + destruct vals0; [done|]. simpl. constructor; [done|].
      apply Forall_forall. intros i [[i' vals] [-> Hin]]%list_elem_of_fmap.
      destruct (Hall i' vals Hin) as ((? & _) & _). simpl. lia.
    + intros i vals Hin.
      assert (Hcases : (i = idx ∧ vals = vals0 ∧ vals0 ≠ []) ∨
                       (i, vals) ∈ out').
      { destruct vals0; [by right|].
        apply elem_of_cons in Hin as [[= -> ->]|?]; [by left|by right]. }
      destruct Hcases as [(-> & -> & Hne)|Hin'].
      * split_and!; [lia|simpl; lia|done|].
        rewrite Nat.sub_diag. simpl. rewrite take_0. exact Hvals0.
      * destruct (Hall i vals Hin')
          as ((Hi1 & Hi2) & Hne & xs & Hvs & Hxs & Hsort).
        split_and!; [lia|simpl; lia|done|].
        replace (i - idx) with (S (i - S idx)) by lia.
        exists xs. split_and!; try done.
        eapply Forall_impl; [exact Hxs|]. intros x [? Hsuf].
        split; [done|].
        by rewrite (firstn_cons (S (i - S idx)) k s), cons_middle, app_assoc.
Qed.

(** X15. No false positives: the indices that [search] yields increase, and
    the values yielded at an index are those of non-empty stored
    sequences that end at that index of the input, each shorter than
    the one before. *)
Theorem search_sound range cont ops fuel t' fuel' s
    (out : list (nat * list V)) :
  make_automaton fuel (build range cont ops) = Ok t' ->
  search fuel' t' s = Ok out ->
  StronglySorted lt out.*1 ∧
  ∀ i vals, (i, vals) ∈ out ->
    i < length s ∧ vals ≠ [] ∧
    ∃ keys,
      Forall2 (fun key v =>
                 key ≠ [] ∧ key `suffix_of` take (S i) s ∧
                 get (build range cont ops) key None = Ok v) keys vals ∧
      StronglySorted
        (fun key1 key2 : list Item => length key2 < length key1) keys.
Proof.
  intros Hmake Hsearch.
  destruct (make_automaton_links range cont ops fuel t' Hmake)
    as (pth & Ht & _ & Haut & Hfs & _ & Hlen & Hval).
  pose proof (aut_tree _ _ _ _ Haut) as Ht'.
  unfold search in Hsearch.
  apply bind_Ok in Hsearch as ([final out'] & Hloop & [= <-]).
  destruct (search_loop_sound range cont pth (nodes t') fuel' Haut Hfs s
              root 0 [] final out') as [Hsorted Hall]; [|done|].
  { rewrite (tree_pth_root _ _ Ht'). apply suffix_nil. }
  split; [done|]. intros i vals Hin.
  destruct (Hall i vals Hin) as ((_ & Hi) & Hne & xs & Hvs & Hxs & Hsort).
  split_and!; [lia|done|].
  rewrite Nat.sub_0_r in Hxs. simpl app in Hxs.
  exists (pth <$> xs). split.
  - apply Forall2_fmap_l.
    clear Hsort Hin Hne. induction Hvs as [|x v xs vs Hv Hvs IH];
      [constructor|].
    apply Forall_cons in Hxs as [[Hx Hsuf] Hxs].
    constructor; [|by apply IH].
    rewrite Hlen in Hx. rewrite Hval in Hv.
    pose proof (node_path pth _ x Ht Hx) as Hpath.
    split_and!; [|done|].
    + intros Hnil. rewrite Hnil in Hpath. simpl in Hpath.
      injection Hpath as <-.
      destruct (tree_root _ _ Ht) as (r & Hr & _ & Hrv).
      unfold value_at in Hv. rewrite Hr in Hv. simpl in Hv. congruence.
    + by apply (get_stored _ _ x).
  - clear Hvs Hxs. induction Hsort as [|x xs _ IH Hx]; [constructor|].
    rewrite fmap_cons. constructor; [done|].
    apply Forall_fmap. exact Hx.
Qed.

Lemma collect_acc h :
  ∀ fuel tmp (acc vals : list V),
    collect fuel h tmp acc = Ok vals -> ∀ v, v ∈ acc -> v ∈ vals.
Proof.
  induction fuel as [|fuel IH]; intros tmp acc vals; [done|].
  simpl. destruct tmp as [a|]; [|by intros [= <-]].
  intros (nd & _ & Hrun)%bind_Ok v Hv.
  apply (IH _ _ _ Hrun). destruct (value nd); [|done].
  apply elem_of_app. by left.
Qed.

(** The walk of [search] along the fail links from [a] meets every
    node whose path is a suffix of the path of [a]. *)
Lemma collect_complete range cont pth h :
  automaton range cont pth h -> fail_longest pth h ->
  ∀ fuel a (acc vals : list V),
    a < length h -> universe_path range cont pth a ->
    collect fuel h (Some a) acc = Ok vals ->
    ∀ x v, x < length h -> pth x `suffix_of` pth a ->
           value_at h x = Some v -> v ∈ vals.
Proof.
  intros Haut Hfl. pose proof (aut_tree _ _ _ _ Haut) as Ht.
  induction fuel as [|fuel IH]; intros a acc vals Ha HU; [done|].
  simpl. intros (nd & Hnd%deref_Ok & Hrun)%bind_Ok x v Hx Hsuf Hv.
  destruct (decide (x = a)) as [->|Hxa].
  { apply (collect_acc _ _ _ _ _ Hrun).
    unfold value_at in Hv. rewrite Hnd in Hv. simpl in Hv. rewrite Hv.
    apply elem_of_app. right. by apply list_elem_of_singleton. }
  destruct (fail nd) as [b|] eqn:Hb.
  - assert (Hab : fail_at h a = Some b) by (unfold fail_at; by rewrite Hnd).
    destruct (aut_fail _ _ _ _ Haut a b Hab) as (Hbl & _ & HUb).
    apply (IH b _ vals Hbl (HUb HU) Hrun x v Hx); [|done].
    by apply (Hfl a b).
  - exfalso. destruct (decide (a = 0)) as [->|Ha0].
    + apply Hxa. apply (pth_inj pth h); [done..|].
      change 0 with root in Hsuf |- *.
      rewrite (tree_pth_root _ _ Ht) in Hsuf |- *.
      by apply suffix_nil_inv.
    + destruct (aut_linked _ _ _ _ Haut a) as [b Hab]; [lia|done|].
      unfold fail_at in Hab. rewrite Hnd in Hab. simpl in Hab. congruence.
Qed.

Lemma search_step_longest pth h fuel state k state' (vals : list V)
    (w : list Item) :
  tree pth h -> fail_longest pth h ->
  (∀ x, x < length h -> pth x `suffix_of` w ->
        pth x `suffix_of` pth state) ->
  search_step fuel h state k = Ok (state', vals) ->
  ∀ y, y < length h -> pth y `suffix_of` (w ++ [k]) ->
       pth y `suffix_of` pth state'.
Proof.
  intros Ht Hfl Hw. unfold search_step.
  intros (st & Hff & Hrun)%bind_Ok.
  apply bind_Ok in Hrun as (n & Hn%deref_Ok & Hrun).
  apply bind_Ok in Hrun as (vals' & Hcol & [= <- <-]).
  intros y Hy Hsuf.
  destruct (decide (y = 0)) as [->|Hy0].
  { change 0 with root. rewrite (tree_pth_root _ _ Ht). apply suffix_nil. }
  destruct (tree_parent_path pth h y Ht) as (x & k' & Hch & Hx & Hpy); [lia|].
  rewrite Hpy in Hsuf.
  pose proof (suffix_snoc_inv_1 _ _ _ _ Hsuf) as ->.
  apply suffix_snoc_inv_2 in Hsuf.
  apply (fail_target_longest pth h fuel state k st n x y
           Ht Hfl Hff Hn Hx Hch Hpy).
  by apply Hw.
Qed.

Lemma search_loop_complete range cont pth h fuel :
  automaton range cont pth h -> fail_longest pth h ->
  length h < fuel ->
  ∀ s state idx (w : list Item) final (out : list (nat * list V)),
    forallb (in_universe range cont) s = true ->
    state < length h -> universe_path range cont pth state ->
    (∀ x, x < length h -> pth x `suffix_of` w ->
          pth x `suffix_of` pth state) ->
    search_loop fuel h state idx s = Ok (final, out) ->
    ∀ m x v, m < length s -> x < length h ->
      pth x `suffix_of` (w ++ take (S m) s) ->
      value_at h x = Some v ->
      ∃ vals, (idx + m, vals) ∈ out ∧ v ∈ vals.
Proof.
  intros Haut Hfl Hfuel. pose proof (aut_tree _ _ _ _ Haut) as Ht.
  induction s as [|k s IH]; intros state idx w final out HU Hst HUst Hw.
  - intros _ m x v Hm. simpl in Hm. lia.
  - simpl in HU. apply andb_true_iff in HU as [Hk HU].
    rewrite search_loop_cons.
    destruct (search_step_total range cont pth h Haut fuel state k
                Hk Hst HUst Hfuel)
      as (st & c & vals0 & _ & _ & Hstep & Hcl & HUc & _).
    rewrite Hstep. simpl.
    intros ([final' out'] & Hloop & [= <- <-])%bind_Ok.
    pose proof (search_step_longest pth h fuel state k c vals0 w
                  Ht Hfl Hw Hstep) as Hw'.
    intros m x v Hm Hx Hsuf Hv. destruct m as [|m].
    + simpl in Hsuf. rewrite take_0 in Hsuf.
      assert (Hin : v ∈ vals0).
      { unfold search_step in Hstep.
        apply bind_Ok in Hstep as (st' & _ & Hstep).
        apply bind_Ok in Hstep as (n & _ & Hstep).
        apply bind_Ok in Hstep as (vals' & Hcol & Heq).
        simpl in Heq, Hcol. injection Heq as Hc <-. rewrite Hc in Hcol.
        apply (collect_complete range cont pth h Haut Hfl _ _ _ _
                 Hcl HUc Hcol x v Hx); [|done].
        by apply Hw'. }
      exists vals0. rewrite Nat.add_0_r. split; [|done].
      destruct vals0; [by apply elem_of_nil in Hin|].
      apply elem_of_cons. by left.
    + destruct (IH c (S idx) (w ++ [k]) _ out' HU Hcl HUc Hw' Hloop
                  m x v) as (vals & Hin & Hvin); [simpl in Hm; lia|done| |done|].
      { by rewrite <- app_assoc. }
      exists vals. split; [|done].
      replace (idx + S m) with (S idx + m) by lia.
      destruct vals0; [done|]. apply elem_of_cons. by right.
Qed.

(** X16. No occurrence is missed: after [make_automaton], on input over the
    universe and with any fuel above the number of nodes, [search]
    returns, and for every stored sequence that ends at an index of
    the input, the entry yielded for that index holds its value. *)
Theorem search_complete range cont ops fuel t' fuel' s :
  make_automaton fuel (build range cont ops) = Ok t' ->
  forallb (in_universe range cont) s = true ->
  length (nodes t') < fuel' ->
  ∃ out, search fuel' t' s = Ok out ∧
    ∀ i key (v : V),
      i < length s -> key `suffix_of` take (S i) s ->
      get (build range cont ops) key None = Ok v ->
      ∃ vals, (i, vals) ∈ out ∧ v ∈ vals.
Proof.
  intros Hmake HU Hfuel.
  destruct (make_automaton_links range cont ops fuel t' Hmake)
    as (pth & Ht & Hf & Haut & _ & Hfl & Hlen & Hval).
  pose proof (aut_tree _ _ _ _ Haut) as Ht'.
  destruct (tree_root _ _ Ht') as (r & Hr & _).
  assert (Hroot : root < length (nodes t')) by (by eapply lookup_lt_Some).
  destruct (search_loop_total range cont pth (nodes t') Haut fuel' s HU Hfuel
              root 0 Hroot (universe_path_root range cont pth _ Haut))
    as (final & out & Hloop & _).
  exists out. split; [unfold search; by rewrite Hloop|].
  intros i key v Hi Hkey Hget. unfold get in Hget.
  destruct (get_node (build range cont ops) key) as [x|] eqn:Hx; [|done].
  destruct (value_at (nodes (build range cont ops)) x) as [v'|] eqn:Hv;
    [|done].
  injection Hget as ->.
  assert (Hxl : x < length (nodes (build range cont ops))).
  { eapply get_node_from_lt; [exact Ht| |exact Hx]. lia. }
  assert (Hpx : pth x = key).
  { rewrite (get_node_from_pth pth _ root key x Ht (proj2 Hf) Hx).
    by rewrite (tree_pth_root _ _ Ht). }
  apply (search_loop_complete range cont pth (nodes t') fuel' Haut Hfl Hfuel
           s root 0 [] final out HU Hroot
           (universe_path_root range cont pth _ Haut)) with (x := x).
  - intros y _ Hy%suffix_nil_inv. rewrite Hy. apply suffix_nil.
  - done.
  - done.
  - lia.
  - by rewrite Hpx.
  - by rewrite Hval.
Qed.

(** ** [make_automaton] called again *)

(** Step 1 on a root that has a child for every item read: every turn
    takes the first branch, and a child that is the root itself makes
    the root its own fail link and puts it in the queue. *)
Lemma root_loop_again cont pth l :
  ∀ h q h1 q1,
    tree pth h ->
    (∀ i, i ∈ l -> ∃ c, child h root (cont i) c) ->
    root_loop cont (h, q) l = Ok (h1, q1) ->
    same_shape h h1 ∧
    ((fail_at h root = Some root ∧ root ∈ q) ∨
     (∃ i, i ∈ l ∧ child h root (cont i) root) ->
     fail_at h1 root = Some root ∧ root ∈ q1).
Proof.
  induction l as [|i l IH]; intros h q h1 q1 Ht Hall.
  - intros [= <- <-]. split; [apply same_shape_refl|].
    intros [?|(i & []%elem_of_nil & _)]. done.
  - rewrite root_loop_cons. intros ([h2 q2] & Hstep & Hloop)%bind_Ok.
    destruct (Hall i) as (c & r & Hr & Hc); [apply elem_of_cons; by left|].
    unfold root_step, deref in Hstep. rewrite Hr in Hstep. simpl in Hstep.
    rewrite Hc in Hstep. injection Hstep as <- <-.
    assert (Hs : same_shape h (set_fail h c (Some root)))
      by apply same_shape_set_fail, same_shape_refl.
    assert (Hroot : root < length h) by (by eapply lookup_lt_Some).
    assert (Hall' : ∀ j, j ∈ l ->
              ∃ cj, child (set_fail h c (Some root)) root (cont j) cj).
    { intros j Hj.
      destruct (Hall j) as [cj Hcj]; [apply elem_of_cons; by right|].
      exists cj. by apply (same_shape_child h). }
    destruct (IH _ _ _ _ (tree_same_shape _ _ _ Ht Hs) Hall' Hloop)
      as [Hs1 Hq1].
    split; [by eapply same_shape_trans|].
    intros Hcase. apply Hq1.
    destruct Hcase as [[Hfr Hin]|(j & Hj & Hcj)].
    + left. split; [|apply elem_of_app; by left].
      rewrite fail_at_set_fail. case_decide; [by rewrite decide_True|done].
    + apply elem_of_cons in Hj as [->|Hj].
      * left. destruct Hcj as (r' & Hr' & Hc').
        assert (c = root) as -> by congruence.
        split.
        -- rewrite fail_at_set_fail, decide_True by done.
           by rewrite decide_True.
        -- apply elem_of_app. right. by apply list_elem_of_singleton.
      * right. exists j. split; [done|]. by apply (same_shape_child h).
Qed.

(** X13. A second [make_automaton] never returns when some item of the
    universe begins no stored sequence: the first call made the root
    its own child for that item, so the second one makes the root its
    own fail link and queues it, and the walk along the fail links
    from the root goes round for ever. *)
Theorem make_automaton_twice range cont ops fuel t' i fuel2 t'' :
  make_automaton fuel (build range cont ops) = Ok t' ->
  i < range ->
  match_ (build range cont ops) [cont i] = false ->
  make_automaton fuel2 t' ≠ Ok t''.
Proof.
  intros Hmake Hi Hno.
  destruct (make_automaton_spec range cont ops fuel t' Hmake)
    as (pth & Ht & Hf & Haut & Hrange & Hcont & _ & _ & _ & Hroot).
  pose proof (aut_tree _ _ _ _ Haut) as Ht'.
  assert (Hloop : child (nodes t') root (cont i) root).
  { destruct (aut_root_total _ _ _ _ Haut i Hi) as (c & Hc).
    destruct (Hroot _ _ Hc) as [Hold|[-> _]]; [|done].
    unfold match_, get_node in Hno. rewrite bool_decide_eq_false in Hno.
    destruct Hno. rewrite (get_node_from_child _ _ _ c) by done.
    simpl. eauto. }
  unfold make_automaton. rewrite Hrange, Hcont.
  destruct (root_loop cont (nodes t', []) (seq 0 range))
    as [[h1 q1]| |] eqn:Hrl; [|done..].
  simpl. intros (h2 & Hbfs & _)%bind_Ok.
  destruct (root_loop_again cont pth (seq 0 range) (nodes t') [] h1 q1 Ht')
    as [Hs Hq]; [|done|].
  { intros j [_ Hj]%elem_of_seq. apply (aut_root_total _ _ _ _ Haut). lia. }
  destruct Hq as [Hfr Hin].
  { right. exists i. split; [|done]. apply elem_of_seq. lia. }
  eapply (bfs_stuck pth fuel2 h1 q1 h2); [| | |done|exact Hbfs].
  - by eapply tree_same_shape.
  - done.
  - exists (cont i). apply (same_shape_edge (nodes t')); [done|].
    by apply child_edge.
Qed.

End More.

(** * The further properties on the tries of the examples *)

Lemma match_prefix_of_added_witness :
  str "he" `prefix_of` str "hers" ∧
  match_ (build 256 chr ([(str "she", 2)] ++ (str "hers", 3) :: []))
    (str "he") = true.
Proof.
  assert (H1 : str "he" `prefix_of` str "hers")
    by (exists (str "rs"); vm_compute; reflexivity).
  split; [exact H1|].
  exact (match_prefix_of_added 256 chr [(str "she", 2)] (str "hers") 3 []
           (str "he") H1).
Defined.

Lemma get_add_other_witness :
  str "he" ≠ str "hers" ∧
  get (add (build 256 chr [(str "he", 1)]) (str "hers") 3) (str "he") None
  = get (build 256 chr [(str "he", 1)]) (str "he") None.
Proof.
  assert (H1 : str "he" ≠ str "hers") by (vm_compute; discriminate).
  split; [exact H1|].
  exact (get_add_other 256 chr [(str "he", 1)] (str "hers") 3 (str "he")
           None H1).
Defined.

Lemma len_after_add_witness :
  (str "she" ≠ [] ∧ len 20 (build 256 chr [(str "he", 1)]) = Ok 1) ∧
  ∃ fuel', len fuel' (add (build 256 chr [(str "he", 1)]) (str "she") 2)
           = Ok (if exists_ (build 256 chr [(str "he", 1)]) (str "she")
                 then 1 else 2).
Proof.
  assert (H1 : str "she" ≠ []) by (vm_compute; discriminate).
  assert (H2 : len 20 (build 256 chr [(str "he", 1)]) = Ok 1)
    by (vm_compute; reflexivity).
  split; [exact (conj H1 H2)|].
  exact (len_after_add 256 chr [(str "he", 1)] (str "she") 2 20 1 H1 H2).
Defined.

Lemma iteritems_stored_witness :
  ((∀ k, list_chr k = Some [k]) ∧
   length (nodes (build 256 chr
     [(str "he", 1); (str "she", 2); (str "hers", 3)])) < 20) ∧
  ∃ L : list (list ascii * nat),
    iteritems list_chr 20
      (build 256 chr [(str "he", 1); (str "she", 2); (str "hers", 3)])
    = Walked L ∧
    NoDup L.*1 ∧
    (∀ s v, (s, v) ∈ L <->
       get (build 256 chr [(str "he", 1); (str "she", 2); (str "hers", 3)])
         s None = Ok v) ∧
    ∃ fuel', len fuel'
      (build 256 chr [(str "he", 1); (str "she", 2); (str "hers", 3)])
      = Ok (length L).
Proof.
  assert (H1 : ∀ k, list_chr k = Some [k]) by (intros k; reflexivity).
  assert (H2 : length (nodes (build 256 chr
            [(str "he", 1); (str "she", 2); (str "hers", 3)])) < 20)
    by (vm_compute; lia).
  split; [exact (conj H1 H2)|].
  exact (iteritems_stored list_chr 256 chr
           [(str "he", 1); (str "she", 2); (str "hers", 3)] 20 H1 H2).
Defined.

Lemma iteritems_not_iterable_witness :
  ((∀ k : nat, (fun _ : nat => @None (list nat)) k = None) ∧
   2 ≤ length [1; 2] ∧ 3 ≤ 5 ∧
   match_ (build 3 id [([1; 2], 7)]) [1; 2] = true) ∧
  iteritems (fun _ => None) 5 (build 3 id [([1; 2], 7)]) = TypeError ∧
  iterkeys (fun _ => None) 5 (build 3 id [([1; 2], 7)]) = TypeError ∧
  itervalues (fun _ => None) 5 (build 3 id [([1; 2], 7)]) = TypeError.
Proof.
  assert (H1 : ∀ k : nat, (fun _ : nat => @None (list nat)) k = None)
    by (intros k; reflexivity).
  assert (H2 : 2 ≤ length [1; 2]) by (simpl; lia).
  assert (H3 : 3 ≤ 5) by lia.
  assert (H4 : match_ (build 3 id [([1; 2], 7)]) [1; 2] = true)
    by (vm_compute; reflexivity).
  split; [exact (conj H1 (conj H2 (conj H3 H4)))|].
  exact (iteritems_not_iterable (fun _ => None) 3 id [([1; 2], 7)] 5 [1; 2]
           H1 H2 H3 H4).
Defined.

Lemma iteritems_depth_witness :
  (iteritems list_chr 10
     (build 256 chr [(str "he", 1); (str "she", 2); (str "hers", 3)])
   = Walked [(str "he", 1); (str "hers", 3); (str "she", 2)] ∧
   match_ (build 256 chr [(str "he", 1); (str "she", 2); (str "hers", 3)])
     (str "hers") = true) ∧
  length (str "hers") < 10.
Proof.
  assert (H1 : iteritems list_chr 10
     (build 256 chr [(str "he", 1); (str "she", 2); (str "hers", 3)])
     = Walked [(str "he", 1); (str "hers", 3); (str "she", 2)])
    by (vm_compute; reflexivity).
  assert (H2 : match_
     (build 256 chr [(str "he", 1); (str "she", 2); (str "hers", 3)])
     (str "hers") = true) by (vm_compute; reflexivity).
  split; [exact (conj H1 H2)|].
  exact (iteritems_depth list_chr 256 chr
           [(str "he", 1); (str "she", 2); (str "hers", 3)] 10 _
           (str "hers") H1 H2).
Defined.

Lemma iteritems_after_make_automaton_witness :
  make_automaton 100
    (build 256 chr [(str "he", 1); (str "she", 2); (str "hers", 3)])
  = Ok ushers_automaton ∧
  iteritems list_chr 10 ushers_automaton
  = iteritems list_chr 10
      (build 256 chr [(str "he", 1); (str "she", 2); (str "hers", 3)]) ∧
  iterkeys list_chr 10 ushers_automaton
  = iterkeys list_chr 10
      (build 256 chr [(str "he", 1); (str "she", 2); (str "hers", 3)]) ∧
  itervalues list_chr 10 ushers_automaton
  = itervalues list_chr 10
      (build 256 chr [(str "he", 1); (str "she", 2); (str "hers", 3)]).
Proof.
  assert (H1 : make_automaton 100
    (build 256 chr [(str "he", 1); (str "she", 2); (str "hers", 3)])
    = Ok ushers_automaton) by (vm_compute; reflexivity).
  split; [exact H1|].
  exact (iteritems_after_make_automaton list_chr 256 chr
           [(str "he", 1); (str "she", 2); (str "hers", 3)] 100
           ushers_automaton 10 H1).
Defined.

Lemma get_after_make_automaton_witness :
  (make_automaton 100
     (build 256 chr [(str "he", 1); (str "she", 2); (str "hers", 3)])
   = Ok ushers_automaton ∧
   get (build 256 chr [(str "he", 1); (str "she", 2); (str "hers", 3)])
     (str "she") None = Ok 2) ∧
  get ushers_automaton (str "she") None = Ok 2.
Proof.
  assert (H1 : make_automaton 100
    (build 256 chr [(str "he", 1); (str "she", 2); (str "hers", 3)])
    = Ok ushers_automaton) by (vm_compute; reflexivity).
  assert (H2 : get
    (build 256 chr [(str "he", 1); (str "she", 2); (str "hers", 3)])
    (str "she") None = Ok 2) by (vm_compute; reflexivity).
  split; [exact (conj H1 H2)|].
  exact (get_after_make_automaton 256 chr
           [(str "he", 1); (str "she", 2); (str "hers", 3)] 100
           ushers_automaton (str "she") 2 None H1 H2).
Defined.

Lemma lookup_skips_unused_item_witness :
  (make_automaton 100
     (build 256 chr [(str "he", 1); (str "she", 2); (str "hers", 3)])
   = Ok ushers_automaton ∧
   120 < 256 ∧
   match_ (build 256 chr [(str "he", 1); (str "she", 2); (str "hers", 3)])
     [chr 120] = false) ∧
  get ushers_automaton (chr 120 :: str "he") None
  = get ushers_automaton (str "he") None ∧
  exists_ ushers_automaton (chr 120 :: str "he")
  = exists_ ushers_automaton (str "he") ∧
  match_ ushers_automaton (chr 120 :: str "he")
  = match_ ushers_automaton (str "he").
Proof.
  assert (H1 : make_automaton 100
    (build 256 chr [(str "he", 1); (str "she", 2); (str "hers", 3)])
    = Ok ushers_automaton) by (vm_compute; reflexivity).
  assert (H2 : 120 < 256) by lia.
  assert (H3 : match_
    (build 256 chr [(str "he", 1); (str "she", 2); (str "hers", 3)])
    [chr 120] = false) by (vm_compute; reflexivity).
  split; [exact (conj H1 (conj H2 H3))|].
  exact (lookup_skips_unused_item 256 chr
           [(str "he", 1); (str "she", 2); (str "hers", 3)] 100
           ushers_automaton 120 (str "he") None H1 H2 H3).
Defined.

Lemma add_after_make_automaton_witness :
  (make_automaton 100
     (build 256 chr [(str "he", 1); (str "she", 2); (str "hers", 3)])
   = Ok ushers_automaton ∧
   120 < 256 ∧
   match_ (build 256 chr [(str "he", 1); (str "she", 2); (str "hers", 3)])
     [chr 120] = false) ∧
  (∀ s (v : nat), s ≠ [] ->
     add ushers_automaton (chr 120 :: s) v = add ushers_automaton s v) ∧
  (∀ v : nat,
     value_at (nodes (add ushers_automaton [chr 120] v)) root = Some v).
Proof.
  assert (H1 : make_automaton 100
    (build 256 chr [(str "he", 1); (str "she", 2); (str "hers", 3)])
    = Ok ushers_automaton) by (vm_compute; reflexivity).
  assert (H2 : 120 < 256) by lia.
  assert (H3 : match_
    (build 256 chr [(str "he", 1); (str "she", 2); (str "hers", 3)])
    [chr 120] = false) by (vm_compute; reflexivity).
  split; [exact (conj H1 (conj H2 H3))|].
  exact (add_after_make_automaton 256 chr
           [(str "he", 1); (str "she", 2); (str "hers", 3)] 100
           ushers_automaton 120 H1 H2 H3).
Defined.

Lemma make_automaton_links_all_witness :
  (NoDup (chr <$> seq 0 256) ∧
   Forall (fun op : list ascii * nat =>
             forallb (in_universe 256 chr) op.1 = true)
     [(str "he", 1); (str "she", 2); (str "hers", 3)]) ∧
  ∃ fuel t',
    make_automaton fuel
      (build 256 chr [(str "he", 1); (str "she", 2); (str "hers", 3)])
    = Ok t' ∧
    fail_at (nodes t') root = None ∧
    ∀ a, 0 < a < length (nodes t') -> is_Some (fail_at (nodes t') a).
Proof.
  assert (H1 : NoDup (chr <$> seq 0 256)) by exact chr_names_once.
  assert (H2 : Forall (fun op : list ascii * nat =>
                         forallb (in_universe 256 chr) op.1 = true)
                 [(str "he", 1); (str "she", 2); (str "hers", 3)])
    by (repeat constructor; vm_compute; reflexivity).
  split; [exact (conj H1 H2)|].
  exact (make_automaton_links_all 256 chr
           [(str "he", 1); (str "she", 2); (str "hers", 3)] H1 H2).
Defined.

Lemma make_automaton_repeated_item_witness :
  (0 < 1 ∧ 1 < 2 ∧
   (fun _ : nat => "a"%char) 0 = (fun _ : nat => "a"%char) 1 ∧
   match_ (build 2 (fun _ => "a"%char) [(str "b", 1)])
     [(fun _ : nat => "a"%char) 0] = false) ∧
  make_automaton 50 (build 2 (fun _ => "a"%char) [(str "b", 1)])
  ≠ Ok (build 2 (fun _ => "a"%char) [(str "b", 1)]).
Proof.
  assert (H1 : 0 < 1) by lia.
  assert (H2 : 1 < 2) by lia.
  assert (H3 : (fun _ : nat => "a"%char) 0 = (fun _ : nat => "a"%char) 1)
    by reflexivity.
  assert (H4 : match_ (build 2 (fun _ => "a"%char) [(str "b", 1)])
                 [(fun _ : nat => "a"%char) 0] = false)
    by (vm_compute; reflexivity).
  split; [exact (conj H1 (conj H2 (conj H3 H4)))|].
  exact (make_automaton_repeated_item 2 (fun _ => "a"%char) [(str "b", 1)]
           0 1 50 (build 2 (fun _ => "a"%char) [(str "b", 1)])
           H1 H2 H3 H4).
Defined.

Lemma make_automaton_twice_witness :
  (make_automaton 100
     (build 256 chr [(str "he", 1); (str "she", 2); (str "hers", 3)])
   = Ok ushers_automaton ∧
   120 < 256 ∧
   match_ (build 256 chr [(str "he", 1); (str "she", 2); (str "hers", 3)])
     [chr 120] = false) ∧
  make_automaton 100 ushers_automaton ≠ Ok ushers_automaton.
Proof.
  assert (H1 : make_automaton 100
    (build 256 chr [(str "he", 1); (str "she", 2); (str "hers", 3)])
    = Ok ushers_automaton) by (vm_compute; reflexivity).
  assert (H2 : 120 < 256) by lia.
  assert (H3 : match_
    (build 256 chr [(str "he", 1); (str "she", 2); (str "hers", 3)])
    [chr 120] = false) by (vm_compute; reflexivity).
  split; [exact (conj H1 (conj H2 H3))|].
  exact (make_automaton_twice 256 chr
           [(str "he", 1); (str "she", 2); (str "hers", 3)] 100
           ushers_automaton 120 100 ushers_automaton H1 H2 H3).
Defined.

Lemma search_before_make_automaton_witness :
  2 ≤ 5 ∧
  (match_ (build 256 chr [(str "he", 1); (str "hers", 3)]) (str "hers")
   = true ->
   ∃ out,
     search 5 (build 256 chr [(str "he", 1); (str "hers", 3)]) (str "hers")
     = Ok out ∧
     ∀ i vals, (i, vals) ∈ out <->
       i < length (str "hers") ∧
       ∃ v : nat,
         get (build 256 chr [(str "he", 1); (str "hers", 3)])
           (take (S i) (str "hers")) None = Ok v ∧ vals = [v]) ∧
  (match_ (build 256 chr [(str "he", 1); (str "hers", 3)]) (str "hers")
   = false ->
   search 5 (build 256 chr [(str "he", 1); (str "hers", 3)]) (str "hers")
   = Raise AttributeError).
Proof.
  assert (H1 : 2 ≤ 5) by lia.
  split; [exact H1|].
  exact (search_before_make_automaton 256 chr
           [(str "he", 1); (str "hers", 3)] (str "hers") 5 H1).
Defined.

Lemma search_sound_witness :
  (make_automaton 100
     (build 256 chr [(str "he", 1); (str "she", 2); (str "hers", 3)])
   = Ok ushers_automaton ∧
   search 9 ushers_automaton (str "ushers") = Ok [(3, [2; 1]); (5, [3])]) ∧
  StronglySorted lt [(3, [2; 1]); (5, [3])].*1 ∧
  ∀ i vals, (i, vals) ∈ [(3, [2; 1]); (5, [3])] ->
    i < length (str "ushers") ∧ vals ≠ [] ∧
    ∃ keys,
      Forall2 (fun key v =>
                 key ≠ [] ∧ key `suffix_of` take (S i) (str "ushers") ∧
                 get (build 256 chr
                        [(str "he", 1); (str "she", 2); (str "hers", 3)])
                   key None = Ok v) keys vals ∧
      StronglySorted
        (fun key1 key2 : list ascii => length key2 < length key1) keys.
Proof.
  assert (H1 : make_automaton 100
    (build 256 chr [(str "he", 1); (str "she", 2); (str "hers", 3)])
    = Ok ushers_automaton) by (vm_compute; reflexivity).
  assert (H2 : search 9 ushers_automaton (str "ushers")
               = Ok [(3, [2; 1]); (5, [3])]) by (vm_compute; reflexivity).
  split; [exact (conj H1 H2)|].
  exact (search_sound 256 chr
           [(str "he", 1); (str "she", 2); (str "hers", 3)] 100
           ushers_automaton 9 (str "ushers") _ H1 H2).
Defined.

Lemma search_complete_witness :
  (make_automaton 100
     (build 256 chr [(str "he", 1); (str "she", 2); (str "hers", 3)])
   = Ok ushers_automaton ∧
   forallb (in_universe 256 chr) (str "ushers") = true ∧
   length (nodes ushers_automaton) < 9) ∧
  ∃ out, search 9 ushers_automaton (str "ushers") = Ok out ∧
    ∀ i key (v : nat),
      i < length (str "ushers") ->
      key `suffix_of` take (S i) (str "ushers") ->
      get (build 256 chr [(str "he", 1); (str "she", 2); (str "hers", 3)])
        key None = Ok v ->
      ∃ vals, (i, vals) ∈ out ∧ v ∈ vals.
Proof.
  assert (H1 : make_automaton 100
    (build 256 chr [(str "he", 1); (str "she", 2); (str "hers", 3)])
    = Ok ushers_automaton) by (vm_compute; reflexivity).
  assert (H2 : forallb (in_universe 256 chr) (str "ushers") = true)
    by (vm_compute; reflexivity).
  assert (H3 : length (nodes ushers_automaton) < 9) by (vm_compute; lia).
  split; [exact (conj H1 (conj H2 H3))|].
  exact (search_complete 256 chr
           [(str "he", 1); (str "she", 2); (str "hers", 3)] 100
           ushers_automaton 9 (str "ushers") H1 H2 H3).
Defined.
